(** * Chronographer: informed graph traversal over an RDF triple store

    A shallow embedding of the search engine of the repository
    ([src/hdt_interface.py], [src/filtering.py], [src/framework.py]) and the
    properties of its specification that can be settled on it.

    Conventions of the embedding.
    - Python [str] values are [string]s, one [Ascii.ascii] per character:
      the values below 128 are the ASCII characters, the others stand for
      the characters beyond ASCII, in the order of their code points.
      Comparisons [<], [>] on [str] are lexicographic, as [String.ltb];
      which characters beyond ASCII are decimal digits is read from the
      Unicode database ([Py.unicodedata]).
    - A pandas DataFrame is the list of its rows, plus, where the code adds
      columns on the fly, a list of named extra columns.
    - A Python [dict] is a [gmap]; a [defaultdict(int)] reads a missing key
      as [0].
    - An exception is a value of an error type; unbounded recursion is
      modelled with a fuel argument (running out of fuel is Python's
      [RecursionError]). *)

From Stdlib Require Import ZArith Lia Bool.
From Stdlib Require String Ascii.
From stdpp Require Import base option list gmap strings sorting.

Local Open Scope Z_scope.

(** ** Python primitives used by the code *)

Module Py.

(** [s.startswith(pre)] *)
Definition startswith (s pre : string) : bool := String.prefix pre s.

(** [sub in s] on strings. *)
Fixpoint contains (sub s : string) : bool :=
  String.prefix sub s ||
  match s with
  | EmptyString => false
  | String _ s' => contains sub s'
  end.

(** [s.replace(old, new)]: every non-overlapping occurrence of [old], left
    to right. [old] is a non-empty literal at every call site of the code
    ("1-", "2-", "3-", "ingoing-", "outgoing-"). [skip] counts the
    characters of a matched occurrence that remain to be dropped. *)
Fixpoint replace_from (skip : nat) (old new s : string) : string :=
  match s with
  | EmptyString => EmptyString
  | String c s' =>
      match skip with
      | S k => replace_from k old new s'
      | O =>
          if String.prefix old s
          then new +:+ replace_from (String.length old - 1) old new s'
          else String c (replace_from 0 old new s')
      end
  end.

Definition replace (old new s : string) : string := replace_from 0 old new s.

(** [s.split(sep)] for a one-character separator. *)
Fixpoint split_from (sep : Ascii.ascii) (cur : string) (s : string) : list string :=
  match s with
  | EmptyString => [String.rev cur]
  | String c s' =>
      if Ascii.eqb c sep
      then String.rev cur :: split_from sep EmptyString s'
      else split_from sep (String c cur) s'
  end.

Definition split (sep : Ascii.ascii) (s : string) : list string :=
  split_from sep EmptyString s.

(** [a < b] and [a > b] on [str]. *)
Definition lt (a b : string) : bool := String.ltb a b.
Definition gt (a b : string) : bool := String.ltb b a.

(** [s[:n]] *)
Definition take (n : nat) (s : string) : string := String.substring 0 n s.

(** [s[i:j]] for [0 <= i <= j]. *)
Definition slice (i j : nat) (s : string) : string := String.substring i (j - i) s.

(** pandas [Series.unique()] and [DataFrame.drop_duplicates()]: the first
    occurrence of every value, in order of appearance. *)
Fixpoint unique_from {A} `{EqDecision A} (seen l : list A) : list A :=
  match l with
  | [] => []
  | x :: l' =>
      if bool_decide (x ∈ seen) then unique_from seen l'
      else x :: unique_from (x :: seen) l'
  end.

Definition unique {A} `{EqDecision A} (l : list A) : list A := unique_from [] l.

(** [list(set(l))]: the distinct elements of [l]. Python fixes no order
    for them; the embedding lists them by first occurrence, and no
    statement below depends on the order. *)
Definition list_set {A} `{EqDecision A} (l : list A) : list A := unique l.

(** [x in l] for a list. *)
Definition in_list (x : string) (l : list string) : bool := bool_decide (x ∈ l).

(** Values compared across types. The code compares a count with a path
    key; [==] between an [int] and a [str] is [False] in Python. *)
Inductive value :=
| VInt (z : Z)
| VStr (s : string).

Definition eq (a b : value) : bool :=
  match a, b with
  | VInt x, VInt y => Z.eqb x y
  | VStr x, VStr y => String.eqb x y
  | _, _ => false
  end.

Definition ne (a b : value) : bool := negb (eq a b).

(** The Unicode database of the interpreter, as far as the code reads it:
    the characters beyond ASCII of category Nd (decimal digit), which the
    class [\d] of a [str] pattern matches besides "0" to "9". *)
Class unicodedata := { decimal : Ascii.ascii → bool }.

(** [c.isascii()] *)
Definition isascii (c : Ascii.ascii) : bool := (Ascii.nat_of_ascii c <? 128)%nat.

End Py.

(** ** The triple-store adapter ([src/hdt_interface.py]) *)

Module HDTInterface.

Definition triple : Type := string * string * string.

Definition DEFAULT_PRED : list string :=
  ["http://www.w3.org/1999/02/22-rdf-syntax-ns#type";
   "http://dbpedia.org/ontology/date";
   "http://dbpedia.org/ontology/startDate";
   "http://dbpedia.org/ontology/endDate";
   "http://dbpedia.org/property/birthDate";
   "http://dbpedia.org/property/deathDate"].

(** The interface object: the HDT document (its triples, in the order the
    document enumerates them) and the meta predicates [self.pred]. *)
Record t := mk {
  db_hdt : list triple;
  pred : list string
}.

(** [HDTDocument.search_triples(s, p, o)]: an empty string is a wildcard. *)
Definition term_matches (pat x : string) : bool :=
  String.eqb pat "" || String.eqb pat x.

Definition search_triples (db : list triple) (s p o : string) : list triple :=
  filter (λ tr : triple, term_matches s tr.1.1 && term_matches p tr.1.2
                         && term_matches o tr.2 = true) db.

(** The [params] dictionary of [run_request]: each key may be absent. *)
Record params := mk_params {
  p_subject : option string;
  p_predicate : option string;
  p_object : option string
}.

Definition run_request (self : t) (ps : params) (filter_pred : list string)
    (filter_keep : bool) : list triple :=
  let subject_t := default "" (p_subject ps) in
  let predicate_t := default "" (p_predicate ps) in
  let object_t := default "" (p_object ps) in
  let triples := search_triples (db_hdt self) subject_t predicate_t object_t in
  if filter_keep
  then filter (λ tr : triple, Py.in_list tr.1.2 filter_pred = true) triples
  else filter (λ tr : triple, Py.in_list tr.1.2 filter_pred = false) triples.

Definition subClassOf : string := "http://www.w3.org/2000/01/rdf-schema#subClassOf".
Definition owl_Thing : string := "http://www.w3.org/2002/07/owl#Thing".

(** [get_superclass]: the recursion of the source, with the depth of the
    Python call stack as [fuel]. [None] is the [RecursionError] of a walk
    that does not end within [fuel] calls. *)
Fixpoint get_superclass (self : t) (fuel : nat) (node : string) : option string :=
  match fuel with
  | O => None
  | S fuel' =>
      let info := run_request self (mk_params (Some node) None None)
                              [subClassOf] true in
      match info with
      | [] => Some node
      | (_, _, o) :: _ =>
          if String.eqb o owl_Thing then Some node
          else get_superclass self fuel' o
      end
  end.

Definition namespace_to_discard : list string :=
  ["http://en.wikipedia.org/"; "https"; "http://citation.dbpedia.org/";
   "http://books.google.com/"; "http://en.wikisource";
   "http://www.sparknotes.com"; String (Ascii.ascii_of_nat 34) EmptyString;
   "http://whc.unesco.org"; "http://www"; "http://dinlarthelwa";
   "http://afm"].

Definition starts_with_any (s : string) (l : list string) : bool :=
  existsb (Py.startswith s) l.

Definition _filter_namespace (triples : list triple) : list triple :=
  let triples := filter (λ elt : triple,
                   starts_with_any elt.2 namespace_to_discard = false) triples in
  filter (λ elt : triple,
            starts_with_any elt.1.1 namespace_to_discard = false) triples.

Definition category_ns : string := "http://dbpedia.org/resource/Category:".

Definition _filter (triples : list triple) : list triple :=
  let triples := _filter_namespace triples in
  let triples := filter (λ elt : triple,
                   Py.startswith elt.1.1 category_ns = false) triples in
  filter (λ elt : triple, Py.startswith elt.2 category_ns = false) triples.

Definition pre_process_date (x_date : string) : string :=
  if Py.contains "<http://www.w3.org/2001/XMLSchema#date>" x_date
  then Py.slice 1 11 x_date
  else if Py.contains "<http://www.w3.org/2001/XMLSchema#integer>" x_date
  then Py.slice 1 5 x_date
  else x_date.

Definition invalid : list string :=
  [String (Ascii.ascii_of_nat 34) "Unknown" +:+
   String (Ascii.ascii_of_nat 34) "@"].

Definition _filter_specific (triples : list triple) : list triple :=
  let triples := filter (λ tr : triple, Py.in_list tr.2 invalid = false) triples in
  map (λ tr : triple, (tr.1.1, tr.1.2, pre_process_date tr.2)) triples.

Definition _get_ingoing (self : t) (node : string) (predicate : list string)
    : list triple :=
  _filter (run_request self (mk_params None None (Some node)) predicate false).

Definition _get_outgoing (self : t) (node : string) (predicate : list string)
    : list triple :=
  _filter (run_request self (mk_params (Some node) None None) predicate false).

Definition _get_specific_outgoing (self : t) (ingoing outgoing : list triple)
    : list triple :=
  flat_map (λ tr : triple,
              run_request self (mk_params (Some tr.1.1) None None) (pred self) true)
           ingoing ++
  flat_map (λ tr : triple,
              run_request self (mk_params (Some tr.2) None None) (pred self) true)
           outgoing.

Definition _get_all_results (self : t) (node : string) (predicate : list string)
    : list triple * list triple * list triple :=
  let ingoing := _get_ingoing self node predicate in
  let outgoing := _get_outgoing self node predicate in
  (ingoing, outgoing,
   _filter_specific (_get_specific_outgoing self ingoing outgoing)).

(** A row of the frames built by [_get_df]. *)
Record row := mk_row {
  subject : string;
  predicate : string;
  object : string;
  type_df : string
}.

#[global] Instance row_eq_dec : EqDecision row.
Proof. solve_decision. Defined.

Definition _get_df (list_triples : list triple) (type_df : string) : list row :=
  Py.unique (map (λ tr : triple, mk_row tr.1.1 tr.1.2 tr.2 type_df) list_triples).

(** [__call__] *)
Definition call (self : t) (node : string) (predicate : list string)
    : list row * list row * list row :=
  let '(ingoing, outgoing, types) := _get_all_results self node predicate in
  (_get_df ingoing "ingoing", _get_df outgoing "outgoing",
   _get_df types "spec. outgoing").

End HDTInterface.

(** ** The narrative filter ([src/filtering.py]) *)

Module Filtering.

Abbreviation row := HDTInterface.row.
Abbreviation subject := HDTInterface.subject.
Abbreviation predicate := HDTInterface.predicate.
Abbreviation object := HDTInterface.object.

(** A DataFrame object: its rows (columns [subject], [predicate],
    [object], [type_df]) and the columns assigned to it afterwards, each a
    name with one cell per row. *)
Record DataFrame := mk_df {
  rows : list row;
  extra : list (string * list string)
}.

(** [df.shape[0]] *)
Definition shape0 (df : DataFrame) : nat := length (rows df).

(** [df[name] = vals]: an existing column is overwritten in place, a new
    one is appended. *)
Fixpoint set_assoc (name : string) (vals : list string)
    (cols : list (string * list string)) : list (string * list string) :=
  match cols with
  | [] => [(name, vals)]
  | (n, v) :: cols' =>
      if String.eqb n name then (name, vals) :: cols'
      else (n, v) :: set_assoc name vals cols'
  end.

Definition set_column (name : string) (vals : list string) (df : DataFrame)
    : DataFrame :=
  mk_df (rows df) (set_assoc name vals (extra df)).

Fixpoint get_assoc (name : string) (cols : list (string * list string))
    : option (list string) :=
  match cols with
  | [] => None
  | (n, v) :: cols' => if String.eqb n name then Some v else get_assoc name cols'
  end.

(** [df.name] for an added column; [None] is the [AttributeError] of a
    missing one. *)
Definition get_column (name : string) (df : DataFrame) : option (list string) :=
  get_assoc name (extra df).

Definition has_column (name : string) (df : DataFrame) : bool :=
  match get_column name df with Some _ => true | None => false end.

(** [df[mask]]: the rows whose mask cell is true. *)
Definition select (mask : list bool) (rs : list row) : list row :=
  map snd (filter (λ br : bool * row, br.1 = true) (zip mask rs)).

(** DataFrames are objects shared with the caller: the store maps a
    reference to the frame it denotes, and the methods run in a state
    monad over the store. [None] is a dangling reference, which Python
    does not have. *)
Abbreviation ref := nat.
Abbreviation heap := (gmap nat DataFrame).
Definition M (A : Type) : Type := heap → option (A * heap).

#[global] Instance M_ret : MRet M := λ A x h, Some (x, h).
#[global] Instance M_bind : MBind M := λ A B f m h,
  match m h with
  | Some (x, h') => f x h'
  | None => None
  end.

Definition read (r : ref) : M DataFrame := λ h,
  match h !! r with
  | Some df => Some (df, h)
  | None => None
  end.

Definition write (r : ref) (df : DataFrame) : M unit := λ h, Some (tt, <[r := df]> h).

Definition fail {A} : M A := λ _, None.

Definition lift_option {A} (o : option A) : M A :=
  match o with
  | Some x => mret x
  | None => fail
  end.

(** The object built by [__init__]. [where_] and [when] are the 0/1 flags
    of the argument dictionary. *)
Record t := mk {
  where_ : Z;
  when : Z;
  dates : list string;
  start_dates : list string;
  end_dates : list string;
  temporal : list string;
  places : list string
}.

Record args := mk_args {
  a_where : option Z;
  a_when : option Z
}.

Inductive exn := ValueError.

Definition flag_ok (o : option Z) : bool :=
  match o with
  | Some v => Z.eqb v 0 || Z.eqb v 1
  | None => true
  end.

Definition _check_args (a : args) : exn + unit :=
  if flag_ok (a_where a) && flag_ok (a_when a) then inr tt else inl ValueError.

Definition init (a : args) : exn + t :=
  match _check_args a with
  | inl e => inl e
  | inr _ =>
      let dates := ["http://dbpedia.org/ontology/date"] in
      let start_dates := ["http://dbpedia.org/ontology/startDate";
                          "http://dbpedia.org/property/birthDate"] in
      let end_dates := ["http://dbpedia.org/ontology/endDate";
                        "http://dbpedia.org/property/deathDate"] in
      inr {| where_ := default 0 (a_where a);
             when := default 0 (a_when a);
             dates := dates;
             start_dates := start_dates;
             end_dates := end_dates;
             temporal := dates ++ start_dates ++ end_dates;
             places := ["http://dbpedia.org/ontology/Place";
                        "http://dbpedia.org/ontology/Location"] |}
  end.

(** Truth value of a flag in [if self.where:]. *)
Definition truthy (z : Z) : bool := negb (Z.eqb z 0).

(** The date window [dates = [t_lo, t_hi]]. *)
Definition window : Type := string * string.

Definition date_out (self : t) (w : window) (r : row) : bool :=
  (Py.in_list (predicate r) (end_dates self) && Py.lt (object r) w.1) ||
  (Py.in_list (predicate r) (start_dates self) && Py.gt (object r) w.2) ||
  (Py.in_list (predicate r) (dates self) && Py.lt (object r) w.1) ||
  (Py.in_list (predicate r) (dates self) && Py.gt (object r) w.2).

Definition get_to_discard_date (self : t) (date_df : list row) (w : window)
    : list string :=
  Py.unique (map subject (filter (λ r, date_out self w r = true) date_df)).

Section Regex.

Context {unicode : Py.unicodedata}.

(** The class [\d] of a [str] pattern: a Unicode decimal digit, that is
    "0" to "9" among the ASCII characters and, beyond ASCII, the characters
    the Unicode database puts in category Nd. *)
Definition is_digit (c : Ascii.ascii) : bool :=
  if Py.isascii c
  then (48 <=? Ascii.nat_of_ascii c)%nat && (Ascii.nat_of_ascii c <=? 57)%nat
  else Py.decimal c.

(** The regular expression [\d{4}]: four decimal digits in a row. *)

Definition four_digits_at (s : string) : bool :=
  match s with
  | String a (String b (String c (String d _))) =>
      is_digit a && is_digit b && is_digit c && is_digit d
  | _ => false
  end.

(** [re.findall(pattern, val)]: the matches from left to right, without
    overlap. [skip] counts the characters of the last match still to be
    passed over. *)
Fixpoint findall_from (skip : nat) (val : string) : list string :=
  match val with
  | EmptyString => []
  | String _ val' =>
      match skip with
      | S k => findall_from k val'
      | O =>
          if four_digits_at val
          then Py.take 4 val :: findall_from 3 val'
          else findall_from 0 val'
      end
  end.

Definition findall (val : string) : list string := findall_from 0 val.

Definition regex_helper (val default_return_val : string) : string :=
  match findall val with
  | m :: _ => m
  | [] => default_return_val
  end.

Definition out_of_years (w : window) (helper : string) : bool :=
  Py.lt helper (Py.take 4 w.1) || Py.gt helper (Py.take 4 w.2).

(** One half of [get_to_discard_regex]: [key] is the column read
    ([subject] for the ingoing frame, [object] for the outgoing one). *)
Definition discard_regex_half (key : row → string) (r : ref) (w : window)
    : M (list string) :=
  df ← read r;
  if (0 <? shape0 df)%nat then
    _ ← write r (set_column "regex_helper"
                   (map (λ x, regex_helper (key x) (Py.take 4 w.1)) (rows df)) df);
    df' ← read r;
    helper ← lift_option (get_column "regex_helper" df');
    mret (Py.unique (map key (select (map (out_of_years w) helper) (rows df'))))
  else mret [].

Definition get_to_discard_regex (self : t) (ingoing outgoing : ref) (w : window)
    : M (list string) :=
  ingoing_discard ← discard_regex_half subject ingoing w;
  outgoing_discard ← discard_regex_half object outgoing w;
  mret (ingoing_discard ++ outgoing_discard).

Definition get_to_discard_location (self : t) (df_pd : list row) : list string :=
  Py.unique (map subject
    (filter (λ r, Py.in_list (object r) (places self) = true) df_pd)).

(** [__call__]. [date_df] is a fresh frame local to the call (its cells
    are strings already, so [astype(str)] leaves them as they are). *)
Definition call (self : t) (ingoing outgoing type_date : ref) (w : window)
    : M (list string) :=
  td ← read type_date;
  let date_df :=
    filter (λ r, Py.in_list (predicate r) (temporal self) = true) (rows td) in
  let to_discard := [] in
  let to_discard :=
    if truthy (where_ self)
    then to_discard ++ Py.list_set (get_to_discard_location self (rows td))
    else to_discard in
  if truthy (when self) then
    rx ← get_to_discard_regex self ingoing outgoing w;
    mret (to_discard ++ Py.list_set (get_to_discard_date self date_df w ++ rx))
  else mret to_discard.

End Regex.

End Filtering.

(** ** The search loop ([src/framework.py]) *)

Module GraphSearchFramework.

Inductive mode_t :=
| search_type_node_metrics
| search_type_node_no_metrics
| search_specific_node
| simple_search.

Inductive node_selection_t := random | all.

Inductive type_ranking_t :=
| pred_freq
| inverse_pred_freq
| entropy_pred_freq
| pred_object_freq
| inverse_pred_object_freq
| entropy_pred_object_freq.

Inductive exn := ValueError | KeyError | UnboundLocalError.

(** The [superclass] cell of a pending row, written by the ordering step.
    [x in superclass] is a substring test on a [str] and a membership test
    on a [list]. *)
Inductive superclass_t :=
| SupStr (s : string)
| SupList (l : list string).

Definition sup_contains (x : string) (sup : superclass_t) : bool :=
  match sup with
  | SupStr s => Py.contains x s
  | SupList l => Py.in_list x l
  end.

(** A row of the pending frames (after ordering). *)
Record path_row := mk_path_row {
  subject : string;
  predicate : string;
  object : string;
  superclass : superclass_t
}.

(** A row of [self.subgraph]. *)
Record subgraph_row := mk_subgraph_row {
  sg_subject : string;
  sg_predicate : string;
  sg_object : string;
  sg_type_df : string;
  sg_iteration : nat
}.

(** The columns a row is deduplicated on. *)
Definition sg_key (r : subgraph_row) : string * string * string * string :=
  (sg_subject r, sg_predicate r, sg_object r, sg_type_df r).

(** The argument dictionary handed to the node expander. *)
Record expand_args := mk_args {
  arg_node : string;
  arg_path : list string;
  arg_predicate : list string;
  arg_iteration : nat
}.

(** The five frames one expansion returns. *)
Record bundle := mk_bundle {
  subgraph_ingoing : list HDTInterface.row;
  path_ingoing : list HDTInterface.row;
  subgraph_outgoing : list HDTInterface.row;
  path_outgoing : list HDTInterface.row;
  to_discard : list string
}.

Definition triple : Type := string * string * string.

(** The configuration read by [__init__]. *)
Record config := mk_config {
  start : string;
  iterations : Z;
  type_ranking : type_ranking_t;
  type_interface : string;
  rdf_type : list (string * string);
  predicate_filter : list string;
  mode : mode_t;
  node_selection_type : node_selection_t
}.

Section Framework.

(** The types of the ranker's score, of the ordering's info table and of
    the metrics table. *)
Context {Score Info Metrics : Type}.

(** The classes of the repository the loop calls and that are not part
    of the sources at hand ([Ranker], [NodeSelection], [NodeExpansion],
    [Ordering], [Metrics]): the loop is stated over any behaviour of
    them. [node_selection] takes the iteration number besides the
    candidate list, which stands for the state of its random generator. *)
Record collaborators := mk_collaborators {
  ranker : gmap string Z → option string * option Score;
  node_selection : nat → list string → list string;
  node_expander : expand_args → bundle;
  ordering : list HDTInterface.row → string → Info → nat → list path_row * Info;
  update_metrics_data : Metrics → nat → list string → Metrics;
  empty_info : Info;
  empty_metrics : Metrics
}.

(** The mutable fields of the framework object. *)
Record state := mk_state {
  subgraph : list subgraph_row;
  pending_nodes_ingoing : list path_row;
  pending_nodes_outgoing : list path_row;
  nodes_expanded : list string;
  occurence : gmap string Z;
  to_expand : option string;
  score_expansion : option Score;
  nodes_expanded_per_iter : list (nat * list string);
  expanded : list (nat * string * list string * option Score);
  discarded : list (nat * list string);
  path_node_to_start : gmap string (list triple);
  info : Info;
  metrics_data : Metrics
}.

Definition set_subgraph v (s : state) :=
  mk_state v (pending_nodes_ingoing s) (pending_nodes_outgoing s) (nodes_expanded s)
    (occurence s) (to_expand s) (score_expansion s) (nodes_expanded_per_iter s)
    (expanded s) (discarded s) (path_node_to_start s) (info s) (metrics_data s).
Definition set_pending_nodes_ingoing v (s : state) :=
  mk_state (subgraph s) v (pending_nodes_outgoing s) (nodes_expanded s)
    (occurence s) (to_expand s) (score_expansion s) (nodes_expanded_per_iter s)
    (expanded s) (discarded s) (path_node_to_start s) (info s) (metrics_data s).
Definition set_pending_nodes_outgoing v (s : state) :=
  mk_state (subgraph s) (pending_nodes_ingoing s) v (nodes_expanded s)
    (occurence s) (to_expand s) (score_expansion s) (nodes_expanded_per_iter s)
    (expanded s) (discarded s) (path_node_to_start s) (info s) (metrics_data s).
Definition set_nodes_expanded v (s : state) :=
  mk_state (subgraph s) (pending_nodes_ingoing s) (pending_nodes_outgoing s) v
    (occurence s) (to_expand s) (score_expansion s) (nodes_expanded_per_iter s)
    (expanded s) (discarded s) (path_node_to_start s) (info s) (metrics_data s).
Definition set_occurence v (s : state) :=
  mk_state (subgraph s) (pending_nodes_ingoing s) (pending_nodes_outgoing s)
    (nodes_expanded s) v (to_expand s) (score_expansion s) (nodes_expanded_per_iter s)
    (expanded s) (discarded s) (path_node_to_start s) (info s) (metrics_data s).
Definition set_to_expand v (s : state) :=
  mk_state (subgraph s) (pending_nodes_ingoing s) (pending_nodes_outgoing s)
    (nodes_expanded s) (occurence s) v (score_expansion s) (nodes_expanded_per_iter s)
    (expanded s) (discarded s) (path_node_to_start s) (info s) (metrics_data s).
Definition set_score_expansion v (s : state) :=
  mk_state (subgraph s) (pending_nodes_ingoing s) (pending_nodes_outgoing s)
    (nodes_expanded s) (occurence s) (to_expand s) v (nodes_expanded_per_iter s)
    (expanded s) (discarded s) (path_node_to_start s) (info s) (metrics_data s).
Definition set_nodes_expanded_per_iter v (s : state) :=
  mk_state (subgraph s) (pending_nodes_ingoing s) (pending_nodes_outgoing s)
    (nodes_expanded s) (occurence s) (to_expand s) (score_expansion s) v
    (expanded s) (discarded s) (path_node_to_start s) (info s) (metrics_data s).
Definition set_expanded v (s : state) :=
  mk_state (subgraph s) (pending_nodes_ingoing s) (pending_nodes_outgoing s)
    (nodes_expanded s) (occurence s) (to_expand s) (score_expansion s)
    (nodes_expanded_per_iter s) v (discarded s) (path_node_to_start s) (info s)
    (metrics_data s).
Definition set_discarded v (s : state) :=
  mk_state (subgraph s) (pending_nodes_ingoing s) (pending_nodes_outgoing s)
    (nodes_expanded s) (occurence s) (to_expand s) (score_expansion s)
    (nodes_expanded_per_iter s) (expanded s) v (path_node_to_start s) (info s)
    (metrics_data s).
Definition set_path_node_to_start v (s : state) :=
  mk_state (subgraph s) (pending_nodes_ingoing s) (pending_nodes_outgoing s)
    (nodes_expanded s) (occurence s) (to_expand s) (score_expansion s)
    (nodes_expanded_per_iter s) (expanded s) (discarded s) v (info s)
    (metrics_data s).
Definition set_info v (s : state) :=
  mk_state (subgraph s) (pending_nodes_ingoing s) (pending_nodes_outgoing s)
    (nodes_expanded s) (occurence s) (to_expand s) (score_expansion s)
    (nodes_expanded_per_iter s) (expanded s) (discarded s) (path_node_to_start s) v
    (metrics_data s).
Definition set_metrics_data v (s : state) :=
  mk_state (subgraph s) (pending_nodes_ingoing s) (pending_nodes_outgoing s)
    (nodes_expanded s) (occurence s) (to_expand s) (score_expansion s)
    (nodes_expanded_per_iter s) (expanded s) (discarded s) (path_node_to_start s)
    (info s) v.

Variable C : collaborators.
Variable cfg : config.

(** The fields as [__init__] leaves them. *)
Definition init : state :=
  mk_state [] [] [] [] ∅ None None [] [] [] ∅ (empty_info C) (empty_metrics C).

(** Truth value of [self.to_expand] in a condition: [None] and the
    empty string are false. *)
Definition truthy (p : option string) : bool :=
  match p with
  | Some s => negb (String.eqb s "")
  | None => false
  end.

(** The loop over ["1-", "2-", "3-"] at the head of
    [_select_nodes_to_expand]. *)
Definition strip_priority (s : string) : string :=
  fold_left (λ acc elt, if Py.startswith acc elt then Py.replace elt "" acc else acc)
            ["1-"; "2-"; "3-"] s.

Definition semicolon : Ascii.ascii := Ascii.ascii_of_nat 59.

(** The candidates of a stripped path: [None] is the [ValueError] of
    unpacking a [split] that does not have two parts. *)
Definition candidates (s : state) (p : string) : option (list string) :=
  if Py.contains ";" p && Py.contains "ingoing" p then
    match Py.split semicolon (Py.replace "ingoing-" "" p) with
    | [pred; obj] =>
        Some (map subject
          (filter (λ r, predicate r = pred ∧ object r = obj)
                  (pending_nodes_ingoing s)))
    | _ => None
    end
  else if Py.contains ";" p && Py.contains "outgoing" p then
    match Py.split semicolon (Py.replace "outgoing-" "" p) with
    | [subj; pred] =>
        Some (map object
          (filter (λ r, predicate r = pred ∧ subject r = subj)
                  (pending_nodes_outgoing s)))
    | _ => None
    end
  else
    Some (map subject (filter (λ r, predicate r = p) (pending_nodes_ingoing s)) ++
          map object (filter (λ r, predicate r = p) (pending_nodes_outgoing s))).

(** [_select_nodes_to_expand]: the nodes, the path, and the object with
    [to_expand] overwritten by its stripped form. *)
Definition _select_nodes_to_expand (iteration : nat) (s : state)
    : exn + (list string * list string * state) :=
  let r :=
    if truthy (to_expand s) then
      let p := strip_priority (default "" (to_expand s)) in
      let s := set_to_expand (Some p) s in
      match candidates s p with
      | Some nodes => inr (nodes, [p], s)
      | None => inl ValueError
      end
    else inr ([start cfg], [], s) in
  match r with
  | inl e => inl e
  | inr (nodes, path, s) =>
      let nodes := filter (λ node, node ∉ nodes_expanded s) nodes in
      let nodes :=
        match nodes with
        | [] => nodes
        | _ => node_selection C iteration nodes
        end in
      inr (nodes, path, s)
  end.

Definition _update_nodes_expanded (iteration : nat) (nodes : list string)
    (s : state) : state :=
  set_nodes_expanded_per_iter (nodes_expanded_per_iter s ++ [(iteration, nodes)]) s.

(** [run_one_iteration]. With an empty [type_interface] the expansions
    go through a worker pool and the visited list is left alone;
    otherwise every node is appended to it before it is expanded. *)
Definition run_one_iteration (iteration : nat) (s : state)
    : exn + (list bundle * list string * state) :=
  match _select_nodes_to_expand iteration s with
  | inl e => inl e
  | inr (nodes_to_expand, path, s) =>
      let s := _update_nodes_expanded iteration nodes_to_expand s in
      let args := map (λ node, mk_args node path (predicate_filter cfg) iteration)
                      nodes_to_expand in
      let output := map (node_expander C) args in
      if String.eqb (type_interface cfg) ""
      then inr (output, nodes_to_expand, s)
      else inr (output, nodes_to_expand,
                set_nodes_expanded (nodes_expanded s ++ map arg_node args) s)
  end.

Definition _get_nb (sup : superclass_t) (pred : string) : string :=
  if existsb (λ x, sup_contains x sup) (map snd (rdf_type cfg)) then "1"
  else if Py.in_list pred [] then "2"
  else "3".

(** [occurence[key] += 1] on a [defaultdict(int)]. *)
Definition incr (key : string) (occ : gmap string Z) : gmap string Z :=
  <[key := default 0 (occ !! key) + 1]> occ.

Definition key_pred (r : path_row) : string :=
  _get_nb (superclass r) (predicate r) +:+ "-" +:+ predicate r.
Definition key_ingoing (r : path_row) : string :=
  _get_nb (superclass r) (predicate r) +:+ "-ingoing-" +:+ predicate r +:+ ";" +:+ object r.
Definition key_outgoing (r : path_row) : string :=
  _get_nb (superclass r) (predicate r) +:+ "-outgoing-" +:+ subject r +:+ ";" +:+ predicate r.

Definition on_predicate (tr : type_ranking_t) : bool :=
  match tr with
  | pred_freq | entropy_pred_freq | inverse_pred_freq => true
  | _ => false
  end.

Definition on_predicate_object (tr : type_ranking_t) : bool :=
  match tr with
  | pred_object_freq | entropy_pred_object_freq | inverse_pred_object_freq => true
  | _ => false
  end.

Definition count_rows (key : path_row → string) (rs : list path_row)
    (occ : gmap string Z) : gmap string Z :=
  fold_left (λ occ r, incr (key r) occ) rs occ.

Definition _update_occurence (ingoing outgoing : list path_row)
    (occ : gmap string Z) : gmap string Z :=
  let occ :=
    if on_predicate (type_ranking cfg)
    then count_rows key_pred outgoing (count_rows key_pred ingoing occ)
    else occ in
  if on_predicate_object (type_ranking cfg)
  then count_rows key_outgoing outgoing (count_rows key_ingoing ingoing occ)
  else occ.

(** [update_occurrence_after_expansion]: the two dictionary
    comprehensions of the source. In the first one the condition
    compares the count [v] with the path [to_expand]. *)
Definition update_occurrence_after_expansion (occ : gmap string Z)
    (to_expand : string) : gmap string Z :=
  match node_selection_type cfg with
  | random =>
      (λ v, if Py.ne (Py.VInt v) (Py.VStr to_expand) then v else v - 1) <$> occ
  | all =>
      filter (λ kv : string * Z, kv.1 ≠ to_expand) occ
  end.

Definition tag (iteration : nat) (r : HDTInterface.row) : subgraph_row :=
  mk_subgraph_row (HDTInterface.subject r) (HDTInterface.predicate r)
                  (HDTInterface.object r) (HDTInterface.type_df r) iteration.

(** [_merge_outputs_single_run]. The info table returned by the
    ordering is bound to a local name only. *)
Definition _merge_outputs_single_run (iteration : nat) (b : bundle) (s : state)
    : state :=
  let s := set_subgraph (subgraph s ++ map (tag iteration) (subgraph_ingoing b)) s in
  let s := set_subgraph (subgraph s ++ map (tag iteration) (subgraph_outgoing b)) s in
  let '(path_ingoing, info) := ordering C (path_ingoing b) "ingoing" (info s) iteration in
  let '(path_outgoing, info) := ordering C (path_outgoing b) "outgoing" info iteration in
  let s := set_pending_nodes_ingoing (pending_nodes_ingoing s ++ path_ingoing) s in
  let s := set_pending_nodes_outgoing (pending_nodes_outgoing s ++ path_outgoing) s in
  set_occurence (_update_occurence path_ingoing path_outgoing (occurence s)) s.

(** [merge_outputs], with the assignment [self.info = ...] of the caller. *)
Definition merge_outputs (output : list bundle) (iteration : nat) (s : state)
    : state :=
  let s := fold_left (λ s b, _merge_outputs_single_run iteration b s) output s in
  let curr_discarded := flat_map to_discard output in
  let s := set_discarded (discarded s ++ [(iteration, Py.list_set curr_discarded)]) s in
  let '(p, score) := ranker C (occurence s) in
  let s := set_score_expansion score (set_to_expand p s) in
  if truthy (to_expand s) then
    let s := set_occurence
               (update_occurrence_after_expansion (occurence s)
                  (default "" (to_expand s))) s in
    let s := set_pending_nodes_ingoing
               (filter (λ r, subject r ∉ nodes_expanded s) (pending_nodes_ingoing s)) s in
    set_pending_nodes_outgoing
      (filter (λ r, object r ∉ nodes_expanded s) (pending_nodes_outgoing s)) s
  else s.

(** [_update_path]: the provenance dictionary is extended row by row;
    [None] from the lookup is the [KeyError] of a node without an entry. *)
Definition previous_path (iteration : nat) (key : string) (s : state)
    : option (list triple) :=
  if (1 <? iteration)%nat then path_node_to_start s !! key else Some [].

Definition update_path_row (iteration : nat) (end_node : string)
    (known new : HDTInterface.row → string)
    (acc : exn + (bool * state)) (row : HDTInterface.row) : exn + (bool * state) :=
  match acc with
  | inl e => inl e
  | inr (found_node, s) =>
      match previous_path iteration (known row) s with
      | None => inl KeyError
      | Some previous =>
          let entry := (HDTInterface.subject row, HDTInterface.predicate row,
                        HDTInterface.object row) :: previous in
          inr (found_node || String.eqb (new row) end_node,
               set_path_node_to_start (<[new row := entry]> (path_node_to_start s)) s)
      end
  end.

Definition _update_path (output : list bundle) (iteration : nat)
    (end_node : string) (s : state) : exn + (bool * state) :=
  fold_left
    (λ acc b,
       fold_left (update_path_row iteration end_node
                    HDTInterface.subject HDTInterface.object)
         (path_outgoing b)
         (fold_left (update_path_row iteration end_node
                       HDTInterface.object HDTInterface.subject)
            (path_ingoing b) acc))
    output (inr (false, s)).

Definition events_found (s : state) : list string :=
  Py.unique (map sg_subject
               (filter (λ r, sg_type_df r = "ingoing") (subgraph s))) ++
  Py.unique (map sg_object
               (filter (λ r, sg_type_df r = "outgoing") (subgraph s))).

(** The three ways the loop of [__call__] ends. *)
Inductive exit := budget_exhausted | no_more_paths | target_found.

(** What one pass of the loop body does to the control flow:
    [Continue] carries the local variable [found_node] ([None] while
    it is unbound) to the next pass. *)
Inductive flow :=
| Continue (found_node : option bool) (s : state)
| Break (e : exit) (s : state).

Definition flow_state (f : flow) : state :=
  match f with
  | Continue _ s => s
  | Break _ s => s
  end.

Definition tracks_paths (m : mode_t) : bool :=
  match m with
  | simple_search | search_specific_node => true
  | _ => false
  end.

Definition with_metrics (m : mode_t) : bool :=
  match m with
  | search_type_node_metrics => true
  | _ => false
  end.

(** The body of the [for] loop of [__call__]. Writing the artifacts
    (CSV and JSON files, plots, the metadata dictionary) and printing do
    not change the fields of the object and are left out. *)
Definition iteration_body (end_node : string) (i : nat)
    (found_node : option bool) (s : state) : exn + flow :=
  match run_one_iteration i s with
  | inl e => inl e
  | inr (output, nodes_to_expand, s) =>
      let s := merge_outputs output i s in
      let r :=
        if tracks_paths (mode cfg) then
          match _update_path output i end_node s with
          | inl e => inl e
          | inr (found, s) => inr (Some found, s)
          end
        else inr (found_node, s) in
      match r with
      | inl e => inl e
      | inr (found_node, s) =>
          let s :=
            if with_metrics (mode cfg)
            then set_metrics_data
                   (update_metrics_data C (metrics_data s) i (events_found s)) s
            else s in
          match found_node with
          | None => inl UnboundLocalError
          | Some true => inr (Break target_found s)
          | Some false =>
              if truthy (to_expand s)
              then inr (Continue (Some false)
                          (set_expanded
                             (expanded s ++ [(i, default "" (to_expand s),
                                              nodes_to_expand, score_expansion s)]) s))
              else inr (Break no_more_paths s)
          end
      end
  end.

(** [for i in range(1, self.iterations + 1)], with [n] passes left. *)
Fixpoint loop (end_node : string) (n : nat) (i : nat)
    (found_node : option bool) (s : state) : exn + (exit * state) :=
  match n with
  | O => inr (budget_exhausted, s)
  | S n' =>
      match iteration_body end_node i found_node s with
      | inl e => inl e
      | inr (Continue found_node s) => loop end_node n' (S i) found_node s
      | inr (Break e s) => inr (e, s)
      end
  end.

Definition is_search_specific_node (m : mode_t) : bool :=
  match m with
  | search_specific_node => true
  | _ => false
  end.

(** The fields [__call__] resets before the loop. *)
Definition reset (s : state) : state :=
  set_info (empty_info C) (set_metrics_data (empty_metrics C) (set_expanded [] s)).

(** [__call__] *)
Definition call (end_node : string) (s : state) : exn + (exit * state) :=
  if is_search_specific_node (mode cfg) && String.eqb end_node ""
  then inl ValueError
  else loop end_node (Z.to_nat (iterations cfg)) 1 None (reset s).

(** The control flow after the [i]-th pass of a run of [__call__] on a
    freshly built object. *)
Inductive after (end_node : string) : nat → flow → Prop :=
| after_first f :
    iteration_body end_node 1 None (reset init) = inr f →
    after end_node 1 f
| after_next i found_node s f :
    after end_node i (Continue found_node s) →
    iteration_body end_node (S i) found_node s = inr f →
    after end_node (S i) f.

(** Every node expanded so far, in order, as logged by
    [_update_nodes_expanded]. *)
Definition expanded_log (s : state) : list string :=
  flat_map snd (nodes_expanded_per_iter s).

End Framework.

End GraphSearchFramework.

(** ** Concrete runs

    The classes the loop calls but whose sources are not at hand are given
    the behaviour the specification describes, over the adapter and the
    filter above, so that whole runs can be computed. *)

Module Scenario.

Import GraphSearchFramework.

(** Modelled from the spec: [Ranker] ([src/ranker.py] is missing), rule
    [pred_freq] of section 4.4: the path with the highest count; ties go to
    the smaller priority prefix, then to the lexicographically smaller key
    (the prefix is the first character of the key, so both are the
    lexicographic order of the keys); [None] on an empty map. The score
    is the count. *)
Definition better (a b : string * Z) : bool :=
  (b.2 <? a.2) || ((a.2 =? b.2) && String.ltb a.1 b.1).

Definition ranker_pred_freq (occ : gmap string Z) : option string * option Z :=
  match map_to_list occ with
  | [] => (None, None)
  | kv :: l =>
      let best := fold_left (λ acc kv, if better kv acc then kv else acc) l kv in
      (Some best.1, Some best.2)
  end.

(** Modelled from the spec: [NodeSelection] ([src/selecting_node.py] is
    missing) in mode [all], section 4.5: every candidate node of the
    chosen path. *)
Definition select_all (_ : nat) (nodes : list string) : list string := nodes.

(** The Unicode database on the characters U+0080 to U+00FF: none of them
    is a decimal digit. *)
#[global] Instance latin1 : Py.unicodedata := {| Py.decimal := λ _, false |}.

(** Modelled from the spec: [NodeExpansion] ([src/expansion.py] is
    missing), section 4.6: the adapter's three frames go to the filter,
    the ingoing and outgoing triples whose endpoint is discarded are
    dropped, and the remaining rows are emitted both as subgraph rows and
    as pending rows, with the discarded nodes. *)
Definition node_expansion (iface : HDTInterface.t) (flt : Filtering.t)
    (w : Filtering.window) (a : expand_args) : bundle :=
  let '(ingoing, outgoing, spec) :=
    HDTInterface.call iface (arg_node a) (arg_predicate a) in
  let h : Filtering.heap :=
    <[0%nat := Filtering.mk_df ingoing []]>
      (<[1%nat := Filtering.mk_df outgoing []]>
         (<[2%nat := Filtering.mk_df spec []]> ∅)) in
  let D := match Filtering.call flt 0%nat 1%nat 2%nat w h with
           | Some (d, _) => d
           | None => []
           end in
  let ingoing := filter (λ r, HDTInterface.subject r ∉ D) ingoing in
  let outgoing := filter (λ r, HDTInterface.object r ∉ D) outgoing in
  mk_bundle ingoing ingoing outgoing outgoing D.

(** Modelled from the spec: [Ordering] ([src/ordering.py] is missing) with
    [domain_range] off, section 4.3: every triple is retained, annotated
    with the superclasses of its subject and of its object; the info table
    is not modelled. *)
Definition annotate (iface : HDTInterface.t) (r : HDTInterface.row) : path_row :=
  let sup n := default n (HDTInterface.get_superclass iface 1000 n) in
  mk_path_row (HDTInterface.subject r) (HDTInterface.predicate r)
              (HDTInterface.object r)
              (SupList [sup (HDTInterface.subject r); sup (HDTInterface.object r)]).

Definition ordering_plain (iface : HDTInterface.t) (rows : list HDTInterface.row)
    (type_node : string) (info : unit) (iteration : nat) : list path_row * unit :=
  (map (annotate iface) rows, info).

Definition collab (iface : HDTInterface.t) (flt : Filtering.t)
    (w : Filtering.window) : @collaborators Z unit unit :=
  mk_collaborators ranker_pred_freq select_all (node_expansion iface flt w)
                   (ordering_plain iface) (λ m _ _, m) tt tt.

Definition A : string := "http://example.org/A".
Definition X : string := "http://example.org/X".
Definition p : string := "http://example.org/p".

Definition filter_of (where_ when : Z) : Filtering.t :=
  match Filtering.init (Filtering.mk_args (Some where_) (Some when)) with
  | inr f => f
  | inl _ => Filtering.mk 0 0 [] [] [] [] []
  end.

Definition no_window : Filtering.window := ("", "").

Definition cfg_all (start : string) (n : Z) : config :=
  mk_config start n pred_freq "hdt" [] [] simple_search all.

(** Two nodes that point at each other through the same predicate. *)
Definition two_way : HDTInterface.t :=
  HDTInterface.mk [(A, p, X); (X, p, A)] HDTInterface.DEFAULT_PRED.

(** A dated seed with one neighbour, searched in the window 2000-2010. *)
Definition Battle : string := "http://example.org/Battle_1805".
Definition one_way : HDTInterface.t :=
  HDTInterface.mk [(Battle, p, X)] HDTInterface.DEFAULT_PRED.
Definition window_2000s : Filtering.window := ("2000-01-01", "2010-12-31").

(** A two-level class hierarchy, and two classes declared subclasses of
    each other. *)
Definition Event : string := "http://dbpedia.org/ontology/Event".
Definition SocietalEvent : string := "http://dbpedia.org/ontology/SocietalEvent".
Definition hierarchy : HDTInterface.t :=
  HDTInterface.mk [(SocietalEvent, HDTInterface.subClassOf, Event);
                   (Event, HDTInterface.subClassOf, HDTInterface.owl_Thing)]
                  HDTInterface.DEFAULT_PRED.
Definition circular : HDTInterface.t :=
  HDTInterface.mk [(A, HDTInterface.subClassOf, X);
                   (X, HDTInterface.subClassOf, A)]
                  HDTInterface.DEFAULT_PRED.

Definition cfg_random : config :=
  mk_config A 3 pred_freq "hdt" [] [] simple_search random.

(** A search for events, and a pending row whose subject is one. *)
Definition cfg_events : config :=
  mk_config A 3 pred_freq "hdt" [("event", Event)] [] simple_search all.
Definition event_row : path_row :=
  mk_path_row X p A (SupList [Event; A]).

(** A class whose IRI starts with the IRI of [Event]. *)
Definition EventSeries : string := "http://dbpedia.org/ontology/EventSeries".

(** The object after a first iteration that met one outgoing triple whose
    predicate IRI contains "3-", ranked first under the key of priority 3. *)
Definition step3 : string := "http://example.org/step3-b".
Definition plain : @collaborators Z unit unit :=
  collab one_way (filter_of 0 0) no_window.
Definition pending_step3 : @state Z unit unit :=
  mk_state [mk_subgraph_row A step3 X "outgoing" 1]
           []
           [mk_path_row A step3 X (SupList [A; X])]
           [A]
           ∅
           (Some ("3-" +:+ step3))
           (Some 1)
           [(1%nat, [A])]
           []
           [(1%nat, [])]
           ∅ tt tt.

(** A search without path tracking. *)
Definition cfg_no_metrics : config :=
  mk_config A 1 pred_freq "hdt" [] [] search_type_node_no_metrics all.

(** The search over [two_way] without filter, and the search over
    [one_way] with the temporal filter on. *)
Definition unfiltered : @collaborators Z unit unit :=
  collab two_way (filter_of 0 0) no_window.
Definition dated : @collaborators Z unit unit :=
  collab one_way (filter_of 0 1) window_2000s.

(** Frames handed to the filter: [X] is a place dated 1990; one ingoing
    triple from [X]; one outgoing triple to the node of the 1805 battle. *)
Definition Place : string := "http://dbpedia.org/ontology/Place".
Definition rdf_type_iri : string := "http://www.w3.org/1999/02/22-rdf-syntax-ns#type".
Definition dbo_date : string := "http://dbpedia.org/ontology/date".
Definition types_of_X : Filtering.DataFrame :=
  Filtering.mk_df [HDTInterface.mk_row X rdf_type_iri Place "spec. outgoing";
                   HDTInterface.mk_row X dbo_date "1990-01-01" "spec. outgoing"] [].
Definition ingoing_from_X : Filtering.DataFrame :=
  Filtering.mk_df [HDTInterface.mk_row X p A "ingoing"] [].
Definition outgoing_to_Battle : Filtering.DataFrame :=
  Filtering.mk_df [HDTInterface.mk_row A p Battle "outgoing"] [].
Definition frames : Filtering.heap :=
  <[0%nat := ingoing_from_X]>
    (<[1%nat := outgoing_to_Battle]> (<[2%nat := types_of_X]> ∅)).

(** A window whose bounds are swapped. *)
Definition window_swapped : Filtering.window := ("2010-01-01", "2000-12-31").

(** A Unicode database with one block of ten decimal digits beyond ASCII,
    written here as the characters 176 to 185 (the Arabic-Indic digits,
    U+0660 to U+0669, are such a block), and a node whose IRI ends in the
    digits of that block for 2005. *)
Definition digits_beyond_ascii : Py.unicodedata :=
  {| Py.decimal := λ c, (176 <=? Ascii.nat_of_ascii c)%nat &&
                        (Ascii.nat_of_ascii c <=? 185)%nat |}.
Definition foreign_year : string :=
  String (Ascii.ascii_of_nat 178) (String (Ascii.ascii_of_nat 176)
    (String (Ascii.ascii_of_nat 176) (String (Ascii.ascii_of_nat 181) ""))).
Definition foreign_node : string := "http://example.org/Fair_" +:+ foreign_year.
Definition foreign_frames : Filtering.heap :=
  <[0%nat := Filtering.mk_df [HDTInterface.mk_row foreign_node p A "ingoing"] []]>
    (<[1%nat := Filtering.mk_df [] []]> ∅).

(** A store in which the neighbour [X] of [A] is typed as a place. *)
Definition typed_store : HDTInterface.t :=
  HDTInterface.mk [(A, p, X); (X, rdf_type_iri, Place)] HDTInterface.DEFAULT_PRED.

(** Modelled from the spec: [NodeSelection] in mode [random], section 4.5:
    exactly one of the candidates; the draw modelled here is the one that
    picks the first candidate. *)
Definition select_first (_ : nat) (nodes : list string) : list string := take 1 nodes.

Definition drawing : @collaborators Z unit unit :=
  mk_collaborators ranker_pred_freq select_first
                   (node_expansion two_way (filter_of 0 0) no_window)
                   (ordering_plain two_way) (λ m _ _, m) tt tt.

Definition cfg_draw : config :=
  mk_config A 3 pred_freq "hdt" [] [] simple_search random.

End Scenario.

(** ** Vocabulary of the properties *)

Section SuperclassWalk.

Import HDTInterface.
Variable self : HDTInterface.t.

(** The object of the first [rdfs:subClassOf] triple of a node, which is
    what [info[0][2]] reads. *)
Definition first_superclass (node : string) : option string :=
  match run_request self (mk_params (Some node) None None) [subClassOf] true with
  | [] => None
  | (_, _, o) :: _ => Some o
  end.

(** One step up the hierarchy, short of [owl:Thing]. *)
Definition subclass_step (n m : string) : Prop :=
  first_superclass n = Some m ∧ m ≠ owl_Thing.

(** A node at which the walk stops. *)
Definition top (n : string) : Prop :=
  first_superclass n = None ∨ first_superclass n = Some owl_Thing.

(** [superclass_walk n r]: following first superclasses from [n], the
    walk stops at [r]. *)
Inductive superclass_walk : string → string → Prop :=
| walk_top n : top n → superclass_walk n n
| walk_step n m r :
    subclass_step n m → superclass_walk m r → superclass_walk n r.

(** [n] lies on a cycle of the hierarchy. *)
Definition on_cycle (n : string) : Prop := tc subclass_step n n.

End SuperclassWalk.

Section Priority.

Import GraphSearchFramework.
Variable cfg : config.

(** [sub] occurs in [s]: some characters, then [sub], then the rest. *)
Definition substring_of (sub s : string) : Prop := ∃ pre suf, s = pre +:+ sub +:+ suf.

(** The superclass annotation of a row meets a configured target type: a
    cell that is a list holds one of the target types; a cell that is a
    single string has one of the target types as a substring. *)
Definition meets_target (sup : superclass_t) : Prop :=
  ∃ x, x ∈ map snd (rdf_type cfg) ∧
       match sup with
       | SupList l => x ∈ l
       | SupStr s => substring_of x s
       end.

End Priority.

Section SearchFields.

Import GraphSearchFramework.
Context {Score Info Metrics : Type}.

(** The fields of the object that the search itself reads and writes. *)
Definition core (s : @state Score Info Metrics) :=
  (subgraph s, pending_nodes_ingoing s, pending_nodes_outgoing s,
   nodes_expanded s, occurence s, to_expand s, nodes_expanded_per_iter s).

(** No visited node is the candidate endpoint of a pending row: the subject
    of a pending ingoing row, the object of a pending outgoing row. *)
Definition visited_free (s : @state Score Info Metrics) : Prop :=
  (∀ r, r ∈ pending_nodes_ingoing s → subject r ∉ nodes_expanded s) ∧
  (∀ r, r ∈ pending_nodes_outgoing s → object r ∉ nodes_expanded s).

(** The rows one merge appends to the subgraph. *)
Definition bundle_rows (iteration : nat) (b : bundle) : list subgraph_row :=
  map (tag iteration) (subgraph_ingoing b) ++ map (tag iteration) (subgraph_outgoing b).

Definition new_rows (iteration : nat) (output : list bundle) : list subgraph_row :=
  flat_map (bundle_rows iteration) output.

(** The node whose expansion yields a row with these key columns: the object
    of an ingoing triple, the subject of an outgoing one. *)
Definition owner (k : string * string * string * string) : option string :=
  let '(s, _, o, t) := k in
  if String.eqb t "ingoing" then Some o
  else if String.eqb t "outgoing" then Some s
  else None.

(** The subgraph frames of an expansion of [node] as the adapter builds
    them: without repeated rows, ingoing triples ending at [node], outgoing
    triples starting from it. *)
Definition well_formed (node : string) (b : bundle) : Prop :=
  NoDup (subgraph_ingoing b) ∧ NoDup (subgraph_outgoing b) ∧
  Forall (λ r, HDTInterface.type_df r = "ingoing" ∧ HDTInterface.object r = node)
         (subgraph_ingoing b) ∧
  Forall (λ r, HDTInterface.type_df r = "outgoing" ∧ HDTInterface.subject r = node)
         (subgraph_outgoing b).

(** Every row of the subgraph comes from the expansion of a logged node. *)
Definition owned (s : @state Score Info Metrics) : Prop :=
  ∀ r, r ∈ subgraph s → ∃ n, owner (sg_key r) = Some n ∧ n ∈ expanded_log s.

End SearchFields.

Section ExpansionHypotheses.

Import GraphSearchFramework.
Context {Score Info Metrics : Type}.
Variable C : @collaborators Score Info Metrics.
Variable cfg : config.

(** The expander returns well-formed frames for every node logged as
    expanded in [s], under the predicate filter of the configuration. *)
Definition expands_well (s : @state Score Info Metrics) : Prop :=
  ∀ node path iteration,
    node ∈ expanded_log s →
    well_formed node
      (node_expander C (mk_args node path (predicate_filter cfg) iteration)).

(** The duplicate-freedom of the subgraph, as an invariant that holds
    whenever the expansions are well formed and never repeat a node. *)
Definition rows_distinct_if_log_distinct (s : @state Score Info Metrics) : Prop :=
  expands_well s → NoDup (expanded_log s) →
  NoDup (map sg_key (subgraph s)) ∧ owned s.

End ExpansionHypotheses.

Section FilterVocabulary.

Import Filtering.
Context {unicode : Py.unicodedata}.

(** The nodes one half of the regex fallback discards from a non-empty
    frame: the keys of the rows whose first group of four digits, or the
    default, is out of the window. *)
Definition half_discards (key : row → string) (w : window) (df : DataFrame)
    : list string :=
  Py.unique (map key
    (filter (λ x, out_of_years w (regex_helper (key x) (Py.take 4 w.1)) = true)
            (rows df))).

(** The frame one half of the regex fallback leaves behind. *)
Definition half_frame (key : row → string) (w : window) (df : DataFrame)
    : DataFrame :=
  set_column "regex_helper"
    (map (λ x, regex_helper (key x) (Py.take 4 w.1)) (rows df)) df.

Definition half_result (key : row → string) (w : window) (df : DataFrame)
    : list string :=
  if (0 <? shape0 df)%nat then half_discards key w df else [].

(** The store after one half of the regex fallback ran on reference [r]. *)
Definition after_half (key : row → string) (r : ref) (w : window) (h : heap)
    : heap :=
  match h !! r with
  | Some df => if (0 <? shape0 df)%nat then <[r := half_frame key w df]> h else h
  | None => h
  end.

(** The rows of the type-and-date frame that carry a temporal predicate. *)
Definition date_rows (self : t) (td : DataFrame) : list row :=
  filter (λ r, Py.in_list (predicate r) (temporal self) = true) (rows td).

(** What each dimension of the filter discards. *)
Definition where_discards (self : t) (td : DataFrame) (n : string) : Prop :=
  truthy (where_ self) = true ∧ n ∈ get_to_discard_location self (rows td).

Definition when_discards (self : t) (w : window) (dfi dfo td : DataFrame)
    (n : string) : Prop :=
  truthy (when self) = true ∧
  (n ∈ get_to_discard_date self (date_rows self td) w ∨
   n ∈ half_result subject w dfi ∨ n ∈ half_result object w dfo).

(** [g] is a group the pattern [\d{4}] can match: four characters, each a
    decimal digit. *)
Definition digits4 (g : string) : Prop :=
  String.length g = 4%nat ∧
  ∀ c, c ∈ String.list_ascii_of_string g → is_digit c = true.

(** [g] occurs in [s] after the characters [pre]. *)
Definition occurs_at (pre g s : string) : Prop := ∃ suf, s = pre +:+ g +:+ suf.

(** [s] has four decimal digits in a row. *)
Definition has_group (s : string) : Prop :=
  ∃ pre g, occurs_at pre g s ∧ digits4 g.

(** [g] is the leftmost group of four decimal digits of [s]: no group
    starts at an earlier character. *)
Definition leftmost_group (s g : string) : Prop :=
  ∃ pre, occurs_at pre g s ∧ digits4 g ∧
         ∀ pre' g', occurs_at pre' g' s → digits4 g' →
                    (String.length pre ≤ String.length pre')%nat.

(** The string order puts [g] out of the four-character bounds of the
    window: [g < dates[0][:4]] or [g > dates[1][:4]]. *)
Definition out_of_bounds (w : window) (g : string) : Prop :=
  Py.lt g (Py.take 4 w.1) = true ∨ Py.gt g (Py.take 4 w.2) = true.

(** A year written with four of the digits "0" to "9". *)
Definition is_ascii_digit (c : Ascii.ascii) : bool :=
  (48 <=? Ascii.nat_of_ascii c)%nat && (Ascii.nat_of_ascii c <=? 57)%nat.

Definition year4 (s : string) : bool :=
  match s with
  | String a (String b (String c (String d EmptyString))) =>
      is_ascii_digit a && is_ascii_digit b && is_ascii_digit c && is_ascii_digit d
  | _ => false
  end.

(** [int(s)] on a string of the digits "0" to "9". *)
Definition digit_value (c : Ascii.ascii) : Z := Z.of_nat (Ascii.nat_of_ascii c) - 48.

Fixpoint int_from (acc : Z) (s : string) : Z :=
  match s with
  | EmptyString => acc
  | String c s' => int_from (10 * acc + digit_value c) s'
  end.

Definition year_of (s : string) : Z := int_from 0 s.

End FilterVocabulary.

Section SelectionHypotheses.

Import GraphSearchFramework.
Context {Score Info Metrics : Type}.

(** A node selector that picks, without repeat, among the candidates it is
    given: what a draw of one candidate does. *)
Definition selects_distinct (C : @collaborators Score Info Metrics) : Prop :=
  ∀ iteration nodes,
    NoDup (node_selection C iteration nodes) ∧
    ∀ n, n ∈ node_selection C iteration nodes → n ∈ nodes.

End SelectionHypotheses.

Section AdapterVocabulary.

Import HDTInterface.

(** A triple that passes the namespace and category denylists of [_filter]. *)
Definition clean (tr : triple) : Prop :=
  starts_with_any tr.2 namespace_to_discard = false ∧
  starts_with_any tr.1.1 namespace_to_discard = false ∧
  Py.startswith tr.1.1 category_ns = false ∧
  Py.startswith tr.2 category_ns = false.

(** No subject and no object of the store is the empty string. *)
Definition terms_nonempty (self : t) : Prop :=
  ∀ tr, tr ∈ db_hdt self → tr.1.1 ≠ "" ∧ tr.2 ≠ "".

(** The markers of typed literals read by [pre_process_date]. *)
Definition date_marker : string := "<http://www.w3.org/2001/XMLSchema#date>".
Definition integer_marker : string := "<http://www.w3.org/2001/XMLSchema#integer>".

End AdapterVocabulary.

Section SuperclassChains.

Import HDTInterface.
Variable self : HDTInterface.t.

(** [chain n l]: [l] lists the nodes of a walk from [n], each of which has
    a step further up. *)
Fixpoint chain (n : string) (l : list string) : Prop :=
  match l with
  | [] => True
  | x :: l' => x = n ∧ ∃ m, subclass_step self n m ∧ chain m l'
  end.

(** No node reachable from [n] lies on a cycle of the hierarchy. *)
Definition acyclic_from (n : string) : Prop :=
  ∀ m, rtc (subclass_step self) n m → ¬ on_cycle self m.

End SuperclassChains.

Section WindowVocabulary.

Import Filtering.

(** A literal that is neither before the lower bound of the window nor
    after its upper bound, in the order of strings. *)
Definition in_window (w : window) (o : string) : Prop :=
  Py.lt o w.1 = false ∧ Py.gt o w.2 = false.

End WindowVocabulary.

Section OccurrenceVocabulary.

Import GraphSearchFramework.

(** Reading a key of the occurrence [defaultdict]: a missing key counts 0. *)
Definition count_of (occ : gmap string Z) (k : string) : Z := default 0 (occ !! k).

(** The number of rows whose path key is [k]. *)
Definition rows_with_key (key : path_row → string) (rs : list path_row)
    (k : string) : Z :=
  Z.of_nat (length (filter (λ r, key r = k) rs)).

(** Every count of the map is at least one. *)
Definition counts_positive (occ : gmap string Z) : Prop :=
  ∀ k v, occ !! k = Some v → 1 ≤ v.

(** The free endpoints of the rows of an output: the subjects of its
    ingoing rows and the objects of its outgoing rows. *)
Definition endpoints (output : list bundle) : list string :=
  flat_map (λ b, map HDTInterface.subject (path_ingoing b) ++
                 map HDTInterface.object (path_outgoing b)) output.

End OccurrenceVocabulary.

Section TagVocabulary.

Import GraphSearchFramework.

(** Rows in the order of their iteration tags. *)
Definition tags_ordered (rows : list subgraph_row) : Prop :=
  StronglySorted (λ a b, (sg_iteration a ≤ sg_iteration b)%nat) rows.

End TagVocabulary.

(** ** Properties *)

Section OccurrenceProperties.

Import GraphSearchFramework.

Lemma update_occurrence_random cfg (occ : gmap string Z) k :
  node_selection_type cfg = random →
  update_occurrence_after_expansion cfg occ k = occ.
Proof.
  intros Hsel. unfold update_occurrence_after_expansion. rewrite Hsel.
  apply map_eq. intros i. rewrite lookup_fmap.
  destruct (occ !! i); reflexivity.
Qed.

Lemma update_occurrence_all cfg (occ : gmap string Z) k :
  node_selection_type cfg = all →
  update_occurrence_after_expansion cfg occ k = delete k occ.
Proof.
  intros Hsel. unfold update_occurrence_after_expansion. rewrite Hsel.
  apply map_eq. intros i. rewrite map_lookup_filter.
  destruct (decide (i = k)) as [->|Hne].
  - rewrite lookup_delete_eq. destruct (occ !! k); simpl; [|done].
    rewrite option_guard_False; [done|]. simpl. tauto.
  - rewrite lookup_delete_ne by done. destruct (occ !! i); simpl; [|done].
    by rewrite option_guard_True.
Qed.

(** C1. What [update_occurrence_after_expansion] does to the occurrence
    map: with node selector [all] the chosen path key is removed and every
    other entry is kept; with node selector [random] the map comes back
    as it was, the count of the chosen key included (it is not
    decremented). *)
Theorem update_occurrence_after_expansion_effect cfg (occ : gmap string Z) k :
  (node_selection_type cfg = all →
     update_occurrence_after_expansion cfg occ k !! k = None ∧
     ∀ k', k' ≠ k → update_occurrence_after_expansion cfg occ k !! k' = occ !! k') ∧
  (node_selection_type cfg = random →
     ∀ k', update_occurrence_after_expansion cfg occ k !! k' = occ !! k').
Proof.
  split; intros Hsel.
  - rewrite update_occurrence_all by done. split.
    + apply lookup_delete_eq.
    + intros k' Hne. by rewrite lookup_delete_ne.
  - intros k'. by rewrite update_occurrence_random.
Qed.

(** The count of the chosen path stays at 2 under [random]. *)
Lemma update_occurrence_random_keeps_count :
  update_occurrence_after_expansion Scenario.cfg_random
    {[ "3-http://example.org/p" := 2 ]} "3-http://example.org/p"
    !! "3-http://example.org/p" = Some 2.
Proof.
  destruct (update_occurrence_after_expansion_effect Scenario.cfg_random
              {[ "3-http://example.org/p" := 2 ]} "3-http://example.org/p")
    as [_ Hrandom].
  rewrite Hrandom by reflexivity. apply lookup_singleton_eq.
Defined.

End OccurrenceProperties.

Section SuperclassProperties.

Import HDTInterface.
Variable self : HDTInterface.t.

Lemma get_superclass_unfold fuel node :
  get_superclass self (S fuel) node =
  match first_superclass self node with
  | None => Some node
  | Some o => if String.eqb o owl_Thing then Some node
              else get_superclass self fuel o
  end.
Proof.
  unfold first_superclass. cbn [get_superclass].
  destruct (run_request self (mk_params (Some node) None None) [subClassOf] true)
    as [|[[? ?] o] ?]; reflexivity.
Qed.

Lemma get_superclass_top fuel n :
  top self n → get_superclass self (S fuel) n = Some n.
Proof.
  intros [H|H]; rewrite get_superclass_unfold, H; [done|].
  by rewrite String.eqb_refl.
Qed.

Lemma get_superclass_step fuel n m :
  subclass_step self n m →
  get_superclass self (S fuel) n = get_superclass self fuel m.
Proof.
  intros [H Hne]. rewrite get_superclass_unfold, H.
  apply String.eqb_neq in Hne. by rewrite Hne.
Qed.

(** A walk that stops is found by every call stack deep enough. *)
Lemma get_superclass_complete n r :
  superclass_walk self n r →
  ∃ fuel0, ∀ fuel, (fuel0 ≤ fuel)%nat → get_superclass self fuel n = Some r.
Proof.
  induction 1 as [n Htop|n m r Hstep _ [fuel0 IH]].
  - exists 1%nat. intros [|fuel] Hle; [lia|]. by apply get_superclass_top.
  - exists (S fuel0). intros [|fuel] Hle; [lia|].
    rewrite (get_superclass_step _ _ _ Hstep). apply IH. lia.
Qed.

(** Whatever a call returns is the end of the walk. *)
Lemma get_superclass_sound fuel n r :
  get_superclass self fuel n = Some r → superclass_walk self n r.
Proof.
  revert n. induction fuel as [|fuel IH]; intros n; [done|].
  rewrite get_superclass_unfold.
  destruct (first_superclass self n) as [o|] eqn:Hfirst.
  - destruct (String.eqb o owl_Thing) eqn:Ho.
    + intros [= <-]. apply walk_top. right.
      apply String.eqb_eq in Ho. by subst.
    + intros Hrec. apply walk_step with o; [|by apply IH].
      split; [done|]. by apply String.eqb_neq.
  - intros [= <-]. apply walk_top. by left.
Qed.

Lemma subclass_step_det n m m' :
  subclass_step self n m → subclass_step self n m' → m = m'.
Proof. intros [H _] [H' _]. congruence. Qed.

Lemma on_cycle_step n m :
  on_cycle self n → subclass_step self n m → on_cycle self m.
Proof.
  unfold on_cycle. intros Hcyc Hstep.
  inversion Hcyc as [? ? Hnn|? y ? Hny Hyn]; subst.
  - by rewrite <- (subclass_step_det _ _ _ Hnn Hstep).
  - rewrite <- (subclass_step_det _ _ _ Hny Hstep).
    eapply tc_r; [exact Hyn|]. by rewrite (subclass_step_det _ _ _ Hny Hstep).
Qed.

Lemma on_cycle_not_top n : on_cycle self n → ¬ top self n.
Proof.
  intros Hcyc Htop.
  assert (∃ m, subclass_step self n m) as [m [Hm Hne]].
  { inversion Hcyc; subst; eauto. }
  destruct Htop as [H|H]; congruence.
Qed.

Lemma walk_off_cycle n r : superclass_walk self n r → ¬ on_cycle self n.
Proof.
  induction 1 as [n Htop|n m r Hstep _ IH]; intros Hcyc.
  - by apply (on_cycle_not_top n).
  - apply IH. by apply on_cycle_step with n.
Qed.

Lemma get_superclass_cycle n fuel :
  on_cycle self n → get_superclass self fuel n = None.
Proof.
  intros Hcyc. destruct (get_superclass self fuel n) as [r|] eqn:Hget; [|done].
  exfalso. eapply walk_off_cycle; [|exact Hcyc]. by eapply get_superclass_sound.
Qed.

(** C3 (amended). The superclass lookup returns for every node whose walk
    up the first [rdfs:subClassOf] triples stops, at a node that has no
    superclass triple or whose first superclass is [owl:Thing]: every call
    stack deep enough returns that last node (the node itself when it has
    no superclass triple). For a node on a cycle of the hierarchy no call
    stack is deep enough: the lookup never returns. *)
Theorem get_superclass_walks n :
  (∀ r, superclass_walk self n r →
     ∃ fuel0, ∀ fuel, (fuel0 ≤ fuel)%nat → get_superclass self fuel n = Some r) ∧
  (on_cycle self n → ∀ fuel, get_superclass self fuel n = None).
Proof.
  split.
  - apply get_superclass_complete.
  - intros Hcyc fuel. by apply get_superclass_cycle.
Qed.

End SuperclassProperties.

Lemma circular_on_cycle : on_cycle Scenario.circular Scenario.A.
Proof.
  apply tc_l with Scenario.X; [|apply tc_once]; split; done.
Qed.

(** C3, counterexample: with two classes declared subclasses of each other
    the lookup returns nothing, at any depth of the call stack; in
    particular it does not return the node itself. *)
Lemma get_superclass_circular_never_returns :
  ¬ ∃ fuel r, HDTInterface.get_superclass Scenario.circular fuel Scenario.A = Some r.
Proof.
  intros (fuel & r & Hget).
  by rewrite (get_superclass_cycle _ _ _ circular_on_cycle) in Hget.
Qed.

(** C3, witness: from [SocietalEvent] the walk stops at [Event], and on the
    circular hierarchy the lookup of [A] never returns. *)
Lemma get_superclass_walks_witness :
  (∃ fuel0, ∀ fuel, (fuel0 ≤ fuel)%nat →
     HDTInterface.get_superclass Scenario.hierarchy fuel Scenario.SocietalEvent
     = Some Scenario.Event) ∧
  (∀ fuel, HDTInterface.get_superclass Scenario.circular fuel Scenario.A = None).
Proof.
  split.
  - apply (proj1 (get_superclass_walks Scenario.hierarchy Scenario.SocietalEvent)).
    apply walk_step with Scenario.Event; [split; done|].
    apply walk_top. by right.
  - apply (proj2 (get_superclass_walks Scenario.circular Scenario.A)).
    apply circular_on_cycle.
Defined.

Section PriorityProperties.

Import GraphSearchFramework.
Variable cfg : config.

Lemma prefix_spec sub s : String.prefix sub s = true ↔ ∃ suf, s = sub +:+ suf.
Proof.
  revert sub. induction s as [|c s IH]; intros [|c' sub].
  - split; [by exists ""|done].
  - split; [done|]. by intros (suf & ?).
  - split; [by exists (String c s)|done].
  - cbn [String.prefix]. destruct (Ascii.ascii_dec c' c) as [->|Hne].
    + rewrite IH. split.
      * intros (suf & ->). by exists suf.
      * intros (suf & He).
        change (String c s = String c (sub +:+ suf)) in He.
        injection He as ->. by exists suf.
    + split; [done|]. intros (suf & He).
      change (String c s = String c' (sub +:+ suf)) in He. congruence.
Qed.

(** [sub in s] on strings is the substring test. *)
Lemma contains_spec sub s : Py.contains sub s = true ↔ substring_of sub s.
Proof.
  split.
  - induction s as [|c s IH]; cbn [Py.contains]; rewrite orb_true_iff.
    + intros [(suf & ->)%prefix_spec|?]; [|done]. by exists "", suf.
    + intros [(suf & ->)%prefix_spec|(pre & suf & ->)%IH].
      * by exists "", suf.
      * by exists (String c pre), suf.
  - intros (pre & suf & ->). induction pre as [|c pre IH].
    + change ("" +:+ sub +:+ suf) with (sub +:+ suf).
      assert (String.prefix sub (sub +:+ suf) = true) as Hp
        by (apply prefix_spec; by exists suf).
      destruct (sub +:+ suf); cbn [Py.contains]; by rewrite Hp.
    + change (String c pre +:+ sub +:+ suf) with (String c (pre +:+ sub +:+ suf)).
      cbn [Py.contains]. rewrite IH. apply orb_true_r.
Qed.

(** The test of [_get_nb]: [any(x in superclass for x in targets)]. *)
Lemma get_nb_test sup :
  existsb (λ x, sup_contains x sup) (map snd (rdf_type cfg)) = true ↔
  meets_target cfg sup.
Proof.
  rewrite existsb_exists. unfold meets_target.
  split; intros (x & Hx & Hc); exists x.
  - apply list_elem_of_In in Hx. split; [done|]. destruct sup as [s|l]; cbn in Hc.
    + by apply contains_spec.
    + unfold Py.in_list in Hc. by apply bool_decide_eq_true in Hc.
  - split; [by apply list_elem_of_In|]. destruct sup as [s|l]; cbn.
    + by apply contains_spec.
    + unfold Py.in_list. by apply bool_decide_eq_true.
Qed.

Lemma get_nb_spec sup pred :
  (meets_target cfg sup → _get_nb cfg sup pred = "1") ∧
  (¬ meets_target cfg sup → _get_nb cfg sup pred = "3").
Proof.
  unfold _get_nb. rewrite <-get_nb_test.
  destruct (existsb _ _); split; done.
Qed.

Lemma get_nb_not_two sup pred : _get_nb cfg sup pred ≠ "2".
Proof.
  unfold _get_nb. destruct (existsb _ _); [done|].
  unfold Py.in_list. rewrite bool_decide_eq_false_2; [done|].
  apply not_elem_of_nil.
Qed.

Lemma incr_is_Some key (occ : gmap string Z) k :
  is_Some (occ !! k) ∨ k = key → is_Some (incr key occ !! k).
Proof.
  unfold incr. intros [H| ->].
  - destruct (decide (key = k)) as [->|Hne].
    + rewrite lookup_insert_eq. eauto.
    + by rewrite lookup_insert_ne.
  - rewrite lookup_insert_eq. eauto.
Qed.

Lemma count_rows_keeps key rs (occ : gmap string Z) k :
  is_Some (occ !! k) → is_Some (count_rows key rs occ !! k).
Proof.
  unfold count_rows. revert occ.
  induction rs as [|r rs IH]; intros occ H; [done|].
  simpl. apply IH. apply incr_is_Some. by left.
Qed.

Lemma count_rows_counts key rs (occ : gmap string Z) r :
  r ∈ rs → is_Some (count_rows key rs occ !! key r).
Proof.
  revert occ. induction rs as [|r' rs IH]; intros occ Hin.
  - by apply elem_of_nil in Hin.
  - apply elem_of_cons in Hin as [->|Hin].
    + apply (count_rows_keeps key rs). apply incr_is_Some. by right.
    + apply (IH (incr (key r') occ) Hin).
Qed.

(** C4 (amended). For every row observed by the occurrence update, the
    priority computed by [_get_nb] is "1" when the superclass annotation of
    the row meets a configured target type, and "3" otherwise; an
    annotation that is a list meets a target type by holding it, an
    annotation that is a single string by having it as a substring. The
    update leaves in the occurrence map a key made of that priority, a dash
    and the rest of the path. The demoted predicate class of the code is
    the empty list, so no row gets priority "2". *)
Theorem path_key_priority ingoing outgoing (occ : gmap string Z) r :
  r ∈ ingoing ++ outgoing →
  (meets_target cfg (superclass r) →
   _get_nb cfg (superclass r) (predicate r) = "1") ∧
  (¬ meets_target cfg (superclass r) →
   _get_nb cfg (superclass r) (predicate r) = "3") ∧
  _get_nb cfg (superclass r) (predicate r) ≠ "2" ∧
  ∃ rest, is_Some (_update_occurence cfg ingoing outgoing occ
                     !! (_get_nb cfg (superclass r) (predicate r) +:+ "-" +:+ rest)).
Proof.
  intros Hin.
  split; [apply get_nb_spec|]. split; [apply get_nb_spec|].
  split; [apply get_nb_not_two|].
  unfold _update_occurence.
  apply elem_of_app in Hin as [Hin|Hin];
    destruct (type_ranking cfg); cbn [on_predicate on_predicate_object].
  all: try (exists (predicate r);
            first [ apply count_rows_keeps; apply (count_rows_counts (key_pred cfg)); exact Hin
                  | apply (count_rows_counts (key_pred cfg)); exact Hin ]).
  all: try (exists ("ingoing-" +:+ predicate r +:+ ";" +:+ object r);
            apply count_rows_keeps; apply (count_rows_counts (key_ingoing cfg)); exact Hin).
  all: exists ("outgoing-" +:+ subject r +:+ ";" +:+ predicate r);
       apply (count_rows_counts (key_outgoing cfg)); exact Hin.
Qed.

End PriorityProperties.

(** C4, counterexample: no configuration, annotation and predicate make
    [_get_nb] answer "2". *)
Lemma get_nb_never_two :
  ¬ ∃ cfg sup pred, GraphSearchFramework._get_nb cfg sup pred = "2".
Proof. intros (cfg & sup & pred & H). by apply get_nb_not_two in H. Qed.

(** C4, a second counterexample: an annotation that is the single string
    [EventSeries], which is not the target type [Event] but starts with it,
    gets priority "1": on a string the test of [_get_nb] is a substring
    test. *)
Lemma get_nb_substring_of_annotation :
  (Scenario.EventSeries ∉ map snd (GraphSearchFramework.rdf_type Scenario.cfg_events)) ∧
  GraphSearchFramework._get_nb Scenario.cfg_events
    (GraphSearchFramework.SupStr Scenario.EventSeries) Scenario.p = "1".
Proof.
  split; [|reflexivity].
  intros [?|?%elem_of_nil]%elem_of_cons; done.
Qed.

(** C4, witness: a row annotated with the target type [Event] is counted
    under a key of priority "1". *)
Lemma path_key_priority_witness :
  GraphSearchFramework._get_nb Scenario.cfg_events
    (GraphSearchFramework.superclass Scenario.event_row)
    (GraphSearchFramework.predicate Scenario.event_row) = "1" ∧
  ∃ rest, is_Some (GraphSearchFramework._update_occurence Scenario.cfg_events
                     [Scenario.event_row] [] ∅ !! ("1" +:+ "-" +:+ rest)).
Proof.
  destruct (path_key_priority Scenario.cfg_events [Scenario.event_row] [] ∅
              Scenario.event_row) as (H1 & _ & _ & H3).
  - apply elem_of_app. left. apply list_elem_of_here.
  - assert (meets_target Scenario.cfg_events
              (GraphSearchFramework.superclass Scenario.event_row)) as Hm.
    { exists Scenario.Event. split; apply list_elem_of_here. }
    rewrite (H1 Hm) in H3. split; [exact (H1 Hm) | exact H3].
Defined.

Section LoopProperties.

Import GraphSearchFramework.
Context {Score Info Metrics : Type}.
Variable C : @collaborators Score Info Metrics.
Variable cfg : config.

Lemma first_iteration_selects_start s :
  truthy (to_expand s) = false →
  ∃ nodes, _select_nodes_to_expand C cfg 1 s = inr (nodes, [], s).
Proof.
  intros Hto. unfold _select_nodes_to_expand. rewrite Hto. eauto.
Qed.

Lemma first_iteration_runs s :
  truthy (to_expand s) = false →
  ∃ output nodes s', run_one_iteration C cfg 1 s = inr (output, nodes, s').
Proof.
  intros Hto. unfold run_one_iteration.
  destruct (first_iteration_selects_start s Hto) as [nodes ->].
  destruct (String.eqb (type_interface cfg) ""); eauto.
Qed.

(** C2. In the two modes that do not track paths
    ([search_type_node_metrics], the default, and
    [search_type_node_no_metrics]) a run of at least one iteration on a
    freshly built object does not end in any of the three terminal
    conditions: the first pass of the loop reads the local variable
    [found_node], which only the path-tracking modes assign, and raises
    [UnboundLocalError]. *)
Theorem call_raises_without_path_tracking end_node :
  1 ≤ iterations cfg →
  tracks_paths (mode cfg) = false →
  call C cfg end_node (init C) = inl UnboundLocalError.
Proof.
  intros Hit Hmode. unfold call.
  assert (is_search_specific_node (mode cfg) = false) as ->
    by (destruct (mode cfg); done).
  cbn [andb].
  destruct (Z.to_nat (iterations cfg)) as [|n] eqn:Hn; [lia|].
  cbn [loop]. unfold iteration_body.
  destruct (first_iteration_runs (reset C (init C)) eq_refl)
    as (output & nodes & s' & ->).
  rewrite Hmode. reflexivity.
Qed.

End LoopProperties.

(** C2, witness: one iteration in mode [search_type_node_no_metrics]. *)
Lemma call_raises_without_path_tracking_witness :
  GraphSearchFramework.call Scenario.plain Scenario.cfg_no_metrics ""
    (GraphSearchFramework.init Scenario.plain)
  = inl GraphSearchFramework.UnboundLocalError.
Proof.
  apply (call_raises_without_path_tracking Scenario.plain Scenario.cfg_no_metrics "").
  - simpl. lia.
  - reflexivity.
Defined.

(** C7. A predicate-only key whose predicate IRI contains its own priority
    prefix: the pending outgoing row with predicate [step3] has the unvisited
    object [X], yet [_select_nodes_to_expand] removes every "3-" of the key,
    looks for the predicate "http://example.org/stepb" and selects nothing. *)
Theorem select_nodes_strips_inside_predicate :
  let s := Scenario.pending_step3 in
  GraphSearchFramework.to_expand s = Some ("3-" +:+ Scenario.step3) ∧
  filter (λ node, node ∉ GraphSearchFramework.nodes_expanded s)
    (map GraphSearchFramework.subject
       (filter (λ r, GraphSearchFramework.predicate r = Scenario.step3)
          (GraphSearchFramework.pending_nodes_ingoing s)) ++
     map GraphSearchFramework.object
       (filter (λ r, GraphSearchFramework.predicate r = Scenario.step3)
          (GraphSearchFramework.pending_nodes_outgoing s)))
  = [Scenario.X] ∧
  ∃ s', GraphSearchFramework._select_nodes_to_expand
          Scenario.plain (Scenario.cfg_all Scenario.A 3) 2 s
        = inr ([], ["http://example.org/stepb"], s').
Proof.
  cbv zeta. split; [reflexivity|]. split; [by vm_compute|].
  eexists. vm_compute. reflexivity.
Qed.

Section MergeProperties.

Import GraphSearchFramework.
Context {Score Info Metrics : Type}.
Variable C : @collaborators Score Info Metrics.
Variable cfg : config.

Lemma update_path_row_core i e known new acc row b (s' : @state Score Info Metrics) :
  update_path_row i e known new acc row = inr (b, s') →
  ∃ b0 s0, acc = inr (b0, s0) ∧ core s' = core s0.
Proof.
  unfold update_path_row. destruct acc as [?|[b0 s0]]; [done|].
  destruct (previous_path i (known row) s0); [|done].
  intros [= <- <-]. eauto.
Qed.

Lemma update_path_rows_core i e known new rows acc b (s' : @state Score Info Metrics) :
  fold_left (update_path_row i e known new) rows acc = inr (b, s') →
  ∃ b0 s0, acc = inr (b0, s0) ∧ core s' = core s0.
Proof.
  revert acc. induction rows as [|row rows IH]; intros acc; simpl.
  - intros ->. eauto.
  - intros H. apply IH in H as (b1 & s1 & H & Hcore).
    apply update_path_row_core in H as (b0 & s0 & -> & Hcore').
    exists b0, s0. split; [done|]. congruence.
Qed.

Lemma update_path_core output i e (s : @state Score Info Metrics) b s' :
  _update_path output i e s = inr (b, s') → core s' = core s.
Proof.
  unfold _update_path.
  assert (∀ acc,
    fold_left
      (λ acc b,
         fold_left (update_path_row i e HDTInterface.subject HDTInterface.object)
           (path_outgoing b)
           (fold_left (update_path_row i e HDTInterface.object HDTInterface.subject)
              (path_ingoing b) acc))
      output acc = inr (b, s') →
    ∃ b0 s0, acc = inr (b0, s0) ∧ core s' = core s0) as Hfold.
  { induction output as [|bd output IH]; intros acc; simpl.
    - intros ->. eauto.
    - intros H. apply IH in H as (b1 & s1 & H & Hcore).
      apply update_path_rows_core in H as (b2 & s2 & H & Hcore2).
      apply update_path_rows_core in H as (b3 & s3 & -> & Hcore3).
      exists b3, s3. split; [done|]. congruence. }
  intros H. apply Hfold in H as (b0 & s0 & [= <- <-] & Hcore). done.
Qed.

(** One pass of the loop leaves the search fields as [merge_outputs]
    made them. *)
Lemma iteration_body_core end_node i found_node s f :
  iteration_body C cfg end_node i found_node s = inr f →
  ∃ output nodes s1,
    run_one_iteration C cfg i s = inr (output, nodes, s1) ∧
    core (flow_state f) = core (merge_outputs C cfg output i s1).
Proof.
  unfold iteration_body.
  destruct (run_one_iteration C cfg i s) as [?|[[output nodes] s1]]; [done|].
  intros H. exists output, nodes, s1. split; [done|].
  destruct (tracks_paths (mode cfg)).
  - destruct (_update_path output i end_node (merge_outputs C cfg output i s1))
      as [?|[b s2]] eqn:Hup; [done|].
    apply update_path_core in Hup.
    destruct b; [by destruct (with_metrics (mode cfg)); injection H as <-|].
    destruct (with_metrics (mode cfg)); cbn in H;
      match type of H with
      | (if ?c then _ else _) = _ => destruct c
      end; by injection H as <-.
  - destruct found_node as [[|]|]; [| |by destruct (with_metrics (mode cfg))].
    + by destruct (with_metrics (mode cfg)); injection H as <-.
    + destruct (with_metrics (mode cfg)); cbn in H;
        match type of H with
        | (if ?c then _ else _) = _ => destruct c
        end; by injection H as <-.
Qed.

(** After a merge that ends with a path to expand, the pending frames
    are purged of the visited nodes. *)
Lemma merge_outputs_purged output i s :
  let s' := merge_outputs C cfg output i s in
  truthy (to_expand s') = true →
  pending_nodes_ingoing s' =
    filter (λ r, subject r ∉ nodes_expanded s') (pending_nodes_ingoing s') ∧
  pending_nodes_outgoing s' =
    filter (λ r, object r ∉ nodes_expanded s') (pending_nodes_outgoing s').
Proof.
  cbv zeta. unfold merge_outputs.
  set (s1 := set_discarded _ _).
  destruct (ranker C (occurence s1)) as [p score].
  set (s2 := set_score_expansion score (set_to_expand p s1)).
  destruct (truthy (to_expand s2)) eqn:Hto; [|congruence].
  intros _. cbn. split; symmetry; apply list_filter_filter_l; tauto.
Qed.

End MergeProperties.

Section PendingProperties.

Import GraphSearchFramework.
Context {Score Info Metrics : Type}.
Variable C : @collaborators Score Info Metrics.
Variable cfg : config.

(** C6 (amended). After every iteration at whose end the ranker proposes a
    path to expand, no visited node is the subject of a pending ingoing row
    or the object of a pending outgoing row. (The purge sits under that
    condition; an iteration that ends without a path leaves the pending
    frames as they are.) *)
Theorem pending_purged_when_path_chosen end_node i found_node s f :
  iteration_body C cfg end_node i found_node s = inr f →
  truthy (to_expand (flow_state f)) = true →
  visited_free (flow_state f).
Proof.
  intros Hbody Hto.
  apply iteration_body_core in Hbody as (output & nodes & s1 & _ & Hcore).
  unfold core in Hcore. injection Hcore as _ Hin Hout Hexp _ Hpath _.
  rewrite Hpath in Hto.
  destruct (merge_outputs_purged C cfg output i s1 Hto) as [Hpin Hpout].
  unfold visited_free. rewrite Hin, Hout, Hexp. split; intros r Hr.
  - rewrite Hpin in Hr. by apply list_elem_of_filter in Hr as [? _].
  - rewrite Hpout in Hr. by apply list_elem_of_filter in Hr as [? _].
Qed.

End PendingProperties.

(** C6, counterexample: the seed [Battle] (dated 1805, outside the window)
    has one outgoing triple to [X]. The first iteration leaves the row
    pending and, the selector being [all], drops its path from the
    occurrence map. The second iteration expands [X]; the filter discards
    the only triple found, the occurrence map stays empty, the ranker has no
    path, and the pending outgoing row to [X] is still there although [X]
    is now visited. *)
Lemma pending_keeps_visited_node :
  ∃ f, GraphSearchFramework.after Scenario.dated
         (Scenario.cfg_all Scenario.Battle 5) "" 2 f ∧
       ¬ visited_free (GraphSearchFramework.flow_state f).
Proof.
  eexists. split.
  - eapply GraphSearchFramework.after_next.
    + apply GraphSearchFramework.after_first. vm_compute. reflexivity.
    + vm_compute. reflexivity.
  - intros [_ Hout]. cbn [GraphSearchFramework.flow_state] in Hout.
    eapply (Hout (GraphSearchFramework.mk_path_row Scenario.Battle Scenario.p
                    Scenario.X _)).
    + cbn. apply list_elem_of_here.
    + cbn. apply list_elem_of_further, list_elem_of_here.
Qed.

(** C6, witness: the first iteration over [two_way] ends with the path of
    [p] to expand, and no visited node is a pending candidate. *)
Lemma pending_purged_when_path_chosen_witness :
  match GraphSearchFramework.iteration_body Scenario.unfiltered
          (Scenario.cfg_all Scenario.A 2) "" 1 None
          (GraphSearchFramework.reset Scenario.unfiltered
             (GraphSearchFramework.init Scenario.unfiltered)) with
  | inr f =>
      GraphSearchFramework.truthy
        (GraphSearchFramework.to_expand (GraphSearchFramework.flow_state f)) = true ∧
      visited_free (GraphSearchFramework.flow_state f)
  | inl _ => False
  end.
Proof.
  destruct (GraphSearchFramework.iteration_body _ _ _ _ _ _) as [e|f] eqn:Hbody.
  - vm_compute in Hbody. discriminate Hbody.
  - assert (GraphSearchFramework.truthy
              (GraphSearchFramework.to_expand (GraphSearchFramework.flow_state f))
            = true) as Hto.
    { vm_compute in Hbody. injection Hbody as <-. reflexivity. }
    split; [exact Hto|].
    exact (pending_purged_when_path_chosen _ _ _ _ _ _ _ Hbody Hto).
Defined.

Section SubgraphProperties.

Import GraphSearchFramework.
Context {Score Info Metrics : Type}.
Variable C : @collaborators Score Info Metrics.
Variable cfg : config.

Lemma select_nodes_fields i (s : @state Score Info Metrics) nodes path s1 :
  _select_nodes_to_expand C cfg i s = inr (nodes, path, s1) →
  subgraph s1 = subgraph s ∧
  nodes_expanded_per_iter s1 = nodes_expanded_per_iter s.
Proof.
  unfold _select_nodes_to_expand. destruct (truthy (to_expand s)).
  - destruct (candidates _ _); [|done]. by intros [= _ _ <-].
  - by intros [= _ _ <-].
Qed.

Lemma run_one_iteration_fields i (s : @state Score Info Metrics) output nodes s1 :
  run_one_iteration C cfg i s = inr (output, nodes, s1) →
  subgraph s1 = subgraph s ∧
  nodes_expanded_per_iter s1 = nodes_expanded_per_iter s ++ [(i, nodes)] ∧
  ∃ path, output =
    map (λ node, node_expander C (mk_args node path (predicate_filter cfg) i)) nodes.
Proof.
  unfold run_one_iteration.
  destruct (_select_nodes_to_expand C cfg i s) as [?|[[nodes0 path] s0]] eqn:Hsel;
    [done|].
  apply select_nodes_fields in Hsel as [Hsub Hlog].
  destruct (String.eqb (type_interface cfg) ""); intros [= <- <- <-]; cbn;
    rewrite Hsub, Hlog; (split; [done|]); (split; [done|]);
    exists path; by rewrite map_map.
Qed.

Lemma merge_single_fields i b (s : @state Score Info Metrics) :
  subgraph (_merge_outputs_single_run C cfg i b s) = subgraph s ++ bundle_rows i b ∧
  nodes_expanded_per_iter (_merge_outputs_single_run C cfg i b s)
  = nodes_expanded_per_iter s.
Proof.
  unfold _merge_outputs_single_run, bundle_rows. cbn.
  destruct (ordering C (path_ingoing b) "ingoing" (info s) i) as [pin info1].
  destruct (ordering C (path_outgoing b) "outgoing" info1 i) as [pout info2].
  cbn. by rewrite <- app_assoc.
Qed.

Lemma merge_fold_fields i output (s : @state Score Info Metrics) :
  subgraph (fold_left (λ s b, _merge_outputs_single_run C cfg i b s) output s)
  = subgraph s ++ new_rows i output ∧
  nodes_expanded_per_iter
    (fold_left (λ s b, _merge_outputs_single_run C cfg i b s) output s)
  = nodes_expanded_per_iter s.
Proof.
  revert s. induction output as [|b output IH]; intros s; cbn.
  - by rewrite app_nil_r.
  - destruct (IH (_merge_outputs_single_run C cfg i b s)) as [-> ->].
    destruct (merge_single_fields i b s) as [-> ->].
    by rewrite <- app_assoc.
Qed.

Lemma merge_outputs_fields i output (s : @state Score Info Metrics) :
  subgraph (merge_outputs C cfg output i s) = subgraph s ++ new_rows i output ∧
  nodes_expanded_per_iter (merge_outputs C cfg output i s)
  = nodes_expanded_per_iter s.
Proof.
  unfold merge_outputs.
  destruct (merge_fold_fields i output s) as [Hsub Hlog].
  set (s1 := set_discarded _ _).
  destruct (ranker C (occurence s1)) as [p score].
  set (s2 := set_score_expansion score (set_to_expand p s1)).
  destruct (truthy (to_expand s2)); cbn; by rewrite Hsub, Hlog.
Qed.

Lemma bundle_rows_owner i node b r :
  well_formed node b → r ∈ bundle_rows i b → owner (sg_key r) = Some node.
Proof.
  intros (_ & _ & Hin & Hout). unfold bundle_rows.
  rewrite elem_of_app, !Forall_forall in *.
  intros [H|H]; apply list_elem_of_fmap in H as (x & -> & Hx).
  - destruct (Hin x Hx) as [Ht Ho]. unfold owner, sg_key, tag. cbn.
    by rewrite Ht, Ho.
  - destruct (Hout x Hx) as [Ht Hs]. unfold owner, sg_key, tag. cbn.
    by rewrite Ht, Hs.
Qed.

Lemma key_of_tag_inj i : Inj (=) (=) (λ r, sg_key (tag i r)).
Proof.
  intros [s1 p1 o1 t1] [s2 p2 o2 t2]. unfold sg_key, tag. cbn. congruence.
Qed.

Lemma bundle_rows_NoDup i node b :
  well_formed node b → NoDup (map sg_key (bundle_rows i b)).
Proof.
  intros (Hnin & Hnout & Hin & Hout). unfold bundle_rows.
  rewrite map_app, !map_map. apply NoDup_app. split; [|split].
  - by apply (NoDup_fmap_2 (λ r, sg_key (tag i r)) (Inj0 := key_of_tag_inj i)).
  - intros k Hk1 Hk2. rewrite Forall_forall in Hin, Hout.
    apply list_elem_of_fmap in Hk1 as (x & -> & Hx).
    apply list_elem_of_fmap in Hk2 as (y & Hxy & Hy).
    destruct (Hin x Hx) as [Ht _]. destruct (Hout y Hy) as [Ht' _].
    unfold sg_key, tag in Hxy. cbn in Hxy. congruence.
  - by apply (NoDup_fmap_2 (λ r, sg_key (tag i r)) (Inj0 := key_of_tag_inj i)).
Qed.

Lemma new_rows_owner i (g : string → bundle) nodes r :
  (∀ n, n ∈ nodes → well_formed n (g n)) →
  r ∈ new_rows i (map g nodes) →
  ∃ n, n ∈ nodes ∧ owner (sg_key r) = Some n.
Proof.
  intros Hwf. unfold new_rows. induction nodes as [|n nodes IH]; cbn.
  - by intros ?%elem_of_nil.
  - rewrite elem_of_app. intros [H|H].
    + exists n. split; [apply list_elem_of_here|].
      eapply bundle_rows_owner; [|exact H]. apply Hwf, list_elem_of_here.
    + destruct IH as (n' & Hn' & Ho); [|done|].
      * intros m Hm. by apply Hwf, list_elem_of_further.
      * exists n'. split; [by apply list_elem_of_further|done].
Qed.

Lemma new_rows_NoDup i (g : string → bundle) nodes :
  NoDup nodes →
  (∀ n, n ∈ nodes → well_formed n (g n)) →
  NoDup (map sg_key (new_rows i (map g nodes))).
Proof.
  unfold new_rows. induction 1 as [|n nodes Hn Hnd IH]; intros Hwf; cbn.
  - apply NoDup_nil_2.
  - rewrite map_app. apply NoDup_app. split; [|split].
    + eapply bundle_rows_NoDup, Hwf, list_elem_of_here.
    + intros k Hk1 Hk2.
      apply list_elem_of_fmap in Hk1 as (x & -> & Hx).
      apply list_elem_of_fmap in Hk2 as (y & Hxy & Hy).
      apply (bundle_rows_owner i n) in Hx; [|apply Hwf, list_elem_of_here].
      apply (new_rows_owner i g nodes) in Hy as (n' & Hn' & Ho);
        [|intros m Hm; by apply Hwf, list_elem_of_further].
      rewrite Hxy, Ho in Hx. injection Hx as ->. done.
    + apply IH. intros m Hm. by apply Hwf, list_elem_of_further.
Qed.

Lemma rows_distinct_init : rows_distinct_if_log_distinct C cfg (reset C (init C)).
Proof.
  intros _ _. split; [apply NoDup_nil_2|]. intros r Hr. cbn in Hr.
  by apply elem_of_nil in Hr.
Qed.

Lemma rows_distinct_step end_node i found_node s f :
  rows_distinct_if_log_distinct C cfg s →
  iteration_body C cfg end_node i found_node s = inr f →
  rows_distinct_if_log_distinct C cfg (flow_state f).
Proof.
  intros Hgood Hbody Hwf Hnd.
  apply iteration_body_core in Hbody as (output & nodes & s1 & Hrun & Hcore).
  unfold core in Hcore. injection Hcore as Hsub _ _ _ _ _ Hlog.
  apply run_one_iteration_fields in Hrun as (Hsub1 & Hlog1 & path & Hout).
  destruct (merge_outputs_fields i output s1) as [Hsubm Hlogm].
  assert (expanded_log (flow_state f) = expanded_log s ++ nodes) as Hexp.
  { unfold expanded_log. rewrite Hlog, Hlogm, Hlog1, flat_map_app. cbn.
    by rewrite app_nil_r. }
  rewrite Hexp in Hnd. apply NoDup_app in Hnd as (Hnd_old & Hdisj & Hnd_new).
  set (g := λ node, node_expander C (mk_args node path (predicate_filter cfg) i)) in *.
  assert (∀ n, n ∈ nodes → well_formed n (g n)) as Hwf_new.
  { intros n Hn. apply Hwf. rewrite Hexp, elem_of_app. by right. }
  destruct Hgood as [Hkeys Howned]; [|done|].
  { intros node p it Hnode. apply Hwf. rewrite Hexp, elem_of_app. by left. }
  unfold owned. rewrite Hexp, Hsub, Hsubm, Hsub1, Hout. split.
  - rewrite map_app. apply NoDup_app. split; [done|]. split.
    + intros k Hk1 Hk2.
      apply list_elem_of_fmap in Hk1 as (x & -> & Hx).
      apply list_elem_of_fmap in Hk2 as (y & Hxy & Hy).
      destruct (Howned x Hx) as (n & Ho & Hn).
      apply (new_rows_owner i g nodes) in Hy as (n' & Hn' & Ho'); [|done].
      rewrite Hxy, Ho' in Ho. injection Ho as ->. by apply (Hdisj n).
    + by apply new_rows_NoDup.
  - intros r. rewrite elem_of_app. intros [Hr|Hr].
    + destruct (Howned r Hr) as (n & Ho & Hn). exists n.
      rewrite elem_of_app. eauto.
    + apply (new_rows_owner i g nodes) in Hr as (n & Hn & Ho); [|done].
      exists n. rewrite elem_of_app. eauto.
Qed.

Lemma rows_distinct_after end_node i f :
  after C cfg end_node i f →
  rows_distinct_if_log_distinct C cfg (flow_state f).
Proof.
  induction 1 as [f Hbody|i found_node s f _ IH Hbody].
  - eapply rows_distinct_step; [apply rows_distinct_init|exact Hbody].
  - eapply rows_distinct_step; [exact IH|exact Hbody].
Qed.

(** C5 (amended). After every iteration of a run, the accumulated subgraph
    has no two rows with the same (subject, predicate, object, type_df),
    provided that no node has been expanded twice (the log of expanded nodes
    has no repeat) and that the expansion of each of these nodes returned
    well-formed frames. Nothing in the merge removes a repeated row: the
    frames of every expansion are appended as they come. *)
Theorem subgraph_rows_distinct end_node i f :
  after C cfg end_node i f →
  expands_well C cfg (flow_state f) →
  NoDup (expanded_log (flow_state f)) →
  NoDup (map sg_key (subgraph (flow_state f))).
Proof.
  intros Hafter Hwf Hnd.
  by destruct (rows_distinct_after end_node i f Hafter Hwf Hnd).
Qed.

End SubgraphProperties.

(** C5, counterexample: [A] and [X] point at each other through [p]. The
    first iteration expands [A] and leaves [X] pending twice, as the subject
    of an ingoing row and as the object of an outgoing row; the second
    iteration selects the candidates [X; X], expands [X] twice and appends
    its rows twice. *)
Lemma subgraph_repeats_rows :
  ∃ f, GraphSearchFramework.after Scenario.unfiltered
         (Scenario.cfg_all Scenario.A 2) "" 2 f ∧
       ¬ NoDup (map GraphSearchFramework.sg_key
                  (GraphSearchFramework.subgraph (GraphSearchFramework.flow_state f))).
Proof.
  eexists. split.
  - eapply GraphSearchFramework.after_next.
    + apply GraphSearchFramework.after_first. vm_compute. reflexivity.
    + vm_compute. reflexivity.
  - apply (bool_decide_unpack _). vm_compute. exact I.
Qed.

(** C5, witness: two iterations over [one_way], expanding [Battle] and then
    [X], each once. *)
Lemma subgraph_rows_distinct_witness :
  ∃ f, GraphSearchFramework.after Scenario.plain
         (Scenario.cfg_all Scenario.Battle 3) "" 2 f ∧
       NoDup (GraphSearchFramework.expanded_log (GraphSearchFramework.flow_state f)) ∧
       NoDup (map GraphSearchFramework.sg_key
                (GraphSearchFramework.subgraph (GraphSearchFramework.flow_state f))).
Proof.
  eexists. split; [|split].
  - eapply GraphSearchFramework.after_next.
    + apply GraphSearchFramework.after_first. vm_compute. reflexivity.
    + vm_compute. reflexivity.
  - apply (bool_decide_unpack _). vm_compute. exact I.
  - eapply (subgraph_rows_distinct Scenario.plain
              (Scenario.cfg_all Scenario.Battle 3) "" 2).
    + eapply GraphSearchFramework.after_next.
      * apply GraphSearchFramework.after_first. vm_compute. reflexivity.
      * vm_compute. reflexivity.
    + intros node path it Hnode. cbn in Hnode.
      apply elem_of_cons in Hnode as [->|Hnode];
        [|apply list_elem_of_singleton in Hnode as ->];
        unfold well_formed; apply (bool_decide_unpack _); vm_compute; exact I.
    + apply (bool_decide_unpack _). vm_compute. exact I.
Defined.

Section UniqueProperties.

Context {A : Type} `{EqDecision A}.

Lemma elem_of_unique_from (seen l : list A) x :
  x ∈ Py.unique_from seen l ↔ x ∈ l ∧ x ∉ seen.
Proof.
  revert seen. induction l as [|y l IH]; intros seen; cbn.
  - rewrite elem_of_nil. tauto.
  - case_bool_decide as Hy.
    + rewrite IH, elem_of_cons. split; [tauto|].
      intros [[->|?] ?]; tauto.
    + rewrite !elem_of_cons, IH, elem_of_cons. split.
      * intros [->|[? ?]]; [tauto|]. split; [tauto|]. tauto.
      * intros [[->|?] ?]; [tauto|].
        destruct (decide (x = y)) as [->|Hne]; [tauto|]. right. tauto.
Qed.

Lemma NoDup_unique_from (seen l : list A) : NoDup (Py.unique_from seen l).
Proof.
  revert seen. induction l as [|y l IH]; intros seen; cbn.
  - apply NoDup_nil_2.
  - case_bool_decide as Hy; [apply IH|].
    apply NoDup_cons. split; [|apply IH].
    rewrite elem_of_unique_from, elem_of_cons. tauto.
Qed.

Lemma elem_of_unique (l : list A) x : x ∈ Py.unique l ↔ x ∈ l.
Proof.
  unfold Py.unique. rewrite elem_of_unique_from, elem_of_nil. tauto.
Qed.

Lemma NoDup_unique (l : list A) : NoDup (Py.unique l).
Proof. apply NoDup_unique_from. Qed.

End UniqueProperties.

Section FilterFrames.

Import Filtering.
Context {unicode : Py.unicodedata}.

Lemma get_set_assoc name vals cols :
  get_assoc name (set_assoc name vals cols) = Some vals.
Proof.
  induction cols as [|[n v] cols IH]; cbn.
  - by rewrite String.eqb_refl.
  - destruct (String.eqb n name) eqn:Hn; cbn.
    + by rewrite String.eqb_refl.
    + by rewrite Hn.
Qed.

Lemma select_map (f : row → bool) (rs : list row) :
  select (map f rs) rs = filter (λ x, f x = true) rs.
Proof.
  unfold select. induction rs as [|x rs IH]; [done|].
  cbn [map zip zip_with]. rewrite !filter_cons. cbn [fst].
  destruct (decide (f x = true)) as [Hx|Hx]; cbn [map snd]; by rewrite IH.
Qed.

Lemma discard_regex_half_run key r w (h : heap) df :
  h !! r = Some df →
  discard_regex_half key r w h =
    if (0 <? shape0 df)%nat
    then Some (half_discards key w df, <[r := half_frame key w df]> h)
    else Some ([], h).
Proof.
  intros Hr. unfold discard_regex_half, mbind, M_bind, read. rewrite Hr.
  destruct (0 <? shape0 df)%nat; [|done].
  unfold write. rewrite lookup_insert_eq. unfold get_column, set_column. cbn.
  rewrite get_set_assoc. cbn. unfold mret, M_ret, half_discards, half_frame.
  unfold set_column. cbn.
  rewrite map_map.
  by rewrite (select_map (λ x, out_of_years w (regex_helper (key x) (Py.take 4 w.1)))).
Qed.

End FilterFrames.

Section YearProperties.

Import Filtering.
Context {unicode : Py.unicodedata}.

Lemma ascii_compare_digit x y :
  Ascii.compare x y = (digit_value x ?= digit_value y).
Proof.
  unfold Ascii.compare, digit_value, Ascii.nat_of_ascii.
  rewrite !N_nat_Z.
  destruct (N.compare_spec (Ascii.N_of_ascii x) (Ascii.N_of_ascii y));
    destruct (Z.compare_spec (Z.of_N (Ascii.N_of_ascii x) - 48)
                             (Z.of_N (Ascii.N_of_ascii y) - 48)); try done; lia.
Qed.

Lemma is_digit_value c : is_ascii_digit c = true → 0 ≤ digit_value c ≤ 9.
Proof.
  unfold is_ascii_digit, digit_value. rewrite andb_true_iff.
  intros [?%Nat.leb_le ?%Nat.leb_le]. lia.
Qed.

(** On years of four digits "0" to "9" the order of strings is the order
    of numbers. *)
Lemma ltb_year4 a b :
  year4 a = true → year4 b = true →
  String.ltb a b = true ↔ year_of a < year_of b.
Proof.
  destruct a as [|a1 [|a2 [|a3 [|a4 [|]]]]]; try done.
  destruct b as [|b1 [|b2 [|b3 [|b4 [|]]]]]; try done.
  cbn [year4]. rewrite !andb_true_iff.
  intros [[[?%is_digit_value ?%is_digit_value] ?%is_digit_value] ?%is_digit_value].
  intros [[[?%is_digit_value ?%is_digit_value] ?%is_digit_value] ?%is_digit_value].
  unfold String.ltb, year_of. cbn [String.compare int_from].
  rewrite !ascii_compare_digit.
  destruct (Z.compare_spec (digit_value a1) (digit_value b1));
    destruct (Z.compare_spec (digit_value a2) (digit_value b2));
    destruct (Z.compare_spec (digit_value a3) (digit_value b3));
    destruct (Z.compare_spec (digit_value a4) (digit_value b4));
    split; intros; try done; lia.
Qed.

Lemma ltb_irrefl a : String.ltb a a = false.
Proof.
  unfold String.ltb. induction a as [|c a IH]; [done|]. cbn.
  unfold Ascii.compare. by rewrite N.compare_refl.
Qed.

(** A character beyond ASCII comes after every digit "0" to "9". *)
Lemma ltb_beyond_ascii a s c g :
  is_ascii_digit a = true → Py.isascii c = false →
  String.ltb (String a s) (String c g) = true.
Proof.
  unfold is_ascii_digit, Py.isascii. rewrite andb_true_iff.
  intros [_ Ha%Nat.leb_le] Hc%Nat.ltb_ge.
  unfold String.ltb. cbn [String.compare].
  assert (Ascii.compare a c = Lt) as ->; [|done].
  unfold Ascii.compare. apply N.compare_lt_iff.
  unfold Ascii.nat_of_ascii in Ha, Hc. lia.
Qed.

Lemma length_app_string a b :
  String.length (a +:+ b) = (String.length a + String.length b)%nat.
Proof.
  induction a as [|c a IH]; [done|].
  change (String c a +:+ b) with (String c (a +:+ b)).
  cbn [String.length]. by rewrite IH.
Qed.

Lemma app_string_inj a a' b b' :
  String.length a = String.length a' → a +:+ b = a' +:+ b' → a = a' ∧ b = b'.
Proof.
  revert a'. induction a as [|c a IH]; intros [|c' a'] Hl He; try done.
  change (String c (a +:+ b) = String c' (a' +:+ b')) in He.
  injection He as -> He. injection Hl as Hl.
  destruct (IH a' Hl He) as [-> ->]. done.
Qed.

Lemma four_digits_at_group s :
  four_digits_at s = true →
  digits4 (Py.take 4 s) ∧ occurs_at "" (Py.take 4 s) s.
Proof.
  destruct s as [|a [|b [|c [|d tl]]]]; try done.
  cbn [four_digits_at]. rewrite !andb_true_iff. intros [[[Ha Hb] Hc] Hd].
  assert (Py.take 4 (String a (String b (String c (String d tl))))
          = String a (String b (String c (String d "")))) as ->
    by (by destruct tl).
  split; [split; [done|]|by exists tl].
  intros x Hx. cbn in Hx.
  repeat (apply elem_of_cons in Hx as [->|Hx]; [done|]).
  by apply elem_of_nil in Hx.
Qed.

Lemma group_four_digits_at g suf :
  digits4 g → four_digits_at (g +:+ suf) = true.
Proof.
  intros [Hlen Hg].
  destruct g as [|a [|b [|c [|d [|e g]]]]]; try done.
  change (four_digits_at (String a (String b (String c (String d suf)))) = true).
  cbn [four_digits_at].
  rewrite !Hg; [done|cbn..].
  - do 3 apply list_elem_of_further. apply list_elem_of_here.
  - do 2 apply list_elem_of_further. apply list_elem_of_here.
  - apply list_elem_of_further. apply list_elem_of_here.
  - apply list_elem_of_here.
Qed.

Lemma has_group_cons c s :
  four_digits_at (String c s) = false → has_group (String c s) → has_group s.
Proof.
  intros Hd (pre & g & (suf & He) & Hg). destruct pre as [|c' pre].
  - change ("" +:+ g +:+ suf) with (g +:+ suf) in He.
    by rewrite He, (group_four_digits_at g suf Hg) in Hd.
  - change (String c s = String c' (pre +:+ g +:+ suf)) in He.
    injection He as _ ->. exists pre, g. split; [by exists suf|done].
Qed.

(** What [re.findall] puts first: the leftmost group of four decimal
    digits; it finds nothing exactly when there are no four decimal digits
    in a row. *)
Lemma findall_head_spec s :
  match findall s with
  | g :: _ => leftmost_group s g
  | [] => ¬ has_group s
  end.
Proof.
  unfold findall. induction s as [|c s IH].
  - cbn. intros (pre & g & (suf & He) & [Hlen _]).
    apply (f_equal String.length) in He.
    rewrite !length_app_string, Hlen in He. cbn in He. lia.
  - cbn [findall_from].
    destruct (four_digits_at (String c s)) eqn:Hd.
    + destruct (four_digits_at_group _ Hd) as [Hg Hocc].
      exists "". split; [done|]. split; [done|]. intros. cbn. lia.
    + destruct (findall_from 0 s) as [|g rest].
      * intros Hgroup. by apply IH, (has_group_cons c).
      * destruct IH as (pre & (suf & He) & Hg & Hmin).
        exists (String c pre). split; [exists suf; by rewrite He|].
        split; [done|]. intros pre' g' (suf' & He') Hg'.
        destruct pre' as [|c' pre'].
        -- change ("" +:+ g' +:+ suf') with (g' +:+ suf') in He'.
           by rewrite He', (group_four_digits_at g' suf' Hg') in Hd.
        -- change (String c s = String c' (pre' +:+ g' +:+ suf')) in He'.
           injection He' as _ He'.
           assert (String.length pre ≤ String.length pre')%nat
             by (apply (Hmin pre' g'); [by exists suf'|done]).
           cbn [String.length]. lia.
Qed.

Lemma leftmost_group_unique s g g' :
  leftmost_group s g → leftmost_group s g' → g = g'.
Proof.
  intros (pre & (suf & He) & [Hlen Hg] & Hmin) (pre' & (suf' & He') & [Hlen' Hg'] & Hmin').
  assert (String.length pre = String.length pre') as Hl.
  { apply Nat.le_antisymm.
    - apply (Hmin pre' g'); [by exists suf'|done].
    - apply (Hmin' pre g); [by exists suf|done]. }
  rewrite He in He'.
  destruct (app_string_inj _ _ _ _ Hl He') as [_ He2].
  apply (app_string_inj g g' suf suf'); [congruence|done].
Qed.

(** [regex_helper] returns the leftmost group of four decimal digits of
    its argument, or the default when there are no four decimal digits in a
    row. *)
Lemma regex_helper_cases val default_return_val :
  (∃ g, leftmost_group val g ∧ regex_helper val default_return_val = g) ∨
  (¬ has_group val ∧ regex_helper val default_return_val = default_return_val).
Proof.
  unfold regex_helper. pose proof (findall_head_spec val) as H.
  destruct (findall val) as [|g rest]; [by right|]. left. by exists g.
Qed.

Lemma out_of_years_bounds w helper :
  out_of_years w helper = true ↔ out_of_bounds w helper.
Proof. unfold out_of_years, out_of_bounds. by rewrite orb_true_iff. Qed.

(** On a group written with the digits "0" to "9" the test of the fallback
    is the comparison of years. *)
Lemma out_of_bounds_year (w : window) g :
  year4 (Py.take 4 w.1) = true → year4 (Py.take 4 w.2) = true →
  year4 g = true →
  out_of_bounds w g ↔
  year_of g < year_of (Py.take 4 w.1) ∨ year_of (Py.take 4 w.2) < year_of g.
Proof.
  intros Hlo Hhi Hg. unfold out_of_bounds, Py.lt, Py.gt.
  by rewrite (ltb_year4 _ _ Hg Hlo), (ltb_year4 _ _ Hhi Hg).
Qed.

(** A group that starts with a digit beyond ASCII is above the upper year
    of the window. *)
Lemma out_of_bounds_beyond_ascii (w : window) c g :
  year4 (Py.take 4 w.2) = true → Py.isascii c = false →
  out_of_bounds w (String c g).
Proof.
  intros Hhi Hc. right. unfold Py.gt.
  destruct (Py.take 4 w.2) as [|a s]; [done|].
  apply ltb_beyond_ascii; [|done].
  destruct s as [|? [|? [|? [|]]]]; try done.
  cbn [year4] in Hhi. rewrite !andb_true_iff in Hhi. tauto.
Qed.

(** With a window of four-digit years in order, the fallback rejects a node
    exactly when its IRI has four decimal digits in a row and the leftmost
    such group is out of the bounds of the window. *)
Lemma out_of_years_spec (w : window) n :
  year4 (Py.take 4 w.1) = true → year4 (Py.take 4 w.2) = true →
  year_of (Py.take 4 w.1) ≤ year_of (Py.take 4 w.2) →
  out_of_years w (regex_helper n (Py.take 4 w.1)) = true ↔
  ∃ g, leftmost_group n g ∧ out_of_bounds w g.
Proof.
  intros Hlo Hhi Hle. rewrite out_of_years_bounds.
  destruct (regex_helper_cases n (Py.take 4 w.1)) as [(g & Hg & ->)|[Hno ->]].
  - split; [by exists g|]. intros (g' & Hg' & Hout).
    by rewrite (leftmost_group_unique n g g' Hg Hg').
  - split.
    + rewrite (out_of_bounds_year w _ Hlo Hhi Hlo). lia.
    + intros (g & (pre & Hocc & Hd & _) & _). destruct Hno. by exists pre, g.
Qed.

End YearProperties.

Section FilterRuns.

Import Filtering.
Context {unicode : Py.unicodedata}.

Lemma discard_regex_half_result key r w (h : heap) df :
  h !! r = Some df →
  discard_regex_half key r w h = Some (half_result key w df, after_half key r w h).
Proof.
  intros Hr. rewrite (discard_regex_half_run key r w h df Hr).
  unfold half_result, after_half. rewrite Hr.
  by destruct (0 <? shape0 df)%nat.
Qed.

Lemma after_half_lookup key r w (h : heap) r' df' :
  h !! r' = Some df' →
  ∃ df'', after_half key r w h !! r' = Some df'' ∧ rows df'' = rows df' ∧
          (has_column "regex_helper" df' = true →
           has_column "regex_helper" df'' = true) ∧
          (r' = r → rows df' ≠ [] → has_column "regex_helper" df'' = true).
Proof.
  intros Hr'. unfold after_half.
  destruct (h !! r) as [df|] eqn:Hr.
  - destruct (0 <? shape0 df)%nat eqn:Hn.
    + destruct (decide (r' = r)) as [->|Hne].
      * rewrite lookup_insert_eq. exists (half_frame key w df).
        assert (df' = df) as -> by congruence.
        unfold half_frame, has_column, get_column, set_column. cbn.
        by rewrite get_set_assoc.
      * rewrite lookup_insert_ne by done. exists df'. repeat split; done.
    + exists df'. repeat split; [done..|].
      intros -> Hrows. assert (df' = df) as -> by congruence.
      apply Nat.ltb_ge in Hn. unfold shape0 in Hn.
      destruct (rows df); [done|]. cbn in Hn. lia.
  - exists df'. repeat split; [done..|]. intros ->. congruence.
Qed.

Lemma half_result_rows key w df1 df2 :
  rows df1 = rows df2 → half_result key w df1 = half_result key w df2.
Proof.
  intros Hrows. unfold half_result, half_discards, shape0. by rewrite Hrows.
Qed.

Lemma elem_of_half_result key w df n :
  n ∈ half_result key w df ↔
  n ∈ map key (rows df) ∧
  out_of_years w (regex_helper n (Py.take 4 w.1)) = true.
Proof.
  unfold half_result, half_discards, shape0.
  destruct (rows df) as [|x rs] eqn:Hrows.
  - cbn. rewrite elem_of_nil. tauto.
  - cbn [length Nat.ltb Nat.leb]. rewrite elem_of_unique. split.
    + intros (y & -> & Hy)%list_elem_of_fmap.
      apply list_elem_of_filter in Hy as [Hout Hy].
      split; [|done]. apply list_elem_of_fmap. eauto.
    + intros [(y & -> & Hy)%list_elem_of_fmap Hout].
      apply list_elem_of_fmap. exists y. split; [done|].
      by apply list_elem_of_filter.
Qed.

(** [get_to_discard_regex] on frames that exist: what it returns and the
    store it leaves. *)
Lemma get_to_discard_regex_run self ri ro w (h : heap) dfi dfo :
  h !! ri = Some dfi → h !! ro = Some dfo →
  get_to_discard_regex self ri ro w h =
    Some (half_result subject w dfi ++ half_result object w dfo,
          after_half object ro w (after_half subject ri w h)).
Proof.
  intros Hi Ho. unfold get_to_discard_regex, mbind, M_bind.
  rewrite (discard_regex_half_result subject ri w h dfi Hi).
  destruct (after_half_lookup subject ri w h ro dfo Ho) as (dfo' & Ho' & Hrows & _).
  rewrite (discard_regex_half_result object ro w _ dfo' Ho').
  by rewrite (half_result_rows object w dfo' dfo Hrows).
Qed.

(** [__call__] on frames that exist. *)
Lemma call_run self ri ro rt w (h : heap) dfi dfo td :
  h !! ri = Some dfi → h !! ro = Some dfo → h !! rt = Some td →
  call self ri ro rt w h =
    Some ((if truthy (where_ self)
           then Py.list_set (get_to_discard_location self (rows td)) else []) ++
          (if truthy (when self)
           then Py.list_set (get_to_discard_date self (date_rows self td) w ++
                             (half_result subject w dfi ++ half_result object w dfo))
           else []),
          if truthy (when self)
          then after_half object ro w (after_half subject ri w h) else h).
Proof.
  intros Hi Ho Ht. unfold call, mbind, M_bind, read. rewrite Ht.
  destruct (truthy (when self)).
  - rewrite (get_to_discard_regex_run self ri ro w h dfi dfo Hi Ho).
    unfold mret, M_ret, date_rows. by destruct (truthy (where_ self)).
  - unfold mret, M_ret. destruct (truthy (where_ self)); by rewrite ?app_nil_r.
Qed.

End FilterRuns.

Section FilterProperties.

Import Filtering.
Context {unicode : Py.unicodedata}.

(** C8 (amended). On every filter input the returned discard list is the
    where-dimension discards followed by the when-dimension discards: it
    holds exactly the nodes of their union, and the nodes of each dimension
    appear once among those of that dimension. The two parts are not merged,
    so a node discarded by both dimensions is listed once in each. *)
Theorem call_lists_each_dimension self ri ro rt w (h : heap) dfi dfo td :
  h !! ri = Some dfi → h !! ro = Some dfo → h !! rt = Some td →
  ∃ where_ds when_ds h',
    call self ri ro rt w h = Some (where_ds ++ when_ds, h') ∧
    NoDup where_ds ∧ NoDup when_ds ∧
    (∀ n, n ∈ where_ds ↔ where_discards self td n) ∧
    (∀ n, n ∈ when_ds ↔ when_discards self w dfi dfo td n) ∧
    (∀ n, n ∈ where_ds ++ when_ds ↔
          where_discards self td n ∨ when_discards self w dfi dfo td n).
Proof.
  intros Hi Ho Ht. rewrite (call_run self ri ro rt w h dfi dfo td Hi Ho Ht).
  eexists _, _, _. split; [reflexivity|].
  assert (∀ n, n ∈ (if truthy (where_ self)
                    then Py.list_set (get_to_discard_location self (rows td))
                    else []) ↔ where_discards self td n) as Hwhere.
  { intros n. unfold where_discards. destruct (truthy (where_ self)).
    - unfold Py.list_set. rewrite elem_of_unique. tauto.
    - rewrite elem_of_nil. split; [done|]. by intros [? _]. }
  assert (∀ n, n ∈ (if truthy (when self)
                    then Py.list_set
                           (get_to_discard_date self (date_rows self td) w ++
                            (half_result subject w dfi ++ half_result object w dfo))
                    else []) ↔ when_discards self w dfi dfo td n) as Hwhen.
  { intros n. unfold when_discards. destruct (truthy (when self)).
    - unfold Py.list_set. rewrite elem_of_unique, !elem_of_app. tauto.
    - rewrite elem_of_nil. split; [done|]. by intros [? _]. }
  split; [|split; [|split; [done|split; [done|]]]].
  - destruct (truthy (where_ self)); [apply NoDup_unique|apply NoDup_nil_2].
  - destruct (truthy (when self)); [apply NoDup_unique|apply NoDup_nil_2].
  - intros n. by rewrite elem_of_app, Hwhere, Hwhen.
Qed.

(** C9 (amended). For a window of ISO dates whose years are in order, the
    regex fallback discards a candidate node (the subject of an ingoing
    row, the object of an outgoing row) exactly when its IRI has four
    decimal digits in a row and the leftmost such group is, in the order of
    strings, below the first four characters of the lower bound or above
    those of the upper bound; a node without such a group is kept. For a
    group written with the digits "0" to "9" this is the comparison of
    years. The pattern also matches decimal digits beyond ASCII: a group
    that starts with one is above the upper bound, whatever year it
    denotes. *)
Theorem regex_fallback_discards self ri ro w (h : heap) dfi dfo :
  h !! ri = Some dfi → h !! ro = Some dfo →
  year4 (Py.take 4 w.1) = true → year4 (Py.take 4 w.2) = true →
  year_of (Py.take 4 w.1) ≤ year_of (Py.take 4 w.2) →
  ∃ ds h',
    get_to_discard_regex self ri ro w h = Some (ds, h') ∧
    (∀ n, n ∈ ds ↔
          (n ∈ map subject (rows dfi) ∨ n ∈ map object (rows dfo)) ∧
          ∃ g, leftmost_group n g ∧ out_of_bounds w g) ∧
    (∀ n, ¬ has_group n → n ∉ ds) ∧
    (∀ g, year4 g = true →
          out_of_bounds w g ↔
          year_of g < year_of (Py.take 4 w.1) ∨
          year_of (Py.take 4 w.2) < year_of g) ∧
    (∀ c g, Py.isascii c = false → out_of_bounds w (String c g)).
Proof.
  intros Hi Ho Hlo Hhi Hle.
  rewrite (get_to_discard_regex_run self ri ro w h dfi dfo Hi Ho).
  eexists _, _. split; [reflexivity|].
  assert (∀ n, n ∈ half_result subject w dfi ++ half_result object w dfo ↔
               (n ∈ map subject (rows dfi) ∨ n ∈ map object (rows dfo)) ∧
               ∃ g, leftmost_group n g ∧ out_of_bounds w g) as Hds.
  { intros n.
    rewrite elem_of_app, !elem_of_half_result, (out_of_years_spec w n Hlo Hhi Hle).
    tauto. }
  split; [exact Hds|]. split; [|split].
  - intros n Hno [_ (g & (pre & Hocc & Hg & _) & _)]%Hds.
    apply Hno. by exists pre, g.
  - intros g Hg. by apply out_of_bounds_year.
  - intros c g Hc. by apply out_of_bounds_beyond_ascii.
Qed.

(** C10 (amended). With the when-filter on, the call writes to the frames
    of its caller: an ingoing (resp. outgoing) frame that has rows comes
    back, under the same reference, with a [regex_helper] column and the
    same rows; it differs from what was handed in whenever it had no such
    column. A frame that already holds the column with the values the
    filter computes comes back equal. *)
Theorem when_filter_writes_regex_helper self ri ro rt w (h : heap) dfi dfo td :
  truthy (when self) = true →
  h !! ri = Some dfi → h !! ro = Some dfo → h !! rt = Some td →
  ∃ ds h',
    call self ri ro rt w h = Some (ds, h') ∧
    (rows dfi ≠ [] →
     ∃ dfi', h' !! ri = Some dfi' ∧ has_column "regex_helper" dfi' = true ∧
             rows dfi' = rows dfi ∧
             (has_column "regex_helper" dfi = false → dfi' ≠ dfi)) ∧
    (rows dfo ≠ [] →
     ∃ dfo', h' !! ro = Some dfo' ∧ has_column "regex_helper" dfo' = true ∧
             rows dfo' = rows dfo ∧
             (has_column "regex_helper" dfo = false → dfo' ≠ dfo)).
Proof.
  intros Hwhen Hi Ho Ht.
  rewrite (call_run self ri ro rt w h dfi dfo td Hi Ho Ht), Hwhen.
  eexists _, _. split; [reflexivity|].
  destruct (after_half_lookup subject ri w h ri dfi Hi)
    as (dfi1 & Hi1 & Hrows_i1 & _ & Hcol_i1).
  destruct (after_half_lookup object ro w _ ri dfi1 Hi1)
    as (dfi2 & Hi2 & Hrows_i2 & Hmono_i2 & _).
  destruct (after_half_lookup subject ri w h ro dfo Ho)
    as (dfo1 & Ho1 & Hrows_o1 & _ & _).
  destruct (after_half_lookup object ro w _ ro dfo1 Ho1)
    as (dfo2 & Ho2 & Hrows_o2 & _ & Hcol_o2).
  split.
  - intros Hne. exists dfi2.
    assert (has_column "regex_helper" dfi2 = true) as Hcol
      by (apply Hmono_i2, Hcol_i1; done).
    repeat split; [done|done|congruence|]. intros Hno ->. congruence.
  - intros Hne. exists dfo2.
    assert (has_column "regex_helper" dfo2 = true) as Hcol
      by (apply Hcol_o2; [done|congruence]).
    repeat split; [done|done|congruence|]. intros Hno ->. congruence.
Qed.

End FilterProperties.

(** C8, counterexample: [X] is typed as a place and dated before the
    window; with both dimensions on it is listed twice. *)
Lemma call_lists_node_twice :
  ∃ ds h', Filtering.call (Scenario.filter_of 1 1) 0%nat 1%nat 2%nat
             Scenario.window_2000s Scenario.frames = Some (ds, h') ∧
           ¬ NoDup ds.
Proof.
  eexists _, _. split; [vm_compute; reflexivity|].
  apply (bool_decide_unpack _). vm_compute. exact I.
Qed.

(** C8, witness. *)
Lemma call_lists_each_dimension_witness :
  ∃ where_ds when_ds h',
    Filtering.call (Scenario.filter_of 1 1) 0%nat 1%nat 2%nat
      Scenario.window_2000s Scenario.frames = Some (where_ds ++ when_ds, h') ∧
    NoDup where_ds ∧ NoDup when_ds ∧
    (∀ n, n ∈ where_ds ↔
          where_discards (Scenario.filter_of 1 1) Scenario.types_of_X n) ∧
    (∀ n, n ∈ when_ds ↔
          when_discards (Scenario.filter_of 1 1) Scenario.window_2000s
            Scenario.ingoing_from_X Scenario.outgoing_to_Battle
            Scenario.types_of_X n) ∧
    (∀ n, n ∈ where_ds ++ when_ds ↔
          where_discards (Scenario.filter_of 1 1) Scenario.types_of_X n ∨
          when_discards (Scenario.filter_of 1 1) Scenario.window_2000s
            Scenario.ingoing_from_X Scenario.outgoing_to_Battle
            Scenario.types_of_X n).
Proof.
  apply (call_lists_each_dimension (Scenario.filter_of 1 1) 0%nat 1%nat 2%nat
           Scenario.window_2000s Scenario.frames); reflexivity.
Defined.

(** C9, counterexample: with the bounds of the window swapped, [X], whose
    IRI has no four decimal digits in a row, takes the default year 2010,
    which is above 2000, and is discarded. *)
Lemma regex_fallback_discards_undated_node :
  ¬ has_group Scenario.X ∧
  ∃ ds h', Filtering.get_to_discard_regex (Scenario.filter_of 0 1) 0%nat 1%nat
             Scenario.window_swapped Scenario.frames = Some (ds, h') ∧
           Scenario.X ∈ ds.
Proof.
  split; [exact (findall_head_spec Scenario.X)|].
  eexists _, _. split; [vm_compute; reflexivity|].
  apply list_elem_of_here.
Qed.

(** C9, a second counterexample: under a Unicode database with decimal
    digits beyond ASCII, the node whose IRI ends in four of them is
    discarded by the window 2000-2010, whatever year the four digits
    denote: the group is compared as a string. *)
Lemma regex_fallback_discards_foreign_digits :
  ∃ ds h',
    @Filtering.get_to_discard_regex Scenario.digits_beyond_ascii
      (Scenario.filter_of 0 1) 0%nat 1%nat Scenario.window_2000s
      Scenario.foreign_frames = Some (ds, h') ∧
    Scenario.foreign_node ∈ ds.
Proof.
  eexists _, _. split; [vm_compute; reflexivity|]. apply list_elem_of_here.
Qed.

(** C9, witness: the window 2000-2010 over the frames of the scenario. *)
Lemma regex_fallback_discards_witness :
  ∃ ds h',
    Filtering.get_to_discard_regex (Scenario.filter_of 0 1) 0%nat 1%nat
      Scenario.window_2000s Scenario.frames = Some (ds, h') ∧
    ∀ n, n ∈ ds ↔
         (n ∈ map HDTInterface.subject (Filtering.rows Scenario.ingoing_from_X) ∨
          n ∈ map HDTInterface.object (Filtering.rows Scenario.outgoing_to_Battle)) ∧
         ∃ g, leftmost_group n g ∧ out_of_bounds Scenario.window_2000s g.
Proof.
  destruct (regex_fallback_discards (Scenario.filter_of 0 1) 0%nat 1%nat
              Scenario.window_2000s Scenario.frames
              Scenario.ingoing_from_X Scenario.outgoing_to_Battle)
    as (ds & h' & Hrun & Hds & _);
    [reflexivity|reflexivity|reflexivity|reflexivity|vm_compute; discriminate|].
  by exists ds, h'.
Defined.

(** C10, counterexample: the frames a first call of the filter left, which
    have rows and hold the [regex_helper] column, come back from a second
    call as they were. *)
Lemma when_filter_leaves_filtered_frames :
  ∃ ds h1 ds' dfi dfo,
    Filtering.call (Scenario.filter_of 0 1) 0%nat 1%nat 2%nat
      Scenario.window_2000s Scenario.frames = Some (ds, h1) ∧
    h1 !! 0%nat = Some dfi ∧ Filtering.rows dfi ≠ [] ∧
    h1 !! 1%nat = Some dfo ∧ Filtering.rows dfo ≠ [] ∧
    Filtering.call (Scenario.filter_of 0 1) 0%nat 1%nat 2%nat
      Scenario.window_2000s h1 = Some (ds', h1).
Proof.
  eexists _, _, _, _, _. split; [vm_compute; reflexivity|].
  split; [vm_compute; reflexivity|]. split; [done|].
  split; [vm_compute; reflexivity|]. split; [done|].
  vm_compute. reflexivity.
Qed.

(** C10, witness: both frames of the scenario have rows and no
    [regex_helper] column; both come back with one. *)
Lemma when_filter_writes_regex_helper_witness :
  ∃ ds h',
    Filtering.call (Scenario.filter_of 0 1) 0%nat 1%nat 2%nat
      Scenario.window_2000s Scenario.frames = Some (ds, h') ∧
    (∃ dfi', h' !! 0%nat = Some dfi' ∧
             Filtering.has_column "regex_helper" dfi' = true ∧
             dfi' ≠ Scenario.ingoing_from_X) ∧
    (∃ dfo', h' !! 1%nat = Some dfo' ∧
             Filtering.has_column "regex_helper" dfo' = true ∧
             dfo' ≠ Scenario.outgoing_to_Battle).
Proof.
  destruct (when_filter_writes_regex_helper (Scenario.filter_of 0 1)
              0%nat 1%nat 2%nat Scenario.window_2000s Scenario.frames
              Scenario.ingoing_from_X Scenario.outgoing_to_Battle
              Scenario.types_of_X)
    as (ds & h' & Hcall & Hin & Hout); [reflexivity..|].
  exists ds, h'. split; [exact Hcall|]. split.
  - destruct Hin as (dfi' & ? & ? & _ & Hne); [done|].
    exists dfi'. repeat split; [done..|]. by apply Hne.
  - destruct Hout as (dfo' & ? & ? & _ & Hne); [done|].
    exists dfo'. repeat split; [done..|]. by apply Hne.
Defined.

Section AdapterFrames.

Import HDTInterface.

Lemma run_request_elem self ps filter_pred filter_keep tr :
  tr ∈ run_request self ps filter_pred filter_keep →
  tr ∈ search_triples (db_hdt self) (default "" (p_subject ps))
         (default "" (p_predicate ps)) (default "" (p_object ps)).
Proof.
  unfold run_request. destruct filter_keep;
    intros H; by apply list_elem_of_filter in H as [_ H].
Qed.

Lemma filter_elem triples tr : tr ∈ _filter triples → tr ∈ triples.
Proof.
  unfold _filter, _filter_namespace. intros H.
  by repeat apply list_elem_of_filter in H as [_ H].
Qed.

Lemma term_matches_node node x :
  node ≠ "" → term_matches node x = true → x = node.
Proof.
  unfold term_matches. intros Hne. rewrite orb_true_iff.
  intros [H|H]; apply String.eqb_eq in H; congruence.
Qed.

(** The ingoing triples the adapter returns for a node end at that node,
    the outgoing ones start from it. *)
Lemma get_ingoing_object self node predicate tr :
  node ≠ "" → tr ∈ _get_ingoing self node predicate → tr.2 = node.
Proof.
  intros Hne H. apply filter_elem, run_request_elem in H. cbn in H.
  apply list_elem_of_filter in H as [H _].
  apply andb_true_iff in H as [_ H]. by apply term_matches_node.
Qed.

Lemma get_outgoing_subject self node predicate tr :
  node ≠ "" → tr ∈ _get_outgoing self node predicate → tr.1.1 = node.
Proof.
  intros Hne H. apply filter_elem, run_request_elem in H. cbn in H.
  apply list_elem_of_filter in H as [H _].
  apply andb_true_iff in H as [H _]. apply andb_true_iff in H as [H _].
  by apply term_matches_node.
Qed.

Lemma get_df_NoDup triples type_df : NoDup (_get_df triples type_df).
Proof. apply NoDup_unique. Qed.

Lemma get_df_elem triples t r :
  r ∈ _get_df triples t →
  ∃ tr, tr ∈ triples ∧ r = mk_row tr.1.1 tr.1.2 tr.2 t.
Proof.
  unfold _get_df. rewrite elem_of_unique.
  intros (tr & -> & Htr)%list_elem_of_fmap. eauto.
Qed.

(** The expansion built from the adapter and the filter returns
    well-formed frames for every node but the empty string (which the
    store reads as a wildcard). *)
Lemma node_expansion_well_formed iface flt w a :
  GraphSearchFramework.arg_node a ≠ "" →
  well_formed (GraphSearchFramework.arg_node a) (Scenario.node_expansion iface flt w a).
Proof.
  intros Hne. unfold Scenario.node_expansion, call, _get_all_results.
  cbn [GraphSearchFramework.subgraph_ingoing GraphSearchFramework.subgraph_outgoing].
  unfold well_formed.
  cbn [GraphSearchFramework.subgraph_ingoing GraphSearchFramework.subgraph_outgoing].
  split; [apply NoDup_filter, get_df_NoDup|].
  split; [apply NoDup_filter, get_df_NoDup|].
  split; apply Forall_forall; intros r Hr;
    apply list_elem_of_filter in Hr as [_ Hr];
    apply get_df_elem in Hr as (tr & Htr & ->); cbn; (split; [done|]).
  - by eapply get_ingoing_object.
  - by eapply get_outgoing_subject.
Qed.

End AdapterFrames.

Section LogProperties.

Import GraphSearchFramework.
Context {Score Info Metrics : Type}.
Variable C : @collaborators Score Info Metrics.
Variable cfg : config.

Lemma merge_single_visited i b (s : @state Score Info Metrics) :
  nodes_expanded (_merge_outputs_single_run C cfg i b s) = nodes_expanded s.
Proof.
  unfold _merge_outputs_single_run. cbn.
  destruct (ordering C (path_ingoing b) "ingoing" (info s) i) as [pin info1].
  by destruct (ordering C (path_outgoing b) "outgoing" info1 i).
Qed.

Lemma merge_outputs_visited i output (s : @state Score Info Metrics) :
  nodes_expanded (merge_outputs C cfg output i s) = nodes_expanded s.
Proof.
  unfold merge_outputs. set (s2 := set_discarded _ _).
  assert (nodes_expanded s2 = nodes_expanded s) as Hs2.
  { subst s2. cbn. revert s. induction output as [|b output IH]; [done|].
    intros s. cbn [fold_left]. by rewrite IH, merge_single_visited. }
  destruct (ranker C (occurence s2)) as [p score].
  set (s3 := set_score_expansion score (set_to_expand p s2)).
  by destruct (truthy (to_expand s3)).
Qed.

Lemma select_nodes_fresh i (s : @state Score Info Metrics) nodes path s1 :
  selects_distinct C →
  _select_nodes_to_expand C cfg i s = inr (nodes, path, s1) →
  nodes_expanded s1 = nodes_expanded s ∧ NoDup nodes ∧
  ∀ n, n ∈ nodes → n ∉ nodes_expanded s.
Proof.
  intros Hsel. unfold _select_nodes_to_expand.
  assert (∀ l (s0 : @state Score Info Metrics),
    let fl := filter (λ node, node ∉ nodes_expanded s0) l in
    let nodes := match fl with [] => fl | _ => node_selection C i fl end in
    NoDup nodes ∧ ∀ n, n ∈ nodes → n ∉ nodes_expanded s0) as Hpick.
  { intros l s0. cbv zeta.
    destruct (filter (λ node, node ∉ nodes_expanded s0) l) as [|x fl] eqn:Hfl.
    - split; [apply NoDup_nil_2|]. by intros n ?%elem_of_nil.
    - destruct (Hsel i (x :: fl)) as [Hnd Hsub]. split; [done|].
      intros n Hn%Hsub. rewrite <- Hfl in Hn.
      by apply list_elem_of_filter in Hn as [? _]. }
  destruct (truthy (to_expand s)).
  - destruct (candidates _ _) as [l|]; [|done]. intros [= <- _ <-].
    split; [done|]. exact (Hpick l s).
  - intros [= <- _ <-]. split; [done|]. apply (Hpick [start cfg] s).
Qed.

(** With a selector that never repeats a node, and the sequential
    expansion of the [hdt] and [triply] interfaces, the log of expanded
    nodes is the visited list and has no repeat. *)
Lemma expanded_log_distinct end_node i f :
  selects_distinct C →
  type_interface cfg ≠ "" →
  after C cfg end_node i f →
  nodes_expanded (flow_state f) = expanded_log (flow_state f) ∧
  NoDup (expanded_log (flow_state f)).
Proof.
  intros Hsel Hti.
  assert (∀ i found_node (s : @state Score Info Metrics) f,
    nodes_expanded s = expanded_log s ∧ NoDup (expanded_log s) →
    iteration_body C cfg end_node i found_node s = inr f →
    nodes_expanded (flow_state f) = expanded_log (flow_state f) ∧
    NoDup (expanded_log (flow_state f))) as Hstep.
  { clear i f. intros i found_node s f [Heq Hnd] Hbody.
    apply iteration_body_core in Hbody as (output & nodes & s1 & Hrun & Hcore).
    unfold core in Hcore. injection Hcore as _ _ _ Hexp _ _ Hlog.
    unfold expanded_log. rewrite Hexp, Hlog.
    rewrite merge_outputs_visited.
    destruct (merge_outputs_fields C cfg i output s1) as [_ ->].
    unfold run_one_iteration in Hrun.
    destruct (_select_nodes_to_expand C cfg i s) as [?|[[nodes0 path] s0]] eqn:Hs;
      [done|].
    pose proof (select_nodes_fields C cfg i s nodes0 path s0 Hs) as [_ Hlog0].
    apply (select_nodes_fresh i s nodes0 path s0 Hsel) in Hs
      as (Hexp0 & Hnd0 & Hfresh).
    apply String.eqb_neq in Hti. rewrite Hti in Hrun.
    injection Hrun as <- <- <-. cbn.
    rewrite Hlog0, flat_map_app, map_map, map_id, Hexp0, Heq. cbn.
    rewrite app_nil_r. split; [done|].
    apply NoDup_app. split; [done|]. split; [|done].
    intros n Hn Hn'. apply (Hfresh n Hn'). by rewrite Heq. }
  induction 1 as [f Hbody|i found_node s f _ IH Hbody].
  - eapply Hstep; [|exact Hbody]. split; [done|apply NoDup_nil_2].
  - eapply Hstep; [exact IH|exact Hbody].
Qed.

End LogProperties.

Section SingleSelection.

Import GraphSearchFramework.
Context {Score Info Metrics : Type}.
Variable C : @collaborators Score Info Metrics.
Variable cfg : config.

(** With a selector that never repeats a node (such as the draw of a single
    node of mode [random]) and well-formed expansions, the subgraph has no
    repeated row after any iteration. *)
Lemma rows_distinct_under_distinct_selection end_node i f :
  selects_distinct C →
  type_interface cfg ≠ "" →
  after C cfg end_node i f →
  expands_well C cfg (flow_state f) →
  NoDup (map sg_key (subgraph (flow_state f))).
Proof.
  intros Hsel Hti Hafter Hwf.
  destruct (expanded_log_distinct C cfg end_node i f Hsel Hti Hafter) as [_ Hnd].
  by destruct (rows_distinct_after C cfg end_node i f Hafter Hwf Hnd).
Qed.

End SingleSelection.

Section PlainPredicates.

Import GraphSearchFramework.
Context {Score Info Metrics : Type}.
Variable C : @collaborators Score Info Metrics.
Variable cfg : config.

Lemma prefix_empty s : String.prefix "" s = true.
Proof. by destruct s. Qed.

Lemma contains_prefix sub s : Py.contains sub s = false → String.prefix sub s = false.
Proof. destruct s; cbn; by intros [? _]%orb_false_iff. Qed.

Lemma replace_absent old new s :
  Py.contains old s = false → Py.replace old new s = s.
Proof.
  unfold Py.replace. induction s as [|c s IH]; [done|]. intros Hc.
  pose proof (contains_prefix _ _ Hc) as Hp. cbn [Py.replace_from]. rewrite Hp.
  cbn in Hc. apply orb_false_iff in Hc as [_ Hc]. by rewrite IH.
Qed.

Lemma strip_own d p :
  d ∈ ["1"; "2"; "3"] →
  String.prefix (d +:+ "-") (d +:+ "-" +:+ p) = true ∧
  Py.replace_from 0 (d +:+ "-") "" (d +:+ "-" +:+ p)
  = Py.replace_from 0 (d +:+ "-") "" p.
Proof.
  intros Hd.
  repeat (apply elem_of_cons in Hd as [->|Hd]); [| | |by apply elem_of_nil in Hd];
    cbv [String.append];
    match goal with
    | |- String.prefix ?old ?key = true ∧ _ =>
        assert (String.prefix old key = true) as Hp by (cbn; apply prefix_empty)
    end;
    (split; [exact Hp|]); cbn [Py.replace_from]; by rewrite Hp.
Qed.

(** A key made of a priority, a dash and a predicate that contains none of
    "1-", "2-", "3-" is stripped to the predicate. *)
Lemma strip_priority_plain d p :
  d ∈ ["1"; "2"; "3"] →
  Py.contains "1-" p = false → Py.contains "2-" p = false →
  Py.contains "3-" p = false →
  strip_priority (d +:+ "-" +:+ p) = p.
Proof.
  intros Hd H1 H2 H3.
  pose proof (contains_prefix _ _ H1) as P1.
  pose proof (contains_prefix _ _ H2) as P2.
  pose proof (contains_prefix _ _ H3) as P3.
  pose proof (replace_absent "1-" "" p H1) as R1.
  pose proof (replace_absent "2-" "" p H2) as R2.
  pose proof (replace_absent "3-" "" p H3) as R3.
  unfold Py.replace in R1, R2, R3.
  destruct (strip_own d p Hd) as [E1 E2].
  unfold strip_priority, Py.startswith, Py.replace. cbn [fold_left].
  repeat (apply elem_of_cons in Hd as [->|Hd]); [| | |by apply elem_of_nil in Hd].
  - change ("1" +:+ "-") with "1-" in E1, E2.
    by rewrite E1, E2, R1, P2, P3.
  - change ("2" +:+ "-") with "2-" in E1, E2.
    change (String.prefix "1-" ("2" +:+ "-" +:+ p)) with false. cbn iota.
    by rewrite E1, E2, R2, P3.
  - change ("3" +:+ "-") with "3-" in E1, E2.
    change (String.prefix "1-" ("3" +:+ "-" +:+ p)) with false. cbn iota.
    change (String.prefix "2-" ("3" +:+ "-" +:+ p)) with false. cbn iota.
    by rewrite E1, E2, R3.
Qed.

(** For such a key, and a predicate without ";", the nodes selected are
    drawn from the candidates the chosen predicate designates: the subjects
    of the pending ingoing rows and the objects of the pending outgoing rows
    with that predicate, less the visited nodes. *)
Lemma select_nodes_on_plain_predicate i (s : @state Score Info Metrics) d p :
  d ∈ ["1"; "2"; "3"] →
  Py.contains "1-" p = false → Py.contains "2-" p = false →
  Py.contains "3-" p = false → Py.contains ";" p = false →
  to_expand s = Some (d +:+ "-" +:+ p) →
  ∃ s', _select_nodes_to_expand C cfg i s =
    inr (match filter (λ node, node ∉ nodes_expanded s)
                 (map subject (filter (λ r, predicate r = p) (pending_nodes_ingoing s)) ++
                  map object (filter (λ r, predicate r = p) (pending_nodes_outgoing s)))
         with
         | [] => []
         | l => node_selection C i l
         end, [p], s').
Proof.
  intros Hd H1 H2 H3 Hsemi Hto. unfold _select_nodes_to_expand. rewrite Hto.
  assert (truthy (Some (d +:+ "-" +:+ p)) = true) as ->.
  { repeat (apply elem_of_cons in Hd as [->|Hd]); [done..|by apply elem_of_nil in Hd]. }
  change (default "" (Some (d +:+ "-" +:+ p))) with (d +:+ "-" +:+ p).
  rewrite (strip_priority_plain d p Hd H1 H2 H3).
  unfold candidates. rewrite Hsemi. cbn [andb].
  eexists. cbn.
  by destruct (filter (λ node, node ∉ nodes_expanded s) _).
Qed.

End PlainPredicates.

Section NeighbourhoodProperties.

Import HDTInterface.

Lemma in_list_true x l : Py.in_list x l = true ↔ x ∈ l.
Proof. unfold Py.in_list. apply bool_decide_eq_true. Qed.

Lemma in_list_false x l : Py.in_list x l = false ↔ x ∉ l.
Proof. unfold Py.in_list. apply bool_decide_eq_false. Qed.

Lemma term_matches_wildcard x : term_matches "" x = true.
Proof. done. Qed.

Lemma term_matches_exact node x :
  node ≠ "" → term_matches node x = true ↔ x = node.
Proof.
  intros Hne. split; [by apply term_matches_node|]. intros ->.
  unfold term_matches. by rewrite String.eqb_refl, orb_true_r.
Qed.

Lemma elem_of_filter_clean triples tr :
  tr ∈ _filter triples ↔ tr ∈ triples ∧ clean tr.
Proof.
  unfold _filter, _filter_namespace, clean.
  rewrite !list_elem_of_filter. tauto.
Qed.

Lemma elem_of_run_request_drop self s o filter_pred tr :
  tr ∈ run_request self (mk_params s None o) filter_pred false ↔
  tr ∈ db_hdt self ∧ term_matches (default "" s) tr.1.1 = true ∧
  term_matches (default "" o) tr.2 = true ∧ tr.1.2 ∉ filter_pred.
Proof.
  unfold run_request, search_triples. cbn [p_subject p_predicate p_object default].
  rewrite !list_elem_of_filter, in_list_false, !andb_true_iff.
  rewrite term_matches_wildcard.
  destruct s, o; cbn [default from_option id]; tauto.
Qed.

(** X1. For a node other than the empty string, the ingoing triples the
    adapter returns are exactly the triples of the store that end at the
    node, whose predicate is not excluded and which pass the namespace and
    category denylists; the outgoing triples are exactly those that start
    from the node under the same conditions. *)
Theorem neighbourhood_exact self node predicate tr :
  node ≠ "" →
  (tr ∈ _get_ingoing self node predicate ↔
   tr ∈ db_hdt self ∧ tr.2 = node ∧ (tr.1.2 ∉ predicate) ∧ clean tr) ∧
  (tr ∈ _get_outgoing self node predicate ↔
   tr ∈ db_hdt self ∧ tr.1.1 = node ∧ (tr.1.2 ∉ predicate) ∧ clean tr).
Proof.
  intros Hne. unfold _get_ingoing, _get_outgoing.
  rewrite !elem_of_filter_clean, !elem_of_run_request_drop.
  cbn [default from_option id].
  rewrite !(term_matches_exact node _ Hne), !term_matches_wildcard. tauto.
Qed.

(** X2. The empty string is a wildcard of the store: asked for the
    neighbourhood of the empty node, the adapter returns, as ingoing and as
    outgoing triples alike, every triple of the store that is not excluded
    and passes the denylists, whatever its subject and object. *)
Theorem neighbourhood_of_empty_node self predicate tr :
  (tr ∈ _get_ingoing self "" predicate ↔
   tr ∈ db_hdt self ∧ (tr.1.2 ∉ predicate) ∧ clean tr) ∧
  _get_outgoing self "" predicate = _get_ingoing self "" predicate.
Proof.
  split; [|reflexivity]. unfold _get_ingoing.
  rewrite elem_of_filter_clean, elem_of_run_request_drop.
  cbn [default from_option id]. rewrite !term_matches_wildcard. tauto.
Qed.

Lemma filter_all {A} (P : A → Prop) `{∀ x, Decision (P x)} (l : list A) :
  (∀ x, x ∈ l → P x) → filter P l = l.
Proof.
  induction l as [|x l IH]; [done|]. intros Hall.
  rewrite filter_cons_True by (apply Hall, list_elem_of_here).
  f_equal. apply IH. intros y Hy. by apply Hall, list_elem_of_further.
Qed.

(** X3. The post-filter of the adapter only removes triples, keeps the
    order of those it leaves, and is idempotent: filtering a filtered list
    changes nothing. *)
Theorem filter_idempotent triples :
  sublist (_filter triples) triples ∧ _filter (_filter triples) = _filter triples.
Proof.
  split.
  - unfold _filter, _filter_namespace.
    repeat (etrans; [apply sublist_filter|]). done.
  - assert (∀ tr, tr ∈ _filter triples → clean tr) as Hclean
      by (intros tr Htr; by apply elem_of_filter_clean in Htr as [_ ?]).
    revert Hclean. generalize (_filter triples). intros l Hclean.
    unfold _filter, _filter_namespace.
    rewrite !filter_all; [done|..]; intros tr Htr;
      repeat (apply list_elem_of_filter in Htr as [_ Htr]);
      destruct (Hclean tr Htr) as (? & ? & ? & ?); done.
Qed.

End NeighbourhoodProperties.

(** X1, witness: the neighbourhood of [A] in the store [two_way]. *)
Lemma neighbourhood_exact_witness :
  (Scenario.X, Scenario.p, Scenario.A)
    ∈ HDTInterface._get_ingoing Scenario.two_way Scenario.A [] ∧
  (Scenario.A, Scenario.p, Scenario.X)
    ∈ HDTInterface._get_outgoing Scenario.two_way Scenario.A [].
Proof.
  split.
  - apply (proj1 (neighbourhood_exact Scenario.two_way Scenario.A []
                    (Scenario.X, Scenario.p, Scenario.A) ltac:(done))).
    repeat split; [|apply not_elem_of_nil].
    apply list_elem_of_further, list_elem_of_here.
  - apply (proj2 (neighbourhood_exact Scenario.two_way Scenario.A []
                    (Scenario.A, Scenario.p, Scenario.X) ltac:(done))).
    repeat split; [|apply not_elem_of_nil]. apply list_elem_of_here.
Defined.

Section LiteralProperties.

Import HDTInterface.

Lemma contains_cons sub c s :
  Py.contains sub s = true → Py.contains sub (String c s) = true.
Proof. intros H. cbn [Py.contains]. rewrite H. apply orb_true_r. Qed.

Lemma contains_app_r sub s t :
  Py.contains sub t = true → Py.contains sub (s +:+ t) = true.
Proof.
  intros H. induction s as [|c s IH]; [done|]. by apply contains_cons.
Qed.

Lemma substring_prefix d t :
  String.substring 0 (String.length d) (d +:+ t) = d.
Proof.
  induction d as [|c d IH].
  - change ("" +:+ t) with t. by destruct t.
  - change (String c d +:+ t) with (String c (d +:+ t)).
    cbn [String.length String.substring]. by rewrite IH.
Qed.

(** X4. Literal normalisation. A typed date literal, i.e. one character, a
    ten-character date and a tail that holds the [xsd:date] marker, is
    rewritten to the date; a literal without that marker whose tail holds
    the [xsd:integer] marker is rewritten to its first four characters after
    the opening one; a string with neither marker is passed through. *)
Theorem pre_process_date_literals q d t :
  (String.length d = 10%nat → Py.contains date_marker t = true →
   pre_process_date (String q (d +:+ t)) = d) ∧
  (String.length d = 4%nat →
   Py.contains date_marker (String q (d +:+ t)) = false →
   Py.contains integer_marker t = true →
   pre_process_date (String q (d +:+ t)) = d) ∧
  (Py.contains date_marker t = false → Py.contains integer_marker t = false →
   pre_process_date t = t).
Proof.
  unfold pre_process_date, Py.slice. fold date_marker integer_marker.
  split; [|split].
  - intros Hlen Ht.
    rewrite (contains_cons _ q _ (contains_app_r _ d _ Ht)).
    cbn [String.substring Nat.sub]. rewrite <- Hlen. apply substring_prefix.
  - intros Hlen Hd Ht. rewrite Hd.
    rewrite (contains_cons _ q _ (contains_app_r _ d _ Ht)).
    cbn [String.substring Nat.sub]. rewrite <- Hlen. apply substring_prefix.
  - by intros -> ->.
Qed.

End LiteralProperties.

(** X4, witness: a date, a year and a plain label. *)
Lemma pre_process_date_literals_witness :
  HDTInterface.pre_process_date
    (String (Ascii.ascii_of_nat 34)
       ("1805-12-02" +:+ String (Ascii.ascii_of_nat 34) ("^^" +:+ date_marker)))
  = "1805-12-02" ∧
  HDTInterface.pre_process_date
    (String (Ascii.ascii_of_nat 34)
       ("1805" +:+ String (Ascii.ascii_of_nat 34) ("^^" +:+ integer_marker)))
  = "1805" ∧
  HDTInterface.pre_process_date "Austerlitz" = "Austerlitz".
Proof.
  split; [|split].
  - apply (proj1 (pre_process_date_literals _ "1805-12-02" _)); reflexivity.
  - apply (proj1 (proj2 (pre_process_date_literals _ "1805" _))); reflexivity.
  - apply (proj2 (proj2 (pre_process_date_literals (Ascii.ascii_of_nat 34) ""
                           "Austerlitz"))); reflexivity.
Defined.

Section FrameProperties.

Import HDTInterface.

Lemma elem_of_get_df triples t r :
  r ∈ _get_df triples t ↔ ∃ tr, tr ∈ triples ∧ r = mk_row tr.1.1 tr.1.2 tr.2 t.
Proof.
  unfold _get_df. rewrite elem_of_unique, list_elem_of_fmap.
  split; intros (tr & H1 & H2); exists tr; done.
Qed.

Lemma elem_of_run_request_keep self s filter_pred tr :
  tr ∈ run_request self (mk_params (Some s) None None) filter_pred true ↔
  tr ∈ db_hdt self ∧ term_matches s tr.1.1 = true ∧ tr.1.2 ∈ filter_pred.
Proof.
  unfold run_request, search_triples. cbn [p_subject p_predicate p_object default].
  rewrite !list_elem_of_filter, in_list_true, !andb_true_iff.
  cbn [from_option id]. rewrite !term_matches_wildcard. tauto.
Qed.

Lemma elem_of_filter_specific triples tr :
  tr ∈ _filter_specific triples →
  ∃ tr0, tr0 ∈ triples ∧ tr.1.1 = tr0.1.1 ∧ tr.1.2 = tr0.1.2 ∧
         tr.2 = pre_process_date tr0.2 ∧ tr0.2 ∉ invalid.
Proof.
  unfold _filter_specific. intros (tr0 & -> & H)%list_elem_of_fmap.
  apply list_elem_of_filter in H as [Hinv H]. apply in_list_false in Hinv.
  exists tr0. done.
Qed.

Lemma elem_of_specific_outgoing self ingoing outgoing tr :
  tr ∈ _get_specific_outgoing self ingoing outgoing →
  tr ∈ db_hdt self ∧ tr.1.2 ∈ pred self ∧
  ((∃ tr0, tr0 ∈ ingoing ∧ term_matches tr0.1.1 tr.1.1 = true) ∨
   (∃ tr0, tr0 ∈ outgoing ∧ term_matches tr0.2 tr.1.1 = true)).
Proof.
  unfold _get_specific_outgoing. rewrite elem_of_app.
  intros [H|H]; apply list_elem_of_In, in_flat_map in H as (tr0 & H0 & H);
    apply list_elem_of_In in H0, H;
    apply elem_of_run_request_keep in H as (? & ? & ?); eauto 10.
Qed.

(** X5. The three frames the adapter hands out have no repeated row; the
    rows of the first are typed [ingoing], those of the second [outgoing],
    those of the third [spec. outgoing]; every ingoing or outgoing row is a
    triple of the store, and every row of the third frame carries one of the
    meta predicates of the interface. *)
Theorem call_frames self node predicate :
  let frames := call self node predicate in
  NoDup frames.1.1 ∧ NoDup frames.1.2 ∧ NoDup frames.2 ∧
  (∀ r, r ∈ frames.1.1 →
     type_df r = "ingoing" ∧ (subject r, HDTInterface.predicate r, object r) ∈ db_hdt self) ∧
  (∀ r, r ∈ frames.1.2 →
     type_df r = "outgoing" ∧ (subject r, HDTInterface.predicate r, object r) ∈ db_hdt self) ∧
  (∀ r, r ∈ frames.2 →
     type_df r = "spec. outgoing" ∧ HDTInterface.predicate r ∈ pred self).
Proof.
  cbv zeta. unfold call, _get_all_results. cbn [fst snd].
  split; [apply get_df_NoDup|]. split; [apply get_df_NoDup|].
  split; [apply get_df_NoDup|].
  split; [|split]; intros r (tr & Htr & ->)%elem_of_get_df; cbn; (split; [done|]).
  - apply elem_of_filter_clean in Htr as [Htr _].
    apply elem_of_run_request_drop in Htr as [Htr _]. by destruct tr as [[? ?] ?].
  - apply elem_of_filter_clean in Htr as [Htr _].
    apply elem_of_run_request_drop in Htr as [Htr _]. by destruct tr as [[? ?] ?].
  - apply elem_of_filter_specific in Htr as (tr0 & Htr0 & _ & -> & _).
    by apply elem_of_specific_outgoing in Htr0 as (_ & ? & _).
Qed.

(** X6. When no subject and no object of the store is the empty string,
    every row of the third frame describes a candidate endpoint: its subject
    is the subject of a row of the ingoing frame or the object of a row of
    the outgoing frame. *)
Theorem call_spec_rows_describe_endpoints self node predicate r :
  terms_nonempty self →
  r ∈ (call self node predicate).2 →
  subject r ∈ map subject (call self node predicate).1.1 ∨
  subject r ∈ map object (call self node predicate).1.2.
Proof.
  intros Hterms. unfold call, _get_all_results. cbn [fst snd].
  intros (tr & Htr & ->)%elem_of_get_df. cbn.
  apply elem_of_filter_specific in Htr as (tr0 & Htr0 & -> & _).
  apply elem_of_specific_outgoing in Htr0 as (_ & _ & [(t & Ht & Hm)|(t & Ht & Hm)]).
  - left. apply list_elem_of_fmap. exists (mk_row t.1.1 t.1.2 t.2 "ingoing").
    split; [|apply elem_of_get_df; eauto]. cbn.
    apply term_matches_node; [|done].
    apply elem_of_filter_clean in Ht as [Ht _].
    apply elem_of_run_request_drop in Ht as [Ht _]. by apply Hterms.
  - right. apply list_elem_of_fmap. exists (mk_row t.1.1 t.1.2 t.2 "outgoing").
    split; [|apply elem_of_get_df; eauto]. cbn.
    apply term_matches_node; [|done].
    apply elem_of_filter_clean in Ht as [Ht _].
    apply elem_of_run_request_drop in Ht as [Ht _]. by apply Hterms.
Qed.

End FrameProperties.

(** X6, witness: the type of [X] in the neighbourhood of [A]. *)
Lemma call_spec_rows_describe_endpoints_witness :
  Scenario.X ∈ map HDTInterface.subject
                 (HDTInterface.call Scenario.typed_store Scenario.A []).1.1 ∨
  Scenario.X ∈ map HDTInterface.object
                 (HDTInterface.call Scenario.typed_store Scenario.A []).1.2.
Proof.
  apply (call_spec_rows_describe_endpoints Scenario.typed_store Scenario.A []
           (HDTInterface.mk_row Scenario.X Scenario.rdf_type_iri Scenario.Place
              "spec. outgoing")).
  - intros tr Htr. cbn in Htr.
    apply elem_of_cons in Htr as [->|Htr];
      [|apply list_elem_of_singleton in Htr as ->]; done.
  - vm_compute. apply list_elem_of_here.
Defined.

Section SuperclassBounds.

Import HDTInterface.
Variable self : HDTInterface.t.

Lemma walk_ends_top n r : superclass_walk self n r → top self r.
Proof. induction 1; done. Qed.

(** X7. The class a superclass lookup returns is a fixed point of the
    lookup: asked for the superclass of its own result, the adapter answers
    that result again, in a single call. *)
Theorem get_superclass_fixed_point fuel n r :
  get_superclass self fuel n = Some r → get_superclass self 1 r = Some r.
Proof.
  intros Hget. apply get_superclass_top.
  eapply walk_ends_top, get_superclass_sound, Hget.
Qed.

Lemma get_superclass_None_chain fuel n :
  get_superclass self fuel n = None → ∃ l, length l = fuel ∧ chain self n l.
Proof.
  revert n. induction fuel as [|fuel IH]; intros n.
  - intros _. by exists [].
  - rewrite get_superclass_unfold.
    destruct (first_superclass self n) as [o|] eqn:Hfirst; [|done].
    destruct (String.eqb o owl_Thing) eqn:Ho; [done|].
    intros (l & Hlen & Hl)%IH. exists (n :: l). split; [by cbn; rewrite Hlen|].
    cbn. split; [done|]. exists o. split; [|done].
    split; [done|]. by apply String.eqb_neq.
Qed.

Lemma chain_reach n l x :
  chain self n l → x ∈ l →
  rtc (subclass_step self) n x ∧ ∃ m, subclass_step self x m.
Proof.
  revert n. induction l as [|y l IH]; intros n; [by intros _ ?%elem_of_nil|].
  cbn. intros (-> & m & Hstep & Hl) [->|Hx]%elem_of_cons.
  - split; [done|eauto].
  - destruct (IH m Hl Hx) as [Hrtc ?]. split; [|done].
    by eapply rtc_l.
Qed.

Lemma chain_NoDup n l :
  acyclic_from self n → chain self n l → NoDup l.
Proof.
  revert n. induction l as [|y l IH]; intros n Hacyc; [intros; apply NoDup_nil_2|].
  cbn. intros (-> & m & Hstep & Hl). apply NoDup_cons. split.
  - intros Hin. destruct (chain_reach m l n Hl Hin) as [Hrtc _].
    apply (Hacyc n); [done|]. unfold on_cycle.
    eapply tc_rtc_r; [by apply tc_once|done].
  - apply (IH m); [|done]. intros k Hk. apply Hacyc. by eapply rtc_l.
Qed.

Lemma step_subject x m :
  subclass_step self x m → x ≠ "" → x ∈ map (λ tr : triple, tr.1.1) (db_hdt self).
Proof.
  intros [Hfirst _] Hne. unfold first_superclass in Hfirst.
  destruct (run_request self (mk_params (Some x) None None) [subClassOf] true)
    as [|tr rest] eqn:Hreq; [done|].
  assert (tr ∈ run_request self (mk_params (Some x) None None) [subClassOf] true)
    as Htr by (rewrite Hreq; apply list_elem_of_here).
  apply elem_of_run_request_keep in Htr as (Hdb & Hm & _).
  apply list_elem_of_fmap. exists tr. split; [|done].
  symmetry. by apply term_matches_node.
Qed.

Lemma length_filter_ne (x : string) l :
  NoDup l → (length l ≤ S (length (filter (λ y, y ≠ x) l)))%nat.
Proof.
  induction 1 as [|y l Hy Hnd IH]; [cbn; lia|].
  destruct (decide (y = x)) as [->|Hne].
  - rewrite filter_cons_False by tauto.
    rewrite filter_all by (intros z Hz ->; done). cbn. lia.
  - rewrite filter_cons_True by done. cbn. lia.
Qed.

(** X8. When no node reachable from [n] lies on a cycle of the class
    hierarchy, the superclass lookup of [n] returns within a call stack of
    the number of triples of the store plus two. *)
Theorem get_superclass_bounded n :
  acyclic_from self n →
  ∃ r, get_superclass self (2 + length (db_hdt self)) n = Some r.
Proof.
  intros Hacyc.
  destruct (get_superclass self (2 + length (db_hdt self)) n) as [r|] eqn:Hget;
    [eauto|].
  exfalso. apply get_superclass_None_chain in Hget as (l & Hlen & Hl).
  pose proof (chain_NoDup n l Hacyc Hl) as Hnd.
  pose proof (length_filter_ne "" l Hnd) as Hle.
  assert (filter (λ y, y ≠ "") l ⊆+ map (λ tr : triple, tr.1.1) (db_hdt self)) as Hsub.
  { apply NoDup_submseteq; [by apply NoDup_filter|].
    intros x [Hne Hx]%list_elem_of_filter.
    destruct (chain_reach n l x Hl Hx) as [_ [m Hm]]. by eapply step_subject. }
  apply submseteq_length in Hsub. rewrite length_map in Hsub. lia.
Qed.

End SuperclassBounds.

(** X7, witness: the superclass of [SocietalEvent] is [Event], whose
    superclass is [Event]. *)
Lemma get_superclass_fixed_point_witness :
  HDTInterface.get_superclass Scenario.hierarchy 1 Scenario.Event
  = Some Scenario.Event.
Proof.
  apply (get_superclass_fixed_point Scenario.hierarchy 5 Scenario.SocietalEvent).
  reflexivity.
Defined.

(** X8, witness: the two-level hierarchy has no cycle. *)
Lemma get_superclass_bounded_witness :
  ∃ r, HDTInterface.get_superclass Scenario.hierarchy
         (2 + length (HDTInterface.db_hdt Scenario.hierarchy))
         Scenario.SocietalEvent = Some r.
Proof.
  apply (get_superclass_bounded Scenario.hierarchy Scenario.SocietalEvent).
  intros m Hm Hcyc.
  apply (walk_off_cycle Scenario.hierarchy m Scenario.Event); [|done].
  assert (superclass_walk Scenario.hierarchy Scenario.Event Scenario.Event) as Htop
    by (apply walk_top; by right).
  assert (superclass_walk Scenario.hierarchy Scenario.SocietalEvent Scenario.Event)
    as Hwalk by (apply walk_step with Scenario.Event; [split; done|done]).
  clear Hcyc. induction Hm as [|x y z Hxy _ IH]; [done|].
  apply IH. inversion Hwalk as [? Ht|? y' ? Hstep Hrest]; subst.
  - destruct Hxy as [Hf Hne]. destruct Ht as [Ht|Ht]; congruence.
  - by rewrite (subclass_step_det _ _ _ _ Hxy Hstep).
Defined.

Section FilterFrameEffects.

Import Filtering.
Context {unicode : Py.unicodedata}.


Lemma after_half_other key r w (h : heap) r' :
  r' ≠ r → after_half key r w h !! r' = h !! r'.
Proof.
  intros Hne. unfold after_half. destruct (h !! r) as [df|]; [|done].
  destruct (0 <? shape0 df)%nat; [|done]. by rewrite lookup_insert_ne.
Qed.

Lemma call_rows_frame self ri ro rt w (h : heap) dfi dfo td :
  h !! ri = Some dfi → h !! ro = Some dfo → h !! rt = Some td →
  ∃ ds h', call self ri ro rt w h = Some (ds, h') ∧
    ∀ r df, h !! r = Some df →
      ∃ df', h' !! r = Some df' ∧ rows df' = rows df ∧
             (r ≠ ri → r ≠ ro → df' = df).
Proof.
  intros Hi Ho Ht. rewrite (call_run self ri ro rt w h dfi dfo td Hi Ho Ht).
  eexists _, _. split; [reflexivity|]. intros r df Hr.
  destruct (truthy (when self)); [|by exists df].
  destruct (after_half_lookup subject ri w h r df Hr) as (df1 & Hr1 & Hrows1 & _).
  destruct (after_half_lookup object ro w _ r df1 Hr1) as (df2 & Hr2 & Hrows2 & _).
  exists df2. split; [done|]. split; [congruence|]. intros Hni Hno.
  rewrite !after_half_other in Hr2 by done. congruence.
Qed.

(** X10. Whatever its flags, the call never changes the rows of a frame,
    and the only frames it writes to are the ingoing and the outgoing one:
    every other frame of the store comes back equal. *)
Theorem call_preserves_rows self ri ro rt w (h : heap) dfi dfo td :
  h !! ri = Some dfi → h !! ro = Some dfo → h !! rt = Some td →
  ∃ ds h', call self ri ro rt w h = Some (ds, h') ∧
    ∀ r df, h !! r = Some df →
      ∃ df', h' !! r = Some df' ∧ rows df' = rows df ∧
             (r ≠ ri → r ≠ ro → df' = df).
Proof. apply call_rows_frame. Qed.

(** X11. Frames without rows are left alone: on an empty ingoing and an
    empty outgoing frame the regex fallback discards nothing and the store
    comes back as it was. *)
Theorem get_to_discard_regex_on_empty_frames self ri ro w (h : heap) dfi dfo :
  h !! ri = Some dfi → h !! ro = Some dfo →
  rows dfi = [] → rows dfo = [] →
  get_to_discard_regex self ri ro w h = Some ([], h).
Proof.
  intros Hi Ho Hei Heo.
  rewrite (get_to_discard_regex_run self ri ro w h dfi dfo Hi Ho).
  unfold half_result, after_half, shape0. rewrite Hi, Hei. cbn. rewrite Ho, Heo.
  done.
Qed.

Lemma set_assoc_overwrite name v v' cols :
  set_assoc name v (set_assoc name v' cols) = set_assoc name v cols.
Proof.
  induction cols as [|[n c] cols IH]; cbn.
  - by rewrite String.eqb_refl.
  - destruct (String.eqb n name) eqn:Hn; cbn.
    + by rewrite String.eqb_refl.
    + by rewrite Hn, IH.
Qed.

Lemma half_frame_overwrite key key' w df :
  half_frame key w (half_frame key' w df) = half_frame key w df.
Proof.
  unfold half_frame, set_column. cbn. by rewrite set_assoc_overwrite.
Qed.

Lemma after_half_overwrite key key' r w (h : heap) :
  after_half key r w (after_half key' r w h) = after_half key r w h.
Proof.
  unfold after_half. destruct (h !! r) as [df|] eqn:Hr; [|by rewrite Hr].
  destruct (0 <? shape0 df)%nat eqn:Hn; [|by rewrite Hr, Hn].
  rewrite lookup_insert_eq.
  assert (shape0 (half_frame key' w df) = shape0 df) as -> by done.
  by rewrite Hn, half_frame_overwrite, insert_insert_eq.
Qed.

Lemma after_half_commute key key' r r' w (h : heap) :
  r ≠ r' →
  after_half key r w (after_half key' r' w h)
  = after_half key' r' w (after_half key r w h).
Proof.
  intros Hne. unfold after_half at 1 3.
  rewrite !after_half_other by done. unfold after_half.
  destruct (h !! r) as [df|] eqn:Hr; destruct (h !! r') as [df'|] eqn:Hr';
    try done.
  - destruct (0 <? shape0 df)%nat; destruct (0 <? shape0 df')%nat; try done.
    by apply insert_insert_ne.
Qed.

(** X12. Filtering twice is filtering once: a second call on the store the
    first call left returns the same discard list and leaves that store as
    it is. *)
Theorem call_idempotent self ri ro rt w (h : heap) dfi dfo td ds h' :
  h !! ri = Some dfi → h !! ro = Some dfo → h !! rt = Some td →
  call self ri ro rt w h = Some (ds, h') →
  call self ri ro rt w h' = Some (ds, h').
Proof.
  intros Hi Ho Ht Hcall.
  destruct (call_rows_frame self ri ro rt w h dfi dfo td Hi Ho Ht)
    as (ds0 & h0 & Hcall0 & Hrows).
  rewrite Hcall in Hcall0. injection Hcall0 as <- <-.
  destruct (Hrows ri dfi Hi) as (dfi' & Hi' & Hri & _).
  destruct (Hrows ro dfo Ho) as (dfo' & Ho' & Hro & _).
  destruct (Hrows rt td Ht) as (td' & Ht' & Hrt & _).
  rewrite (call_run self ri ro rt w h dfi dfo td Hi Ho Ht) in Hcall.
  rewrite (call_run self ri ro rt w h' dfi' dfo' td' Hi' Ho' Ht').
  injection Hcall as <- Hh'.
  rewrite (half_result_rows subject w dfi' dfi Hri),
          (half_result_rows object w dfo' dfo Hro).
  unfold date_rows. rewrite Hrt. f_equal. f_equal.
  destruct (truthy (when self)); [|done]. rewrite <- Hh'.
  destruct (decide (ri = ro)) as [->|Hne].
  - by rewrite (after_half_overwrite subject object), !after_half_overwrite.
  - rewrite (after_half_commute subject object ri ro) by done.
    by rewrite !after_half_overwrite.
Qed.

End FilterFrameEffects.


(** X10, witness: the full filter over the frames of the scenario. *)
Lemma call_preserves_rows_witness :
  ∃ ds h', Filtering.call (Scenario.filter_of 1 1) 0%nat 1%nat 2%nat
             Scenario.window_2000s Scenario.frames = Some (ds, h') ∧
    ∀ r df, Scenario.frames !! r = Some df →
      ∃ df', h' !! r = Some df' ∧ Filtering.rows df' = Filtering.rows df ∧
             (r ≠ 0%nat → r ≠ 1%nat → df' = df).
Proof.
  apply (call_preserves_rows (Scenario.filter_of 1 1) 0%nat 1%nat 2%nat
           Scenario.window_2000s Scenario.frames Scenario.ingoing_from_X
           Scenario.outgoing_to_Battle Scenario.types_of_X); reflexivity.
Defined.

(** X11, witness: two frames without rows. *)
Lemma get_to_discard_regex_on_empty_frames_witness :
  Filtering.get_to_discard_regex (Scenario.filter_of 0 1) 0%nat 1%nat
    Scenario.window_2000s
    (<[0%nat := Filtering.mk_df [] []]> (<[1%nat := Filtering.mk_df [] []]> ∅))
  = Some ([], <[0%nat := Filtering.mk_df [] []]>
                (<[1%nat := Filtering.mk_df [] []]> ∅)).
Proof.
  apply (get_to_discard_regex_on_empty_frames (Scenario.filter_of 0 1) 0%nat 1%nat
           Scenario.window_2000s _ (Filtering.mk_df [] []) (Filtering.mk_df [] []));
    reflexivity.
Defined.

(** X12, witness: the full filter applied twice to the frames of the
    scenario. *)
Lemma call_idempotent_witness :
  ∃ ds h', Filtering.call (Scenario.filter_of 1 1) 0%nat 1%nat 2%nat
             Scenario.window_2000s Scenario.frames = Some (ds, h') ∧
           Filtering.call (Scenario.filter_of 1 1) 0%nat 1%nat 2%nat
             Scenario.window_2000s h' = Some (ds, h').
Proof.
  destruct (Filtering.call (Scenario.filter_of 1 1) 0%nat 1%nat 2%nat
              Scenario.window_2000s Scenario.frames) as [[ds h']|] eqn:Hcall.
  - exists ds, h'. split; [done|].
    apply (call_idempotent (Scenario.filter_of 1 1) 0%nat 1%nat 2%nat
             Scenario.window_2000s Scenario.frames Scenario.ingoing_from_X
             Scenario.outgoing_to_Battle Scenario.types_of_X ds h');
      [reflexivity..|exact Hcall].
  - vm_compute in Hcall. discriminate Hcall.
Defined.

Section DateProperties.

Import Filtering.
Context {unicode : Py.unicodedata}.

(** X13. The date window is inclusive: a node all of whose temporal
    literals lie within the window, its two bounds included, is not
    discarded by [get_to_discard_date]. *)
Theorem get_to_discard_date_keeps_in_window self date_df w n :
  (∀ r, r ∈ date_df → subject r = n → in_window w (object r)) →
  n ∉ get_to_discard_date self date_df w.
Proof.
  intros Hin. unfold get_to_discard_date. rewrite elem_of_unique.
  intros (r & -> & Hr)%list_elem_of_fmap.
  apply list_elem_of_filter in Hr as [Hout Hr].
  destruct (Hin r Hr eq_refl) as [Hlo Hhi].
  unfold date_out in Hout. rewrite Hlo, Hhi, !andb_false_r in Hout. done.
Qed.

(** X14. The value [regex_helper] computes for a string is the leftmost
    group of four decimal digits of the string (as the class [\d] knows
    them, beyond ASCII included), or, when the string has no four decimal
    digits in a row, the default it was given. *)
Theorem regex_helper_result val default_return_val :
  (∃ g, leftmost_group val g ∧ regex_helper val default_return_val = g) ∨
  (¬ has_group val ∧ regex_helper val default_return_val = default_return_val).
Proof. apply regex_helper_cases. Qed.

End DateProperties.

(** X13, witness: a node dated on the first day of the window. *)
Lemma get_to_discard_date_keeps_in_window_witness :
  Scenario.X ∉
  Filtering.get_to_discard_date (Scenario.filter_of 0 1)
    [HDTInterface.mk_row Scenario.X Scenario.dbo_date "2000-01-01" "spec. outgoing"]
    Scenario.window_2000s.
Proof.
  apply get_to_discard_date_keeps_in_window.
  intros r ->%list_elem_of_singleton _. split; reflexivity.
Defined.

Section CountingProperties.

Import GraphSearchFramework.
Variable cfg : config.

Lemma count_of_incr key (occ : gmap string Z) k :
  count_of (incr key occ) k = count_of occ k + (if decide (key = k) then 1 else 0).
Proof.
  unfold count_of, incr. destruct (decide (key = k)) as [->|Hne].
  - by rewrite lookup_insert_eq.
  - rewrite lookup_insert_ne by done. lia.
Qed.

Lemma count_of_count_rows key rs (occ : gmap string Z) k :
  count_of (count_rows key rs occ) k = count_of occ k + rows_with_key key rs k.
Proof.
  unfold count_rows, rows_with_key. revert occ.
  induction rs as [|r rs IH]; intros occ; [cbn; lia|].
  cbn [fold_left]. rewrite IH, count_of_incr.
  destruct (decide (key r = k)) as [Hk|Hk].
  - rewrite filter_cons_True by done. cbn [length]. lia.
  - rewrite filter_cons_False by done. lia.
Qed.

(** X15. The occurrence update counts rows: under a predicate ranking the
    count of every key grows by the number of new rows, ingoing and
    outgoing, whose predicate key it is; under a predicate-and-endpoint
    ranking it grows by the number of ingoing rows with that ingoing key plus
    the number of outgoing rows with that outgoing key. A key that no new
    row carries keeps its count, an absent key reading as zero. *)
Theorem update_occurence_counts ingoing outgoing (occ : gmap string Z) k :
  (on_predicate (type_ranking cfg) = true →
   count_of (_update_occurence cfg ingoing outgoing occ) k =
   count_of occ k + rows_with_key (key_pred cfg) (ingoing ++ outgoing) k) ∧
  (on_predicate_object (type_ranking cfg) = true →
   count_of (_update_occurence cfg ingoing outgoing occ) k =
   count_of occ k + rows_with_key (key_ingoing cfg) ingoing k
                  + rows_with_key (key_outgoing cfg) outgoing k).
Proof.
  unfold _update_occurence.
  split; intros Hr; destruct (type_ranking cfg); try done;
    cbn [on_predicate on_predicate_object]; rewrite !count_of_count_rows;
    unfold rows_with_key; rewrite ?filter_app, ?length_app; lia.
Qed.

Lemma incr_positive key (occ : gmap string Z) :
  counts_positive occ → counts_positive (incr key occ).
Proof.
  intros Hpos k v. unfold incr. destruct (decide (key = k)) as [->|Hne].
  - rewrite lookup_insert_eq. intros [= <-].
    destruct (occ !! k) as [v0|] eqn:Hk; cbn; [|lia].
    specialize (Hpos k v0 Hk). lia.
  - rewrite lookup_insert_ne by done. apply Hpos.
Qed.

Lemma count_rows_positive key rs (occ : gmap string Z) :
  counts_positive occ → counts_positive (count_rows key rs occ).
Proof.
  unfold count_rows. revert occ. induction rs as [|r rs IH]; intros occ H; [done|].
  cbn. by apply IH, incr_positive.
Qed.

Lemma update_occurence_positive ingoing outgoing (occ : gmap string Z) :
  counts_positive occ → counts_positive (_update_occurence cfg ingoing outgoing occ).
Proof.
  intros H. unfold _update_occurence.
  destruct (on_predicate (type_ranking cfg));
    destruct (on_predicate_object (type_ranking cfg));
    repeat apply count_rows_positive; done.
Qed.

Lemma update_after_expansion_positive (occ : gmap string Z) k :
  counts_positive occ → counts_positive (update_occurrence_after_expansion cfg occ k).
Proof.
  intros Hpos k' v. unfold update_occurrence_after_expansion.
  destruct (node_selection_type cfg).
  - rewrite lookup_fmap. destruct (occ !! k') as [v0|] eqn:Hk; [|done].
    cbn. intros [= <-]. by apply (Hpos k').
  - intros [H _]%map_lookup_filter_Some. by apply (Hpos k').
Qed.

End CountingProperties.

(** X15, witness: two rows of predicate [p] under [pred_freq]. *)
Lemma update_occurence_counts_witness :
  count_of (GraphSearchFramework._update_occurence (Scenario.cfg_all Scenario.A 2)
              [GraphSearchFramework.mk_path_row Scenario.X Scenario.p Scenario.A
                 (GraphSearchFramework.SupList [])]
              [GraphSearchFramework.mk_path_row Scenario.A Scenario.p Scenario.X
                 (GraphSearchFramework.SupList [])] ∅)
           "3-http://example.org/p" = 2.
Proof.
  rewrite (proj1 (update_occurence_counts (Scenario.cfg_all Scenario.A 2) _ _ ∅
                    "3-http://example.org/p") eq_refl).
  reflexivity.
Defined.

Section RunInvariants.

Import GraphSearchFramework.
Context {Score Info Metrics : Type}.
Variable C : @collaborators Score Info Metrics.
Variable cfg : config.

Lemma run_one_iteration_occurence i (s : @state Score Info Metrics) output nodes s1 :
  run_one_iteration C cfg i s = inr (output, nodes, s1) →
  occurence s1 = occurence s.
Proof.
  unfold run_one_iteration, _select_nodes_to_expand.
  destruct (truthy (to_expand s)).
  - destruct (candidates _ _); [|done].
    destruct (String.eqb (type_interface cfg) ""); by intros [= _ _ <-].
  - destruct (String.eqb (type_interface cfg) ""); by intros [= _ _ <-].
Qed.

Lemma merge_outputs_positive i output (s : @state Score Info Metrics) :
  counts_positive (occurence s) →
  counts_positive (occurence (merge_outputs C cfg output i s)).
Proof.
  intros Hpos. unfold merge_outputs. set (s2 := set_discarded _ _).
  assert (counts_positive (occurence s2)) as Hs2.
  { subst s2. cbn. revert s Hpos. induction output as [|b output IH]; [done|].
    intros s Hpos. cbn [fold_left]. apply IH.
    unfold _merge_outputs_single_run.
    destruct (ordering C (path_ingoing b) "ingoing" _ i) as [pin info1].
    destruct (ordering C (path_outgoing b) "outgoing" info1 i) as [pout info2].
    cbn. by apply update_occurence_positive. }
  destruct (ranker C (occurence s2)) as [p score].
  set (s3 := set_score_expansion score (set_to_expand p s2)).
  destruct (truthy (to_expand s3)); [|done]. cbn.
  by apply update_after_expansion_positive.
Qed.

(** X16. After every iteration of a run, every count held in the
    occurrence map is at least one: keys are created at one, only ever
    incremented, and leave the map by removal. *)
Theorem occurrence_counts_positive end_node i f :
  after C cfg end_node i f →
  counts_positive (occurence (flow_state f)).
Proof.
  assert (∀ i found_node (s : @state Score Info Metrics) f,
    counts_positive (occurence s) →
    iteration_body C cfg end_node i found_node s = inr f →
    counts_positive (occurence (flow_state f))) as Hstep.
  { clear i f. intros i found_node s f Hpos Hbody.
    apply iteration_body_core in Hbody as (output & nodes & s1 & Hrun & Hcore).
    unfold core in Hcore. injection Hcore as _ _ _ _ -> _ _.
    apply merge_outputs_positive.
    by rewrite (run_one_iteration_occurence i s output nodes s1 Hrun). }
  induction 1 as [f Hbody|i found_node s f _ IH Hbody].
  - eapply Hstep; [|exact Hbody]. intros k v. cbn. by rewrite lookup_empty.
  - eapply Hstep; [exact IH|exact Hbody].
Qed.

(** X19. With a selector that never repeats a node and picks among the
    candidates it is given, and the sequential expansion of the [hdt] and
    [triply] interfaces, no node is expanded twice in a run: after every
    iteration the visited list has no repeat. *)
Theorem visited_nodes_distinct end_node i f :
  selects_distinct C →
  type_interface cfg ≠ "" →
  after C cfg end_node i f →
  NoDup (nodes_expanded (flow_state f)).
Proof.
  intros Hsel Hti Hafter.
  destruct (expanded_log_distinct C cfg end_node i f Hsel Hti Hafter) as [-> ?].
  done.
Qed.

End RunInvariants.

Section TagProperties.

Import GraphSearchFramework.
Context {Score Info Metrics : Type}.
Variable C : @collaborators Score Info Metrics.
Variable cfg : config.

Lemma new_rows_tagged i output r : r ∈ new_rows i output → sg_iteration r = i.
Proof.
  unfold new_rows, bundle_rows. intros Hr.
  apply list_elem_of_In, in_flat_map in Hr as (b & _ & Hr).
  apply list_elem_of_In, elem_of_app in Hr as [Hr|Hr];
    by apply list_elem_of_fmap in Hr as (x & -> & _).
Qed.

Lemma iteration_rows end_node i found_node (s : @state Score Info Metrics) f :
  iteration_body C cfg end_node i found_node s = inr f →
  ∃ rows, subgraph (flow_state f) = subgraph s ++ rows ∧
          ∀ r, r ∈ rows → sg_iteration r = i.
Proof.
  intros Hbody.
  apply iteration_body_core in Hbody as (output & nodes & s1 & Hrun & Hcore).
  unfold core in Hcore. injection Hcore as -> _ _ _ _ _ _.
  apply run_one_iteration_fields in Hrun as (Hsub & _).
  destruct (merge_outputs_fields C cfg i output s1) as [-> _].
  exists (new_rows i output). rewrite Hsub. split; [done|].
  apply new_rows_tagged.
Qed.

(** X17. The subgraph is append-only: one pass of the loop leaves every row
    it found in place and appends the rows of the expansions of that pass,
    each tagged with the number of the iteration. *)
Theorem iteration_appends_tagged_rows end_node i found_node
    (s : @state Score Info Metrics) f :
  iteration_body C cfg end_node i found_node s = inr f →
  ∃ rows, subgraph (flow_state f) = subgraph s ++ rows ∧
          ∀ r, r ∈ rows → sg_iteration r = i.
Proof. apply iteration_rows. Qed.

Lemma same_tag_ordered i (rows : list subgraph_row) :
  (∀ r, r ∈ rows → sg_iteration r = i) → tags_ordered rows.
Proof.
  unfold tags_ordered. intros Htag. induction rows as [|r rows IH]; constructor.
  - apply IH. intros r' Hr'. by apply Htag, list_elem_of_further.
  - apply Forall_forall. intros r' Hr'.
    rewrite (Htag r), (Htag r'); [done|by apply list_elem_of_further|].
    apply list_elem_of_here.
Qed.

(** X18. After the [i]-th iteration of a run, the iteration tags of the
    rows of the subgraph lie between 1 and [i] and never decrease along the
    subgraph. *)
Theorem subgraph_tags_ordered end_node i f :
  after C cfg end_node i f →
  tags_ordered (subgraph (flow_state f)) ∧
  ∀ r, r ∈ subgraph (flow_state f) → (1 ≤ sg_iteration r ≤ i)%nat.
Proof.
  induction 1 as [f Hbody|i found_node s f _ [IHs IHb] Hbody];
    apply iteration_rows in Hbody as (rows & -> & Htag).
  - cbn. split; [by apply (same_tag_ordered 1)|].
    intros r Hr. rewrite (Htag r Hr). lia.
  - cbn [flow_state] in IHs, IHb. split.
    + apply StronglySorted_app_2; [|done|by apply (same_tag_ordered (S i))].
      intros x1 x2 H1 H2. rewrite (Htag x2 H2). specialize (IHb x1 H1). lia.
    + intros r [Hr|Hr]%elem_of_app.
      * specialize (IHb r Hr). lia.
      * rewrite (Htag r Hr). lia.
Qed.

End TagProperties.

Lemma two_iterations_unfiltered :
  ∃ f, GraphSearchFramework.after Scenario.unfiltered
         (Scenario.cfg_all Scenario.A 2) "" 2 f.
Proof.
  eexists. eapply GraphSearchFramework.after_next.
  - apply GraphSearchFramework.after_first. vm_compute. reflexivity.
  - vm_compute. reflexivity.
Qed.

(** X17, witness: the first iteration over [two_way]. *)
Lemma iteration_appends_tagged_rows_witness :
  match GraphSearchFramework.iteration_body Scenario.unfiltered
          (Scenario.cfg_all Scenario.A 2) "" 1 None
          (GraphSearchFramework.reset Scenario.unfiltered
             (GraphSearchFramework.init Scenario.unfiltered)) with
  | inr f =>
      ∃ rows, GraphSearchFramework.subgraph (GraphSearchFramework.flow_state f)
              = [] ++ rows ∧
              ∀ r, r ∈ rows → GraphSearchFramework.sg_iteration r = 1%nat
  | inl _ => False
  end.
Proof.
  destruct (GraphSearchFramework.iteration_body _ _ _ _ _ _) as [e|f] eqn:Hbody.
  - vm_compute in Hbody. discriminate Hbody.
  - exact (iteration_appends_tagged_rows _ _ _ _ _ _ _ Hbody).
Defined.

(** X18, witness: two iterations over [two_way]. *)
Lemma subgraph_tags_ordered_witness :
  ∃ f, GraphSearchFramework.after Scenario.unfiltered
         (Scenario.cfg_all Scenario.A 2) "" 2 f ∧
       tags_ordered (GraphSearchFramework.subgraph (GraphSearchFramework.flow_state f)) ∧
       ∀ r, r ∈ GraphSearchFramework.subgraph (GraphSearchFramework.flow_state f) →
            (1 ≤ GraphSearchFramework.sg_iteration r ≤ 2)%nat.
Proof.
  destruct two_iterations_unfiltered as [f Hafter]. exists f.
  split; [exact Hafter|].
  exact (subgraph_tags_ordered _ _ _ _ _ Hafter).
Defined.

(** X16, witness: two iterations over [two_way], one node drawn at each;
    the map then holds the key of [p] with the count 4. *)
Lemma occurrence_counts_positive_witness :
  ∃ f, GraphSearchFramework.after Scenario.drawing Scenario.cfg_draw "" 2 f ∧
       GraphSearchFramework.occurence (GraphSearchFramework.flow_state f)
         !! "3-http://example.org/p" = Some 4 ∧
       counts_positive (GraphSearchFramework.occurence (GraphSearchFramework.flow_state f)).
Proof.
  assert (∃ f, GraphSearchFramework.after Scenario.drawing Scenario.cfg_draw "" 2 f ∧
               GraphSearchFramework.occurence (GraphSearchFramework.flow_state f)
                 !! "3-http://example.org/p" = Some 4)
    as (f & Hafter & Hocc).
  { eexists. split.
    - eapply GraphSearchFramework.after_next.
      + apply GraphSearchFramework.after_first. vm_compute. reflexivity.
      + vm_compute. reflexivity.
    - vm_compute. reflexivity. }
  exists f. split; [exact Hafter|]. split; [exact Hocc|].
  exact (occurrence_counts_positive _ _ _ _ _ Hafter).
Defined.

Lemma select_first_distinct : selects_distinct Scenario.drawing.
Proof.
  intros i nodes. cbn. unfold Scenario.select_first.
  destruct nodes as [|x nodes]; cbn.
  - split; [apply NoDup_nil_2|done].
  - split; [apply NoDup_singleton|]. intros n ->%list_elem_of_singleton.
    apply list_elem_of_here.
Qed.

(** X19, witness: two iterations over [two_way], one node drawn at each. *)
Lemma visited_nodes_distinct_witness :
  ∃ f, GraphSearchFramework.after Scenario.drawing Scenario.cfg_draw "" 2 f ∧
       NoDup (GraphSearchFramework.nodes_expanded (GraphSearchFramework.flow_state f)).
Proof.
  assert (∃ f, GraphSearchFramework.after Scenario.drawing Scenario.cfg_draw "" 2 f)
    as [f Hafter].
  { eexists. eapply GraphSearchFramework.after_next.
    - apply GraphSearchFramework.after_first. vm_compute. reflexivity.
    - vm_compute. reflexivity. }
  exists f. split; [exact Hafter|].
  apply (visited_nodes_distinct Scenario.drawing Scenario.cfg_draw "" 2 f);
    [apply select_first_distinct|done|exact Hafter].
Defined.

Section PathProperties.

Import GraphSearchFramework.
Context {Score Info Metrics : Type}.

Lemma update_path_row_spec i e known new b0 (s0 : @state Score Info Metrics) row b s' :
  update_path_row i e known new (inr (b0, s0)) row = inr (b, s') →
  (b = true ↔ b0 = true ∨ new row = e) ∧
  ∀ n, is_Some (path_node_to_start s0 !! n) ∨ n = new row →
       is_Some (path_node_to_start s' !! n).
Proof.
  unfold update_path_row. destruct (previous_path i (known row) s0); [|done].
  intros [= <- <-]. split.
  - rewrite orb_true_iff, String.eqb_eq. tauto.
  - intros n Hn. cbn. destruct (decide (new row = n)) as [->|Hne].
    + rewrite lookup_insert_eq. eauto.
    + rewrite lookup_insert_ne by done. destruct Hn as [?| ->]; done.
Qed.

Lemma update_path_rows_spec i e known new rows b0 (s0 : @state Score Info Metrics) b s' :
  fold_left (update_path_row i e known new) rows (inr (b0, s0)) = inr (b, s') →
  (b = true ↔ b0 = true ∨ e ∈ map new rows) ∧
  ∀ n, is_Some (path_node_to_start s0 !! n) ∨ n ∈ map new rows →
       is_Some (path_node_to_start s' !! n).
Proof.
  revert b0 s0. induction rows as [|row rows IH]; intros b0 s0; cbn [fold_left map].
  - intros [= <- <-]. rewrite elem_of_nil. split; [tauto|]. intros n [?|?%elem_of_nil]; done.
  - intros H. pose proof H as H'.
    apply update_path_rows_core in H' as (b1 & s1 & Hrow & _).
    rewrite Hrow in H. apply IH in H as [Hb Hn].
    apply update_path_row_spec in Hrow as [Hb1 Hn1].
    split.
    + rewrite Hb, Hb1, elem_of_cons. split; [|intros [?|[->|?]]]; try tauto.
      intros [[?|?]|?]; eauto.
    + intros n. rewrite elem_of_cons. intros [?|[?|?]]; apply Hn; eauto.
Qed.

Lemma update_path_rows_total e known new rows b0 (s0 : @state Score Info Metrics) :
  ∃ b s', fold_left (update_path_row 1 e known new) rows (inr (b0, s0)) = inr (b, s').
Proof.
  revert b0 s0. induction rows as [|row rows IH]; intros b0 s0; cbn; [eauto|].
  apply IH.
Qed.

Lemma update_path_spec output i e b0 (s0 : @state Score Info Metrics) b s' :
  fold_left
    (λ acc bd,
       fold_left (update_path_row i e HDTInterface.subject HDTInterface.object)
         (path_outgoing bd)
         (fold_left (update_path_row i e HDTInterface.object HDTInterface.subject)
            (path_ingoing bd) acc))
    output (inr (b0, s0)) = inr (b, s') →
  (b = true ↔ b0 = true ∨ e ∈ endpoints output) ∧
  ∀ n, is_Some (path_node_to_start s0 !! n) ∨ n ∈ endpoints output →
       is_Some (path_node_to_start s' !! n).
Proof.
  unfold endpoints. revert b0 s0.
  induction output as [|bd output IH]; intros b0 s0; cbn [fold_left flat_map].
  - intros [= <- <-]. rewrite elem_of_nil. split; [tauto|]. intros n [?|?%elem_of_nil]; done.
  - intros H. pose proof H as H'.
    assert (∃ b2 s2,
      fold_left (update_path_row i e HDTInterface.subject HDTInterface.object)
        (path_outgoing bd)
        (fold_left (update_path_row i e HDTInterface.object HDTInterface.subject)
           (path_ingoing bd) (inr (b0, s0))) = inr (b2, s2)) as (b2 & s2 & Hout).
    { revert H'. generalize (fold_left
        (update_path_row i e HDTInterface.subject HDTInterface.object)
        (path_outgoing bd)
        (fold_left (update_path_row i e HDTInterface.object HDTInterface.subject)
           (path_ingoing bd) (inr (b0, s0)))).
      intros acc Hacc. clear -Hacc. revert acc Hacc.
      induction output as [|bd' output IH']; intros acc; cbn.
      - intros ->. eauto.
      - intros (b3 & s3 & H3)%IH'.
        apply update_path_rows_core in H3 as (b4 & s4 & H4 & _).
        apply update_path_rows_core in H4 as (b5 & s5 & -> & _). eauto. }
    rewrite Hout in H. apply IH in H as [Hb Hn].
    pose proof Hout as Hout'.
    apply update_path_rows_core in Hout' as (b1 & s1 & Hin & _).
    rewrite Hin in Hout.
    apply update_path_rows_spec in Hin as [Hb1 Hn1].
    apply update_path_rows_spec in Hout as [Hb2 Hn2].
    split.
    + rewrite Hb, Hb2, Hb1, !elem_of_app. tauto.
    + intros n. rewrite !elem_of_app. intros [?|[[?|?]|?]]; apply Hn; eauto 6.
Qed.

(** X20. Path tracking. At the first iteration [_update_path] never raises.
    Whenever it returns, the flag it returns is true exactly when the end
    node is a free endpoint of a row of the output (the subject of an
    ingoing row or the object of an outgoing row), and every such endpoint
    has an entry in the provenance dictionary. *)
Theorem update_path_finds_end_node output i end_node (s : @state Score Info Metrics) :
  (i = 1%nat → ∃ b s', _update_path output i end_node s = inr (b, s')) ∧
  (∀ b s', _update_path output i end_node s = inr (b, s') →
     (b = true ↔ end_node ∈ endpoints output) ∧
     ∀ n, n ∈ endpoints output → is_Some (path_node_to_start s' !! n)).
Proof.
  unfold _update_path. split.
  - intros ->. generalize false. revert s.
    induction output as [|bd output IH]; intros s b0; cbn [fold_left]; [eauto|].
    destruct (update_path_rows_total end_node HDTInterface.object
                HDTInterface.subject (path_ingoing bd) b0 s) as (b1 & s1 & ->).
    destruct (update_path_rows_total end_node HDTInterface.subject
                HDTInterface.object (path_outgoing bd) b1 s1) as (b2 & s2 & ->).
    apply IH.
  - intros b s' [Hb Hn]%update_path_spec. split.
    + rewrite Hb. split; [by intros [?|?]|eauto].
    + intros n Hin. apply Hn. by right.
Qed.

End PathProperties.

Section LoopBounds.

Import GraphSearchFramework.
Context {Score Info Metrics : Type}.
Variable C : @collaborators Score Info Metrics.
Variable cfg : config.

Lemma iteration_body_logs end_node i found_node (s : @state Score Info Metrics) f :
  iteration_body C cfg end_node i found_node s = inr f →
  length (nodes_expanded_per_iter (flow_state f))
  = S (length (nodes_expanded_per_iter s)).
Proof.
  intros Hbody.
  apply iteration_body_core in Hbody as (output & nodes & s1 & Hrun & Hcore).
  unfold core in Hcore. injection Hcore as _ _ _ _ _ _ ->.
  apply run_one_iteration_fields in Hrun as (_ & Hlog & _).
  destruct (merge_outputs_fields C cfg i output s1) as [_ ->].
  rewrite Hlog, length_app. cbn. lia.
Qed.

Lemma iteration_body_break end_node i found_node (s : @state Score Info Metrics) e s1 :
  iteration_body C cfg end_node i found_node s = inr (Break e s1) →
  e ≠ budget_exhausted.
Proof.
  unfold iteration_body.
  destruct (run_one_iteration C cfg i s) as [?|[[output nodes] s0]]; [done|].
  destruct (tracks_paths (mode cfg)).
  - destruct (_update_path output i end_node _) as [?|[[|] s2]]; [done| |].
    + by intros [= <- _].
    + destruct (with_metrics (mode cfg)); cbn;
        match goal with |- context [if ?c then _ else _] => destruct c end;
        by intros [= <- _].
  - destruct found_node as [[|]|]; [| |done].
    + by intros [= <- _].
    + destruct (with_metrics (mode cfg)); cbn;
        match goal with |- context [if ?c then _ else _] => destruct c end;
        by intros [= <- _].
Qed.

Lemma loop_passes end_node n i found_node (s : @state Score Info Metrics) x s' :
  loop C cfg end_node n i found_node s = inr (x, s') →
  (length (nodes_expanded_per_iter s') ≤ length (nodes_expanded_per_iter s) + n)%nat ∧
  (x = budget_exhausted →
   length (nodes_expanded_per_iter s') = (length (nodes_expanded_per_iter s) + n)%nat) ∧
  (x ≠ budget_exhausted →
   (length (nodes_expanded_per_iter s) < length (nodes_expanded_per_iter s'))%nat).
Proof.
  revert i found_node s. induction n as [|n IH]; intros i found_node s; cbn [loop].
  - intros [= <- <-]. split; [lia|]. split; [lia|done].
  - destruct (iteration_body C cfg end_node i found_node s) as [?|f] eqn:Hbody;
      [done|].
    pose proof (iteration_body_logs end_node i found_node s f Hbody) as Hlog.
    destruct f as [fn s1|e s1]; cbn in Hlog.
    + intros (H1 & H2 & H3)%IH. rewrite Hlog in H1, H2, H3.
      split; [lia|]. split; [intros ?%H2; lia|intros ?%H3; lia].
    + apply iteration_body_break in Hbody.
      intros [= <- <-]. split; [lia|]. split; [done|lia].
Qed.

End LoopBounds.

Section ExitProperties.

Import GraphSearchFramework.
Context {Score Info Metrics : Type}.
Variable C : @collaborators Score Info Metrics.
Variable cfg : config.

(** X21. A run makes at most as many passes as its iteration budget, none at
    all when the budget is zero or negative: the log of expanded nodes grows
    by one entry per pass, by exactly the budget when the run ends on the
    exhausted budget, and by at least one entry when it ends otherwise. *)
Theorem call_runs_within_budget end_node (s : @state Score Info Metrics) x s' :
  call C cfg end_node s = inr (x, s') →
  (length (nodes_expanded_per_iter s')
   ≤ length (nodes_expanded_per_iter s) + Z.to_nat (iterations cfg))%nat ∧
  (x = budget_exhausted →
   length (nodes_expanded_per_iter s')
   = (length (nodes_expanded_per_iter s) + Z.to_nat (iterations cfg))%nat) ∧
  (x ≠ budget_exhausted →
   (length (nodes_expanded_per_iter s) < length (nodes_expanded_per_iter s'))%nat).
Proof.
  unfold call.
  destruct (is_search_specific_node (mode cfg) && String.eqb end_node ""); [done|].
  intros H. by apply loop_passes in H.
Qed.

Lemma iteration_body_no_more_paths end_node i found_node
    (s : @state Score Info Metrics) s1 :
  iteration_body C cfg end_node i found_node s = inr (Break no_more_paths s1) →
  truthy (to_expand s1) = false.
Proof.
  unfold iteration_body.
  destruct (run_one_iteration C cfg i s) as [?|[[output nodes] s0]]; [done|].
  destruct (tracks_paths (mode cfg)).
  - destruct (_update_path output i end_node _) as [?|[[|] s2]]; [done|done|].
    destruct (with_metrics (mode cfg)); cbn;
      match goal with |- context [if ?c then _ else _] => destruct c eqn:Hto end;
      try done; by intros [= <-].
  - destruct found_node as [[|]|]; [done| |done].
    destruct (with_metrics (mode cfg)); cbn;
      match goal with |- context [if ?c then _ else _] => destruct c eqn:Hto end;
      try done; by intros [= <-].
Qed.

Lemma iteration_body_needs_found_node end_node i (s : @state Score Info Metrics) f :
  tracks_paths (mode cfg) = false →
  iteration_body C cfg end_node i None s = inr f → False.
Proof.
  intros Hmode. unfold iteration_body.
  destruct (run_one_iteration C cfg i s) as [?|[[output nodes] s0]]; [done|].
  rewrite Hmode. by destruct (with_metrics (mode cfg)).
Qed.

Lemma loop_exit end_node n i found_node (s : @state Score Info Metrics) x s' :
  loop C cfg end_node n i found_node s = inr (x, s') →
  (x = no_more_paths → truthy (to_expand s') = false) ∧
  (found_node = None → x = target_found → tracks_paths (mode cfg) = true).
Proof.
  revert i found_node s. induction n as [|n IH]; intros i found_node s; cbn [loop].
  - intros [= <- <-]. done.
  - destruct (iteration_body C cfg end_node i found_node s) as [?|f] eqn:Hbody;
      [done|].
    destruct (tracks_paths (mode cfg)) eqn:Hmode.
    + destruct f as [fn s1|e s1].
      * intros [H1 _]%IH. done.
      * intros [= <- <-]. split; [|done]. intros ->.
        by eapply iteration_body_no_more_paths.
    + destruct found_node as [b|].
      * destruct f as [fn s1|e s1].
        -- intros [H1 _]%IH. done.
        -- intros [= <- <-]. split; [|done]. intros ->.
           by eapply iteration_body_no_more_paths.
      * exfalso. by eapply iteration_body_needs_found_node.
Qed.

(** X22. What the exits of a run mean. A run that ends for lack of paths
    leaves no path to expand in [to_expand]; a run can end on a found target
    only in the two modes that track paths. *)
Theorem call_exit_meaning end_node (s : @state Score Info Metrics) x s' :
  call C cfg end_node s = inr (x, s') →
  (x = no_more_paths → truthy (to_expand s') = false) ∧
  (x = target_found → tracks_paths (mode cfg) = true).
Proof.
  unfold call.
  destruct (is_search_specific_node (mode cfg) && String.eqb end_node ""); [done|].
  intros [H1 H2]%loop_exit. split; [done|]. by apply H2.
Qed.

End ExitProperties.

(** X20, witness: the first iteration over [two_way] looking for [X]. *)
Lemma update_path_finds_end_node_witness :
  ∃ b s',
    GraphSearchFramework._update_path
      [Scenario.node_expansion Scenario.two_way (Scenario.filter_of 0 0)
         Scenario.no_window (GraphSearchFramework.mk_args Scenario.A [] [] 1)]
      1 Scenario.X (GraphSearchFramework.init Scenario.unfiltered) = inr (b, s') ∧
    b = true ∧
    is_Some (GraphSearchFramework.path_node_to_start s' !! Scenario.X).
Proof.
  destruct (update_path_finds_end_node
              [Scenario.node_expansion Scenario.two_way (Scenario.filter_of 0 0)
                 Scenario.no_window (GraphSearchFramework.mk_args Scenario.A [] [] 1)]
              1 Scenario.X (GraphSearchFramework.init Scenario.unfiltered))
    as [Htotal Hspec].
  destruct (Htotal eq_refl) as (b & s' & Hrun). exists b, s'.
  split; [exact Hrun|]. destruct (Hspec b s' Hrun) as [Hb Hn].
  assert (Scenario.X ∈ endpoints
            [Scenario.node_expansion Scenario.two_way (Scenario.filter_of 0 0)
               Scenario.no_window (GraphSearchFramework.mk_args Scenario.A [] [] 1)])
    as Hx by (vm_compute; apply list_elem_of_here).
  split; [by apply Hb|by apply Hn].
Defined.

(** X21, X22, witness: the run over [one_way] with the temporal filter ends
    for lack of paths after two of its five passes. *)
Lemma call_runs_within_budget_witness :
  ∃ s', GraphSearchFramework.call Scenario.dated
          (Scenario.cfg_all Scenario.Battle 5) ""
          (GraphSearchFramework.init Scenario.dated)
        = inr (GraphSearchFramework.no_more_paths, s') ∧
        (0 < length (GraphSearchFramework.nodes_expanded_per_iter s') ≤ 5)%nat.
Proof.
  destruct (GraphSearchFramework.call Scenario.dated
              (Scenario.cfg_all Scenario.Battle 5) ""
              (GraphSearchFramework.init Scenario.dated)) as [e|[x s']] eqn:Hcall.
  - vm_compute in Hcall. discriminate Hcall.
  - assert (x = GraphSearchFramework.no_more_paths) as ->
      by (vm_compute in Hcall; by injection Hcall as <- _).
    exists s'. split; [done|].
    destruct (call_runs_within_budget _ _ _ _ _ _ Hcall) as (Hle & _ & Hlt).
    split; [by apply Hlt|exact Hle].
Defined.

Lemma call_exit_meaning_witness :
  ∃ s', GraphSearchFramework.call Scenario.dated
          (Scenario.cfg_all Scenario.Battle 5) ""
          (GraphSearchFramework.init Scenario.dated)
        = inr (GraphSearchFramework.no_more_paths, s') ∧
        GraphSearchFramework.truthy (GraphSearchFramework.to_expand s') = false.
Proof.
  destruct (GraphSearchFramework.call Scenario.dated
              (Scenario.cfg_all Scenario.Battle 5) ""
              (GraphSearchFramework.init Scenario.dated)) as [e|[x s']] eqn:Hcall.
  - vm_compute in Hcall. discriminate Hcall.
  - assert (x = GraphSearchFramework.no_more_paths) as ->
      by (vm_compute in Hcall; by injection Hcall as <- _).
    exists s'. split; [done|].
    by apply (proj1 (call_exit_meaning _ _ _ _ _ _ Hcall)).
Defined.

Section KeyRoundTrips.

Import GraphSearchFramework.
Context {Score Info Metrics : Type}.
Variable C : @collaborators Score Info Metrics.
Variable cfg : config.

Lemma get_nb_digit sup pred : _get_nb cfg sup pred ∈ ["1"; "2"; "3"].
Proof.
  unfold _get_nb.
  destruct (existsb _ _); [apply list_elem_of_here|].
  cbn. do 2 apply list_elem_of_further. apply list_elem_of_here.
Qed.

Lemma truthy_key d p : d ∈ ["1"; "2"; "3"] → truthy (Some (d +:+ "-" +:+ p)) = true.
Proof.
  intros Hd.
  repeat (apply elem_of_cons in Hd as [->|Hd]); [done..|by apply elem_of_nil in Hd].
Qed.

Lemma contains_semicolon a b : Py.contains ";" (a +:+ ";" +:+ b) = true.
Proof.
  apply contains_app_r. change (";" +:+ b) with (String semicolon b).
  cbn [Py.contains].
  change (String.prefix ";" (String semicolon b)) with (String.prefix "" b).
  by rewrite prefix_empty.
Qed.

Lemma split_from_plain cur a :
  Py.contains ";" a = false →
  Py.split_from semicolon cur a = [String.rev_app cur a].
Proof.
  revert cur. induction a as [|c a IH]; intros cur Ha; [done|].
  cbn [Py.split_from].
  cbn [Py.contains] in Ha. apply orb_false_iff in Ha as [Hc Ha].
  destruct (Ascii.eqb c semicolon) eqn:Hsep.
  - apply Ascii.eqb_eq in Hsep as ->.
    change (String.prefix ";" (String semicolon a)) with (String.prefix "" a) in Hc.
    by rewrite prefix_empty in Hc.
  - by rewrite IH.
Qed.

Lemma split_from_two cur a b :
  Py.contains ";" a = false → Py.contains ";" b = false →
  Py.split_from semicolon cur (a +:+ ";" +:+ b) = [String.rev_app cur a; b].
Proof.
  intros Ha Hb. revert cur Ha. induction a as [|c a IH]; intros cur Ha.
  - change ("" +:+ ";" +:+ b) with (String semicolon b).
    cbn [Py.split_from]. rewrite Ascii.eqb_refl.
    by rewrite (split_from_plain "" b Hb).
  - change (String c a +:+ ";" +:+ b) with (String c (a +:+ ";" +:+ b)).
    cbn [Py.split_from].
    cbn [Py.contains] in Ha. apply orb_false_iff in Ha as [Hc Ha].
    destruct (Ascii.eqb c semicolon) eqn:Hsep.
    + apply Ascii.eqb_eq in Hsep as ->.
      change (String.prefix ";" (String semicolon a)) with (String.prefix "" a) in Hc.
      by rewrite prefix_empty in Hc.
    + by rewrite IH.
Qed.

(** [a;b] splits back into [a] and [b] when neither holds a semicolon. *)
Lemma split_two a b :
  Py.contains ";" a = false → Py.contains ";" b = false →
  Py.split semicolon (a +:+ ";" +:+ b) = [a; b].
Proof. intros Ha Hb. unfold Py.split. by rewrite split_from_two. Qed.

Lemma replace_own_ingoing rest :
  Py.contains "ingoing-" rest = false →
  Py.replace "ingoing-" "" ("ingoing-" +:+ rest) = rest.
Proof.
  intros H. rewrite <-(replace_absent "ingoing-" "" rest H) at 2.
  unfold Py.replace. cbv [String.append].
  assert (String.prefix "ingoing-" ("ingoing-" +:+ rest) = true) as Hp
    by (cbn; apply prefix_empty).
  cbv [String.append] in Hp. cbn [Py.replace_from]. by rewrite Hp.
Qed.

Lemma replace_own_outgoing rest :
  Py.contains "outgoing-" rest = false →
  Py.replace "outgoing-" "" ("outgoing-" +:+ rest) = rest.
Proof.
  intros H. rewrite <-(replace_absent "outgoing-" "" rest H) at 2.
  unfold Py.replace. cbv [String.append].
  assert (String.prefix "outgoing-" ("outgoing-" +:+ rest) = true) as Hp
    by (cbn; apply prefix_empty).
  cbv [String.append] in Hp. cbn [Py.replace_from]. by rewrite Hp.
Qed.

(** X23. Counting and choosing agree on predicate keys. When [to_expand]
    holds the key the occurrence update writes for a row under a predicate
    ranking, and the predicate of the row contains none of "1-", "2-", "3-"
    and ";", the selection stores the predicate as the path and draws the
    nodes from the pending rows with that predicate: subjects of the ingoing
    ones, then objects of the outgoing ones, less the visited nodes. *)
Theorem select_decodes_predicate_key i (s : @state Score Info Metrics) r :
  Py.contains "1-" (predicate r) = false →
  Py.contains "2-" (predicate r) = false →
  Py.contains "3-" (predicate r) = false →
  Py.contains ";" (predicate r) = false →
  to_expand s = Some (key_pred cfg r) →
  _select_nodes_to_expand C cfg i s =
    inr (match filter (λ node, node ∉ nodes_expanded s)
                 (map subject (filter (λ r', predicate r' = predicate r)
                                      (pending_nodes_ingoing s)) ++
                  map object (filter (λ r', predicate r' = predicate r)
                                     (pending_nodes_outgoing s)))
         with
         | [] => []
         | l => node_selection C i l
         end, [predicate r], set_to_expand (Some (predicate r)) s).
Proof.
  intros H1 H2 H3 Hsemi Hto. unfold _select_nodes_to_expand. rewrite Hto.
  unfold key_pred.
  pose proof (get_nb_digit (superclass r) (predicate r)) as Hd.
  rewrite (truthy_key _ _ Hd).
  change (default "" (Some ?k)) with k.
  rewrite (strip_priority_plain _ _ Hd H1 H2 H3).
  unfold candidates. rewrite Hsemi. cbn.
  by destruct (filter (λ node, node ∉ nodes_expanded s) _).
Qed.

(** X24. Counting and choosing agree on ingoing keys. When [to_expand] holds
    the key the occurrence update writes for an ingoing row under a
    predicate-and-object ranking, the text [predicate;object] of the row
    contains none of "1-", "2-", "3-" and "ingoing-", and neither part holds
    a ";", the selection draws the nodes from the subjects of the pending
    ingoing rows with that predicate and that object, less the visited
    nodes. *)
Theorem select_decodes_ingoing_key i (s : @state Score Info Metrics) r :
  let rest := predicate r +:+ ";" +:+ object r in
  Py.contains "1-" rest = false →
  Py.contains "2-" rest = false →
  Py.contains "3-" rest = false →
  Py.contains "ingoing-" rest = false →
  Py.contains ";" (predicate r) = false →
  Py.contains ";" (object r) = false →
  to_expand s = Some (key_ingoing cfg r) →
  _select_nodes_to_expand C cfg i s =
    inr (match filter (λ node, node ∉ nodes_expanded s)
                 (map subject
                    (filter (λ r', predicate r' = predicate r ∧ object r' = object r)
                            (pending_nodes_ingoing s)))
         with
         | [] => []
         | l => node_selection C i l
         end, ["ingoing-" +:+ rest],
         set_to_expand (Some ("ingoing-" +:+ rest)) s).
Proof.
  intros rest H1 H2 H3 Hin Hp Ho Hto. unfold _select_nodes_to_expand. rewrite Hto.
  pose proof (get_nb_digit (superclass r) (predicate r)) as Hd.
  change (key_ingoing cfg r)
    with (_get_nb cfg (superclass r) (predicate r) +:+ "-" +:+ ("ingoing-" +:+ rest)).
  rewrite (truthy_key _ _ Hd).
  change (default "" (Some ?k)) with k.
  rewrite (strip_priority_plain _ ("ingoing-" +:+ rest) Hd); [|exact H1|exact H2|exact H3].
  unfold candidates.
  assert (Py.contains ";" ("ingoing-" +:+ rest) = true) as ->
    by apply contains_app_r, contains_semicolon.
  change (Py.contains "ingoing" ("ingoing-" +:+ rest)) with true.
  cbn [andb]. rewrite (replace_own_ingoing rest Hin).
  unfold rest at 1. rewrite (split_two _ _ Hp Ho). cbn.
  by destruct (filter (λ node, node ∉ nodes_expanded s) _).
Qed.

(** X25. Counting and choosing agree on outgoing keys. When [to_expand] holds
    the key the occurrence update writes for an outgoing row under a
    predicate-and-object ranking, the text [subject;predicate] of the row
    contains none of "1-", "2-", "3-", "ingoing" and "outgoing-", and neither
    part holds a ";", the selection draws the nodes from the objects of the
    pending outgoing rows with that predicate and that subject, less the
    visited nodes. *)
Theorem select_decodes_outgoing_key i (s : @state Score Info Metrics) r :
  let rest := subject r +:+ ";" +:+ predicate r in
  Py.contains "1-" rest = false →
  Py.contains "2-" rest = false →
  Py.contains "3-" rest = false →
  Py.contains "ingoing" rest = false →
  Py.contains "outgoing-" rest = false →
  Py.contains ";" (subject r) = false →
  Py.contains ";" (predicate r) = false →
  to_expand s = Some (key_outgoing cfg r) →
  _select_nodes_to_expand C cfg i s =
    inr (match filter (λ node, node ∉ nodes_expanded s)
                 (map object
                    (filter (λ r', predicate r' = predicate r ∧ subject r' = subject r)
                            (pending_nodes_outgoing s)))
         with
         | [] => []
         | l => node_selection C i l
         end, ["outgoing-" +:+ rest],
         set_to_expand (Some ("outgoing-" +:+ rest)) s).
Proof.
  intros rest H1 H2 H3 Hin Hout Hs Hp Hto. unfold _select_nodes_to_expand. rewrite Hto.
  pose proof (get_nb_digit (superclass r) (predicate r)) as Hd.
  change (key_outgoing cfg r)
    with (_get_nb cfg (superclass r) (predicate r) +:+ "-" +:+ ("outgoing-" +:+ rest)).
  rewrite (truthy_key _ _ Hd).
  change (default "" (Some ?k)) with k.
  rewrite (strip_priority_plain _ ("outgoing-" +:+ rest) Hd); [|exact H1|exact H2|exact H3].
  unfold candidates.
  assert (Py.contains ";" ("outgoing-" +:+ rest) = true) as ->
    by apply contains_app_r, contains_semicolon.
  change (Py.contains "ingoing" ("outgoing-" +:+ rest))
    with (Py.contains "ingoing" rest).
  rewrite Hin.
  change (Py.contains "outgoing" ("outgoing-" +:+ rest)) with true.
  cbn [andb]. rewrite (replace_own_outgoing rest Hout).
  unfold rest at 1. rewrite (split_two _ _ Hs Hp). cbn.
  by destruct (filter (λ node, node ∉ nodes_expanded s) _).
Qed.

End KeyRoundTrips.

(** X23, witness: one pending ingoing row of predicate [p], chosen by its
    predicate key. *)
Lemma select_decodes_predicate_key_witness :
  ∃ s',
    GraphSearchFramework._select_nodes_to_expand Scenario.unfiltered
      (Scenario.cfg_all Scenario.A 2) 2
      (GraphSearchFramework.set_to_expand
         (Some (GraphSearchFramework.key_pred (Scenario.cfg_all Scenario.A 2)
                  (GraphSearchFramework.mk_path_row Scenario.X Scenario.p Scenario.A
                     (GraphSearchFramework.SupStr ""))))
         (GraphSearchFramework.set_pending_nodes_ingoing
            [GraphSearchFramework.mk_path_row Scenario.X Scenario.p Scenario.A
               (GraphSearchFramework.SupStr "")]
            (GraphSearchFramework.init Scenario.unfiltered)))
    = inr ([Scenario.X], [Scenario.p], s').
Proof.
  eexists.
  rewrite (select_decodes_predicate_key Scenario.unfiltered
             (Scenario.cfg_all Scenario.A 2) 2 _
             (GraphSearchFramework.mk_path_row Scenario.X Scenario.p Scenario.A
                (GraphSearchFramework.SupStr "")));
    [|reflexivity..].
  vm_compute. reflexivity.
Defined.

(** X24, witness: the same row, chosen by its ingoing key. *)
Lemma select_decodes_ingoing_key_witness :
  ∃ path s',
    GraphSearchFramework._select_nodes_to_expand Scenario.unfiltered
      (Scenario.cfg_all Scenario.A 2) 2
      (GraphSearchFramework.set_to_expand
         (Some (GraphSearchFramework.key_ingoing (Scenario.cfg_all Scenario.A 2)
                  (GraphSearchFramework.mk_path_row Scenario.X Scenario.p Scenario.A
                     (GraphSearchFramework.SupStr ""))))
         (GraphSearchFramework.set_pending_nodes_ingoing
            [GraphSearchFramework.mk_path_row Scenario.X Scenario.p Scenario.A
               (GraphSearchFramework.SupStr "");
             GraphSearchFramework.mk_path_row Scenario.Battle Scenario.p Scenario.X
               (GraphSearchFramework.SupStr "")]
            (GraphSearchFramework.init Scenario.unfiltered)))
    = inr ([Scenario.X], path, s').
Proof.
  do 2 eexists.
  rewrite (select_decodes_ingoing_key Scenario.unfiltered
             (Scenario.cfg_all Scenario.A 2) 2 _
             (GraphSearchFramework.mk_path_row Scenario.X Scenario.p Scenario.A
                (GraphSearchFramework.SupStr "")));
    [|reflexivity..].
  vm_compute. reflexivity.
Defined.

(** X25, witness: two pending outgoing rows, one of them chosen by its
    outgoing key. *)
Lemma select_decodes_outgoing_key_witness :
  ∃ path s',
    GraphSearchFramework._select_nodes_to_expand Scenario.unfiltered
      (Scenario.cfg_all Scenario.A 2) 2
      (GraphSearchFramework.set_to_expand
         (Some (GraphSearchFramework.key_outgoing (Scenario.cfg_all Scenario.A 2)
                  (GraphSearchFramework.mk_path_row Scenario.A Scenario.p Scenario.X
                     (GraphSearchFramework.SupStr ""))))
         (GraphSearchFramework.set_pending_nodes_outgoing
            [GraphSearchFramework.mk_path_row Scenario.A Scenario.p Scenario.X
               (GraphSearchFramework.SupStr "");
             GraphSearchFramework.mk_path_row Scenario.X Scenario.p Scenario.Battle
               (GraphSearchFramework.SupStr "")]
            (GraphSearchFramework.init Scenario.unfiltered)))
    = inr ([Scenario.X], path, s').
Proof.
  do 2 eexists.
  rewrite (select_decodes_outgoing_key Scenario.unfiltered
             (Scenario.cfg_all Scenario.A 2) 2 _
             (GraphSearchFramework.mk_path_row Scenario.A Scenario.p Scenario.X
                (GraphSearchFramework.SupStr "")));
    [|reflexivity..].
  vm_compute. reflexivity.
Defined.

Section DiscardLog.

Import GraphSearchFramework.
Context {Score Info Metrics : Type}.
Variable C : @collaborators Score Info Metrics.
Variable cfg : config.

Lemma merge_single_discarded i b (s : @state Score Info Metrics) :
  discarded (_merge_outputs_single_run C cfg i b s) = discarded s.
Proof.
  unfold _merge_outputs_single_run. cbn.
  destruct (ordering C (path_ingoing b) "ingoing" (info s) i) as [pin info1].
  by destruct (ordering C (path_outgoing b) "outgoing" info1 i).
Qed.

Lemma merge_fold_discarded i output (s : @state Score Info Metrics) :
  discarded (fold_left (λ s b, _merge_outputs_single_run C cfg i b s) output s)
  = discarded s.
Proof.
  revert s. induction output as [|b output IH]; [done|].
  intros s. cbn [fold_left]. by rewrite IH, merge_single_discarded.
Qed.

(** X26. The log of discarded nodes. Merging the outputs of an iteration
    adds exactly one entry to the log, tagged with the iteration, and leaves
    the earlier entries as they were; the entry lists the nodes some
    expansion of the iteration asked to discard, each once, whether or not
    the ranker then finds a path. *)
Theorem merge_outputs_logs_discarded output i (s : @state Score Info Metrics) :
  ∃ ds, discarded (merge_outputs C cfg output i s) = discarded s ++ [(i, ds)] ∧
        NoDup ds ∧
        ∀ n, n ∈ ds ↔ ∃ b, b ∈ output ∧ n ∈ to_discard b.
Proof.
  exists (Py.list_set (flat_map to_discard output)). split; [|split].
  - unfold merge_outputs.
    destruct (ranker C _) as [p score]. cbn.
    destruct (truthy p); cbn; by rewrite merge_fold_discarded.
  - apply NoDup_unique.
  - intros n. unfold Py.list_set. rewrite elem_of_unique.
    rewrite list_elem_of_In, in_flat_map. split.
    + intros (b & Hb & Hn). exists b. by rewrite !list_elem_of_In.
    + intros (b & Hb & Hn). exists b. by rewrite <-!list_elem_of_In.
Qed.

End DiscardLog.
